(** * openBliSSART, LibNMF: the NMF / NMD engine [Deconvolver.cpp]

    A shallow embedding of [blissart::nmf::Deconvolver] and the properties
    of its kernels, drivers and facade.

    Scalars.  The code computes in C++ [double].  Everything below is
    written once over an interface [Scalar] of the operations the code
    applies to a [double]; the interface has two instances: binary64
    floating point ([PrimFloat.float], what the compiled code
    computes), and the real numbers ([R], the exact arithmetic the
    algebraic statements are about).

    The one [float] computation of the file, the quotient that
    [nextItStep] passes to the observer, is computed in binary32, with the
    value of each binary32 number kept as a rational.

    Statics.  [factorizeNMFEDWUpdate] and [calculateNMFEDHUpdate] keep
    their scratch matrices in function-local statics, which the first
    engine of a process sizes.  The two drivers that call them,
    [factorizeNMFED] and [factorizeNMFEDSparse], are embedded for a process
    in which these matrices fit the engine; the statements about how a call
    ends leave these two drivers out.

    Integers.  Dimensions, indices, the depth [_t] and the step counter are
    [unsigned int] in the source and natural numbers here.  The source never
    wraps them on an engine built by the constructor: every subtraction
    [cols - p] has [p < _t <= cols], and [++_numSteps] is only reached
    under [_numSteps < maxSteps]. *)

From Stdlib Require Import List Arith Lia Bool String DecimalString.
From Stdlib Require Import ZArith QArith Qround Qpower Reals Lra Floats Sorted.
From Stdlib Require Lqa.
Import ListNotations.

Local Open Scope nat_scope.

(** ** Scalars *)

Class Scalar (F : Type) : Type := {
  f_zero : F;                       (* 0.0 *)
  f_one : F;                        (* 1.0 *)
  f_minus_one : F;                  (* -1 *)
  f_add : F -> F -> F;
  f_sub : F -> F -> F;
  f_mul : F -> F -> F;
  f_div : F -> F -> F;
  f_sqrt : F -> F;                  (* sqrt of <cmath> *)
  f_le : F -> F -> bool;            (* x <= y *)
  f_lt : F -> F -> bool;            (* x < y *)
  f_eq : F -> F -> bool;            (* x == y *)
  f_of_uint : nat -> F;             (* (double) n *)
  DIVISOR_FLOOR : F                 (* #define DIVISOR_FLOOR 1e-9 *)
}.

Declare Scope scalar_scope.
Delimit Scope scalar_scope with sc.
Infix "+" := f_add : scalar_scope.
Infix "-" := f_sub : scalar_scope.
Infix "*" := f_mul : scalar_scope.
Infix "/" := f_div : scalar_scope.

(** ** Loops *)

(** [for (i = lo; i < hi; ++i) body], as a state transformer. *)
Definition for_range {S : Type} (lo hi : nat) (body : nat -> S -> S) (s : S) : S :=
  fold_left (fun acc i => body i acc) (seq lo (hi - lo)) s.

(** [for (i = 0; i < n; ++i) body]. *)
Definition for_ {S : Type} (n : nat) (body : nat -> S -> S) (s : S) : S :=
  for_range 0 n body s.

(** Writing one cell of an array, [a[k] = x]; the source never writes out
    of range. *)
Fixpoint list_set {A : Type} (l : list A) (k : nat) (x : A) : list A :=
  match l, k with
  | [], _ => []
  | _ :: tl, 0 => x :: tl
  | hd :: tl, S k' => hd :: list_set tl k' x
  end.

(** ** Exceptions and cost functions *)

(** Every [throw] of the file throws a [std::runtime_error]; [what] is its
    message. *)
Inductive exn : Type :=
| runtime_error (what : string).

(** [Deconvolver::NMFCostFunction]: the six enumerators, and the values of
    the underlying integer type that are none of them. *)
Inductive NMFCostFunction : Type :=
| EuclideanDistance
| KLDivergence
| EuclideanDistanceSparse
| KLDivergenceSparse
| EuclideanDistanceSparseNormalized
| KLDivergenceContinuous
| OtherCostFunction (value : nat).

(** [errStr << n] for an [unsigned int]. *)
Definition show_uint (n : nat) : string :=
  NilEmpty.string_of_uint (Nat.to_uint n).

(** ** Binary32 arithmetic

    [nextItStep] computes [(float)_numSteps / (float)maxSteps]: two
    conversions of an [unsigned int] to [float] and one [float] division,
    each correctly rounded to the nearest binary32 number, ties to even
    (IEEE 754).  A binary32 number is kept as the rational that is its
    value.  The operands are 32-bit integers and the quotients of two of
    them, so no result is subnormal or overflows, and every result has a
    significand of 24 bits. *)

(** The integer nearest to [s]; of two that are equally near, the even
    one. *)
Definition round_half_even (s : Q) : Z :=
  let f := Qfloor s in
  match Qcompare (s - inject_Z f) (1 # 2) with
  | Lt => f
  | Eq => if Z.even f then f else (f + 1)%Z
  | Gt => (f + 1)%Z
  end.

(** The exponent [k] of the binade of [x > 0]: [2^k <= x < 2^(k+1)]. *)
Definition binade (x : Q) : Z :=
  let k := (Z.log2 (Qnum x) - Z.log2 (Zpos (Qden x)))%Z in
  if Qle_bool (2 ^ k) x then k else (k - 1)%Z.

(** The binary32 number nearest to [x >= 0]: the significand
    [x / 2^(k - 23)] is rounded to an integer of 24 bits. *)
Definition round_binary32 (x : Q) : Q :=
  if Qle_bool x 0 then 0%Q
  else
    let e := (binade x - 23)%Z in
    (inject_Z (round_half_even (x / 2 ^ e)) * 2 ^ e)%Q.

(** [(float) n] for an [unsigned int] [n]. *)
Definition float_of_uint (n : Z) : Q := round_binary32 (inject_Z n).

(** [x / y] for two [float]s. *)
Definition float_div (x y : Q) : Q := round_binary32 (x / y).

(** The value of a binary32 number of the Standard Library's
    specification of IEEE 754 arithmetic ([SpecFloat], precision 24,
    [emax] 128); the definitions above are compared with it below. *)
Definition SF2Q (f : spec_float) : Q :=
  match f with
  | S754_finite s m e => (inject_Z (if s then Z.neg m else Z.pos m) * 2 ^ e)%Q
  | _ => 0%Q
  end.

(** [(float) n / (float) m] computed by [SpecFloat] is the quotient
    computed by the definitions above. *)
Definition agrees_with_SpecFloat (n m : Z) : bool :=
  Qeq_bool
    (SF2Q (SFdiv 24 128 (binary_normalize 24 128 n 0 false)
                        (binary_normalize 24 128 m 0 false)))
    (float_div (float_of_uint n) (float_of_uint m)).

Section Engine.

Context {F : Type} {SF : Scalar F}.

(** [sum_upto n f] is [f 0 + ... + f (n-1)], accumulated from [0.0] in
    index order. *)
Fixpoint sum_upto (n : nat) (f : nat -> F) : F :=
  match n with
  | 0 => f_zero
  | S k => (sum_upto k f + f k)%sc
  end.

(** ** The dense matrix container

    The class [blissart::linalg::Matrix] and the generators are not under
    src/.  The spec (1, Out of scope) gives the operations of the
    container: elementwise access, row and column sums, dot products,
    Frobenius norm, GEMM with selectable transpose and sub-block offsets,
    elementwise divide, add, sub and zero-fill.  Each is modelled below
    from these words and from the way Deconvolver.cpp calls it. *)

(** Modelled from the spec: the class [Matrix], a dense rectangular matrix
    of doubles; here its two dimensions and its cells [m(i, j)]. *)
Record Matrix : Type := mkMatrix {
  rows : nat;
  cols : nat;
  at_ : nat -> nat -> F
}.

(** Modelled from the spec: elementwise access for writing,
    [m(i, j) = x] and [m.at(i, j) = x]. *)
Definition mset (m : Matrix) (i j : nat) (x : F) : Matrix :=
  mkMatrix (rows m) (cols m)
    (fun i' j' => if (i' =? i) && (j' =? j) then x else at_ m i' j').

(** Modelled from the spec: the constructor [Matrix(rows, cols, generator)],
    which fills the cell [(i, j)] with [generator(i, j)]. *)
Definition Matrix_gen (r c : nat) (g : nat -> nat -> F) : Matrix :=
  mkMatrix r c g.

(** Modelled from the spec: the generator [generators::zero] ("zeros
    disable", 3). *)
Definition generators_zero (_ _ : nat) : F := f_zero.

(** Modelled from the spec: the constructor [Matrix(rows, cols)], a fresh
    matrix.  No function below reads a cell of a fresh matrix before
    writing it, so its cells are taken to be zero. *)
Definition Matrix_new (r c : nat) : Matrix := mkMatrix r c generators_zero.

(** Modelled from the spec: zero-fill, [m.zero()]. *)
Definition Matrix_zero (m : Matrix) : Matrix :=
  mkMatrix (rows m) (cols m) generators_zero.

(** Modelled from the spec: add, [a.add(b)], in place on [a]. *)
Definition Matrix_add (a b : Matrix) : Matrix :=
  mkMatrix (rows a) (cols a) (fun i j => (at_ a i j + at_ b i j)%sc).

(** Modelled from the spec: sub, [a.sub(b)], in place on [a]. *)
Definition Matrix_sub (a b : Matrix) : Matrix :=
  mkMatrix (rows a) (cols a) (fun i j => (at_ a i j - at_ b i j)%sc).

(** [if (denom <= 0.0) denom = DIVISOR_FLOOR;] *)
Definition floor_divisor (denom : F) : F :=
  if f_le denom f_zero then DIVISOR_FLOOR else denom.

(** Modelled from the spec: elementwise divide,
    [a.elementWiseDivision(b, &target)], "elementwise division with
    DIVISOR_FLOOR guard" (4.3.3). *)
Definition elementWiseDivision (a b : Matrix) : Matrix :=
  mkMatrix (rows a) (cols a)
    (fun i j => (at_ a i j / floor_divisor (at_ b i j))%sc).

(** Modelled from the spec: the row sum [m.rowSum(i)]. *)
Definition rowSum (m : Matrix) (i : nat) : F :=
  sum_upto (cols m) (fun j => at_ m i j).

(** Modelled from the spec: the column sum [m.colSum(j)]. *)
Definition colSum (m : Matrix) (j : nat) : F :=
  sum_upto (rows m) (fun i => at_ m i j).

(** Modelled from the spec: the dot product of two rows,
    [Matrix::dotRowRow(a, i, b, k)]. *)
Definition dotRowRow (a : Matrix) (i : nat) (b : Matrix) (k : nat) : F :=
  sum_upto (cols a) (fun j => (at_ a i j * at_ b k j)%sc).

(** Modelled from the spec: the dot product of two columns,
    [Matrix::dotColCol(a, j, b, k)]. *)
Definition dotColCol (a : Matrix) (j : nat) (b : Matrix) (k : nat) : F :=
  sum_upto (rows a) (fun i => (at_ a i j * at_ b i k)%sc).

(** Modelled from the spec: the sum of the squares of all cells, of which
    the Frobenius norm is the square root (glossary). *)
Definition sumSquares (m : Matrix) : F :=
  sum_upto (rows m) (fun i => sum_upto (cols m) (fun j => (at_ m i j * at_ m i j)%sc)).

(** Modelled from the spec: the Frobenius norm [m.frobeniusNorm()]. *)
Definition frobeniusNorm (m : Matrix) : F := f_sqrt (sumSquares m).

(** Modelled from the spec: [m.shiftColumnsRight()], "H shifted p columns
    to the right with zero fill on the left" for one column. *)
Definition shiftColumnsRight (m : Matrix) : Matrix :=
  mkMatrix (rows m) (cols m)
    (fun i j => match j with 0 => f_zero | S j' => at_ m i j' end).

(** Modelled from the spec: the cell [(i, l)] of an operand [op(a)] of
    GEMM, which is [a] itself or its transpose, read from the sub-block
    that starts at [(ro, co)] of [a]. *)
Definition gemm_operand (a : Matrix) (transpose : bool) (ro co i l : nat) : F :=
  if transpose then at_ a (ro + l) (co + i) else at_ a (ro + i) (co + l).

(** Modelled from the spec: GEMM with selectable transpose and sub-block
    offsets,
    [a.multWithMatrix(b, &target, transpose, transposeOther, m, k, n,
       rowOffset, colOffset, rowOffsetOther, colOffsetOther,
       rowOffsetTarget, colOffsetTarget)]:
    the [m x n] block of [target] at [(rowOffsetTarget, colOffsetTarget)]
    becomes [op(a) * op(b)], an [m x k] by [k x n] product; the other cells
    of [target] keep their values. *)
Definition multWithMatrix_block (a b target : Matrix)
    (transpose transposeOther : bool) (m k n : nat)
    (rowOffset colOffset rowOffsetOther colOffsetOther
     rowOffsetTarget colOffsetTarget : nat) : Matrix :=
  mkMatrix (rows target) (cols target)
    (fun i j =>
       if (rowOffsetTarget <=? i) && (i <? rowOffsetTarget + m)
          && (colOffsetTarget <=? j) && (j <? colOffsetTarget + n)
       then sum_upto k (fun l =>
              (gemm_operand a transpose rowOffset colOffset (i - rowOffsetTarget) l
               * gemm_operand b transposeOther rowOffsetOther colOffsetOther
                   l (j - colOffsetTarget))%sc)
       else at_ target i j).

(** Modelled from the spec: GEMM without offsets,
    [a.multWithMatrix(b, &target)], the whole product [a * b]. *)
Definition multWithMatrix (a b : Matrix) : Matrix :=
  mkMatrix (rows a) (cols b)
    (fun i j => sum_upto (cols a) (fun l => (at_ a i l * at_ b l j)%sc)).

(** Modelled from the spec: [a.multWithTransposedMatrix(b, &target)], the
    product [a * b^T]. *)
Definition multWithTransposedMatrix (a b : Matrix) : Matrix :=
  mkMatrix (rows a) (rows b)
    (fun i j => sum_upto (cols a) (fun l => (at_ a i l * at_ b j l)%sc)).

(** ** The engine state: the data members of [Deconvolver] *)

Record Deconvolver : Type := mkDeconvolver {
  _v : Matrix;
  _approx : Matrix;
  _oldApprox : option Matrix;          (* Matrix*, 0 when absent *)
  _w : list Matrix;                    (* Matrix*[_t] *)
  _wConstant : bool;
  _wColConstant : list bool;           (* bool[r] *)
  _normalizeMatrices : bool;
  _t : nat;
  _h : Matrix;
  _s : Matrix;
  _c : Matrix;
  _numSteps : nat;
  _absoluteError : F;
  _relativeError : F;
  _vFrob : F;
  _notificationDelay : nat
}.

Definition set_approx (d : Deconvolver) (x : Matrix) : Deconvolver :=
  mkDeconvolver (_v d) x (_oldApprox d) (_w d) (_wConstant d) (_wColConstant d)
    (_normalizeMatrices d) (_t d) (_h d) (_s d) (_c d) (_numSteps d)
    (_absoluteError d) (_relativeError d) (_vFrob d) (_notificationDelay d).

Definition set_oldApprox (d : Deconvolver) (x : option Matrix) : Deconvolver :=
  mkDeconvolver (_v d) (_approx d) x (_w d) (_wConstant d) (_wColConstant d)
    (_normalizeMatrices d) (_t d) (_h d) (_s d) (_c d) (_numSteps d)
    (_absoluteError d) (_relativeError d) (_vFrob d) (_notificationDelay d).

Definition set_w (d : Deconvolver) (x : list Matrix) : Deconvolver :=
  mkDeconvolver (_v d) (_approx d) (_oldApprox d) x (_wConstant d) (_wColConstant d)
    (_normalizeMatrices d) (_t d) (_h d) (_s d) (_c d) (_numSteps d)
    (_absoluteError d) (_relativeError d) (_vFrob d) (_notificationDelay d).

Definition set_h (d : Deconvolver) (x : Matrix) : Deconvolver :=
  mkDeconvolver (_v d) (_approx d) (_oldApprox d) (_w d) (_wConstant d) (_wColConstant d)
    (_normalizeMatrices d) (_t d) x (_s d) (_c d) (_numSteps d)
    (_absoluteError d) (_relativeError d) (_vFrob d) (_notificationDelay d).

Definition set_numSteps (d : Deconvolver) (x : nat) : Deconvolver :=
  mkDeconvolver (_v d) (_approx d) (_oldApprox d) (_w d) (_wConstant d) (_wColConstant d)
    (_normalizeMatrices d) (_t d) (_h d) (_s d) (_c d) x
    (_absoluteError d) (_relativeError d) (_vFrob d) (_notificationDelay d).

Definition set_errors (d : Deconvolver) (a r : F) : Deconvolver :=
  mkDeconvolver (_v d) (_approx d) (_oldApprox d) (_w d) (_wConstant d) (_wColConstant d)
    (_normalizeMatrices d) (_t d) (_h d) (_s d) (_c d) (_numSteps d)
    a r (_vFrob d) (_notificationDelay d).

(** [*_w[p]] and [_wColConstant[j]]. *)
Definition W (d : Deconvolver) (p : nat) : Matrix := nth p (_w d) (Matrix_new 0 0).

Definition wColConstant (d : Deconvolver) (j : nat) : bool :=
  nth j (_wColConstant d) false.

(** ** The shifted-convolution kernel *)

(** [Deconvolver::computeWpH(p, wpH)]; the new value of [wpH]. *)
Definition computeWpH (d : Deconvolver) (p : nat) (wpH : Matrix) : Matrix :=
  let zeroed :=
    for_ p (fun j m =>
      for_ (rows wpH) (fun i m => mset m i j f_zero) m) wpH in
  multWithMatrix_block (W d p) (_h d) zeroed false false
    (rows (W d p)) (cols (W d p)) (cols (_h d) - p)
    0 0 0 0 0 p.

(** [Deconvolver::computeApprox()]. *)
Definition computeApprox (d : Deconvolver) : Deconvolver :=
  if _t d =? 1 then
    set_approx d (multWithMatrix (W d 0) (_h d))
  else
    let wpH := Matrix_new (rows (_v d)) (cols (_v d)) in
    let '(approx, _) :=
      for_ (_t d) (fun p '(approx, wpH) =>
        let wpH := computeWpH d p wpH in
        (Matrix_add approx wpH, wpH))
        (Matrix_zero (_approx d), wpH) in
    set_approx d approx.

(** ** The convergence monitor *)

(** [Deconvolver::checkConvergence(eps, doComputeApprox)]: the returned
    flag and the engine afterwards. *)
Definition checkConvergence (d : Deconvolver) (eps : F) (doComputeApprox : bool)
  : bool * Deconvolver :=
  if f_le eps f_zero then (false, d)
  else
    match _oldApprox d with
    | None =>
        let d := if doComputeApprox then computeApprox d else d in
        let d := set_oldApprox d (Some (_approx d)) in
        (false, d)
    | Some oldApprox =>
        let d := if doComputeApprox then computeApprox d else d in
        let approxDiff := Matrix_sub (_approx d) oldApprox in
        let zeta := (frobeniusNorm approxDiff / frobeniusNorm oldApprox)%sc in
        let converged := f_lt zeta eps in
        (converged, set_oldApprox d (Some (_approx d)))
    end.

(** ** Post-processing *)

(** [Deconvolver::ensureNonnegativity(m, epsilon)]. *)
Definition ensureNonnegativity (m : Matrix) (epsilon : F) : Matrix :=
  for_ (cols m) (fun j a =>
    for_ (rows m) (fun i a =>
      if f_le (at_ a i j) f_zero then mset a i j epsilon else a) a) m.

(** The default value of [ensureNonnegativity]'s parameter [epsilon] is
    declared in Deconvolver.h, which is not under src/; the drivers take
    it as a parameter. *)
Variable default_epsilon : F.

(** [Deconvolver::normalizeMatrices()]. *)
Definition normalizeMatrices (d : Deconvolver) : Deconvolver :=
  let hNorm := frobeniusNorm (_h d) in
  let d :=
    set_h d
      (for_ (cols (_h d)) (fun j h =>
         for_ (rows (_h d)) (fun i h =>
           mset h i j (at_ h i j / hNorm)%sc) h) (_h d)) in
  let hNormRight := repeat f_zero (_t d) in
  let col := cols (_h d) - 1 in
  let '(hNormRight, _) :=
    for_range 1 (_t d) (fun p '(hNormRight, col) =>
      let hNormRight :=
        if 1 <? p
        then list_set hNormRight (p - 1) (nth (p - 2) hNormRight f_zero)
        else hNormRight in
      let hNormRight :=
        list_set hNormRight (p - 1)
          (nth (p - 1) hNormRight f_zero + dotColCol (_h d) col (_h d) col)%sc in
      (hNormRight, col - 1))
      (hNormRight, col) in
  for_ (_t d) (fun p d =>
    set_w d (list_set (_w d) p
      (for_ (cols (W d p)) (fun j wp =>
         for_ (rows (W d p)) (fun i wp =>
           mset wp i j (at_ wp i j * (hNorm - nth p hNormRight f_zero))%sc) wp)
         (W d p)))) d.

(** [Deconvolver::computeError()]. *)
Definition computeError (d : Deconvolver) : Deconvolver :=
  let errorMatrix := Matrix_sub (_approx d) (_v d) in
  let absoluteError := frobeniusNorm errorMatrix in
  set_errors d absoluteError (absoluteError / _vFrob d)%sc.

(** ** Progress *)

(** The calls [observer->progressChanged(x)] made so far, oldest first,
    each with the value of its [float] argument. *)
Definition Trace : Type := list Q.

(** [(float)_numSteps / (float)maxSteps], in binary32; only evaluated
    inside a driver loop, where [maxSteps > 0]. *)
Definition fraction (numSteps maxSteps : nat) : Q :=
  float_div (float_of_uint (Z.of_nat numSteps)) (float_of_uint (Z.of_nat maxSteps)).

(** [Deconvolver::nextItStep(observer, maxSteps)]; [observer] is [true]
    for a non-null pointer.  With an observer the source evaluates
    [_numSteps % _notificationDelay], which is undefined for a zero
    [_notificationDelay]: [None]. *)
Definition nextItStep (d : Deconvolver) (observer : bool) (maxSteps : nat)
    (calls : Trace) : option (Deconvolver * Trace) :=
  let d := set_numSteps d (S (_numSteps d)) in
  if observer then
    if _notificationDelay d =? 0 then None
    else if _numSteps d mod _notificationDelay d =? 0
         then Some (d, calls ++ [fraction (_numSteps d) maxSteps])
         else Some (d, calls)
  else Some (d, calls).

(** How a call ends: it returns, it throws, an [assert] fails, it runs
    into undefined behaviour ([%] by zero), or (in the model only) the
    fuel of a loop ends.  [calls] are the calls made to the observer. *)
Inductive Outcome : Type :=
| Returned (d : Deconvolver) (calls : Trace)
| Thrown (e : exn) (d : Deconvolver) (calls : Trace)
| AssertionFailed
| UndefinedBehaviour
| OutOfFuel.

(** The driver loops.  Both shapes of the source,
    [while (_numSteps < maxSteps && !checkConvergence(eps, true)) { body; nextItStep }]
    and
    [while (_numSteps < maxSteps) { computeApprox(); if (checkConvergence(eps, false)) break; body; nextItStep }],
    test the step counter, then run a convergence test that may change the
    engine, then the body.  [OutOfFuel] is the loop still running when
    [fuel] ends. *)
Fixpoint while_loop (fuel : nat) (maxSteps : nat)
    (converged : Deconvolver -> bool * Deconvolver)
    (body : Deconvolver -> Deconvolver)
    (observer : bool) (d : Deconvolver) (calls : Trace)
  : Outcome :=
  match fuel with
  | 0 => OutOfFuel
  | S fuel' =>
      if _numSteps d <? maxSteps then
        let '(stop, d) := converged d in
        if stop then Returned d calls
        else
          match nextItStep (body d) observer maxSteps calls with
          | Some (d, calls) =>
              while_loop fuel' maxSteps converged body observer d calls
          | None => UndefinedBehaviour
          end
      else Returned d calls
  end.

(** The loop test of the drivers that call [checkConvergence(eps, true)],
    and of those that call [computeApprox()] and then
    [checkConvergence(eps, false)]. *)
Definition converged_computing (eps : F) (d : Deconvolver) : bool * Deconvolver :=
  checkConvergence d eps true.

Definition converged_after_approx (eps : F) (d : Deconvolver) : bool * Deconvolver :=
  checkConvergence (computeApprox d) eps false.

(** ** The drivers: one iteration of each loop, up to [nextItStep] *)

(** [Deconvolver::factorizeNMFEDWUpdate(w)]; the new value of [w].
    The scratch matrices [wUpdateMatrixNum], [wUpdateMatrixDenom] and
    [hhT] are function-local statics in the source: the first call in the
    process constructs them with the shapes of its engine, and every call
    that uses them writes all their cells before it reads any.  The
    function is embedded for the calls that find them with the shapes of
    their engine, that is for the first engine of a process and every
    later engine of the same dimensions; what a call does that finds them
    with other shapes is decided by the GEMM of the container, which is
    not under src/. *)
Definition factorizeNMFEDWUpdate (d : Deconvolver) (w : Matrix) : Matrix :=
  if negb (_wConstant d) then
    let wUpdateMatrixNum := multWithTransposedMatrix (_v d) (_h d) in
    let hhT := multWithTransposedMatrix (_h d) (_h d) in
    let wUpdateMatrixDenom := multWithMatrix w hhT in
    for_ (cols w) (fun j a =>
      if negb (wColConstant d j) then
        for_ (rows w) (fun i a =>
          let denom := floor_divisor (at_ wUpdateMatrixDenom i j) in
          mset a i j (at_ a i j * (at_ wUpdateMatrixNum i j / denom))%sc) a
      else a) w
  else w.

(** [Deconvolver::calculateNMFEDHUpdate(num, denom)]; the new values of
    [num] and [denom].  The scratch matrix [wTw] is a function-local
    static in the source, as in [factorizeNMFEDWUpdate]; the function is
    embedded for the calls that find it with the shape [R x R] of their
    engine. *)
Definition calculateNMFEDHUpdate (d : Deconvolver) (num denom : Matrix)
  : Matrix * Matrix :=
  let wTw := Matrix_new (rows (_h d)) (rows (_h d)) in
  let num :=
    multWithMatrix_block (W d 0) (_v d) num true false
      (rows (_h d)) (rows (_v d)) (cols (_h d)) 0 0 0 0 0 0 in
  let wTw :=
    multWithMatrix_block (W d 0) (W d 0) wTw true false
      (rows (_h d)) (rows (W d 0)) (rows (_h d)) 0 0 0 0 0 0 in
  (num, multWithMatrix wTw (_h d)).

(** The body of the loop of [factorizeNMFED]. *)
Definition factorizeNMFED_body (d : Deconvolver) : Deconvolver :=
  let d := set_w d (list_set (_w d) 0 (factorizeNMFEDWUpdate d (W d 0))) in
  let '(hUpdateMatrixNum, hUpdateMatrixDenom) :=
    calculateNMFEDHUpdate d
      (Matrix_new (rows (_h d)) (cols (_h d)))
      (Matrix_new (rows (_h d)) (cols (_h d))) in
  set_h d
    (for_ (cols (_h d)) (fun j h =>
       for_ (rows (_h d)) (fun i h =>
         let denom := floor_divisor (at_ hUpdateMatrixDenom i j) in
         mset h i j (at_ h i j * (at_ hUpdateMatrixNum i j / denom))%sc) h)
       (_h d)).

(** The body of the loop of [factorizeNMDED], after [computeApprox()] and
    the convergence test. *)
Definition factorizeNMDED_body (d : Deconvolver) : Deconvolver :=
  let d :=
    if negb (_wConstant d) then
      for_ (_t d) (fun p d =>
        let wUpdateMatrixNum :=
          multWithMatrix_block (_v d) (_h d)
            (Matrix_new (rows (_v d)) (rows (_h d))) false true
            (rows (_v d)) (cols (_v d) - p) (rows (_h d))
            0 p 0 0 0 0 in
        let wUpdateMatrixDenom :=
          multWithMatrix_block (_approx d) (_h d)
            (Matrix_new (rows (_v d)) (rows (_h d))) false true
            (rows (_v d)) (cols (_v d) - p) (rows (_h d))
            0 p 0 0 0 0 in
        let wpH := computeWpH d p (Matrix_new (rows (_v d)) (cols (_v d))) in
        let d := set_approx d (Matrix_sub (_approx d) wpH) in
        let d :=
          set_w d (list_set (_w d) p
            (for_ (cols (W d p)) (fun j wp =>
               if negb (wColConstant d j) then
                 for_ (rows (W d p)) (fun i wp =>
                   let denom := floor_divisor (at_ wUpdateMatrixDenom i j) in
                   mset wp i j (at_ wp i j * (at_ wUpdateMatrixNum i j / denom))%sc) wp
               else wp) (W d p))) in
        let wpH := computeWpH d p wpH in
        let d := set_approx d (Matrix_add (_approx d) wpH) in
        set_approx d (ensureNonnegativity (_approx d) default_epsilon)) d
    else d in
  let hSum := Matrix_zero (Matrix_new (rows (_h d)) (cols (_h d))) in
  let '(hSum, _, _) :=
    for_ (_t d) (fun p '(hSum, hUpdateMatrixNum, hUpdateMatrixDenom) =>
      let hUpdateMatrixNum :=
        multWithMatrix_block (W d p) (_v d) hUpdateMatrixNum true false
          (cols (W d p)) (rows (W d p)) (cols (_v d) - p)
          0 0 0 p 0 0 in
      let hUpdateMatrixDenom :=
        multWithMatrix_block (W d p) (_approx d) hUpdateMatrixDenom true false
          (cols (W d p)) (rows (W d p)) (cols (_v d) - p)
          0 0 0 p 0 0 in
      let hSum :=
        for_ (cols (_h d) - p) (fun j hSum =>
          for_ (rows (_h d)) (fun i hSum =>
            let denom := floor_divisor (at_ hUpdateMatrixDenom i j) in
            mset hSum i j
              (at_ hSum i j + at_ (_h d) i j * at_ hUpdateMatrixNum i j / denom)%sc)
            hSum) hSum in
      (hSum, hUpdateMatrixNum, hUpdateMatrixDenom))
      (hSum, Matrix_new (rows (_h d)) (cols (_h d)),
             Matrix_new (rows (_h d)) (cols (_h d))) in
  set_h d
    (for_ (cols (_h d)) (fun j h =>
       for_ (rows (_h d)) (fun i h =>
         mset h i j (at_ hSum i j / f_of_uint (_t d))%sc) h) (_h d)).

(** The body of the loop of [factorizeNMDKL], after [computeApprox()] and
    the convergence test. *)
Definition factorizeNMDKL_body (d : Deconvolver) : Deconvolver :=
  let vOverApprox := elementWiseDivision (_v d) (_approx d) in
  let d :=
    if negb (_wConstant d) then
      fst (for_ (_t d) (fun p '(d, hShifted) =>
        let wpH := Matrix_new (rows (_v d)) (cols (_v d)) in
        let '(d, wpH) :=
          if 1 <? _t d then
            let wpH := computeWpH d p wpH in
            (set_approx d (Matrix_sub (_approx d) wpH), wpH)
          else (d, wpH) in
        let wUpdateNum := multWithTransposedMatrix vOverApprox hShifted in
        let d :=
          set_w d (list_set (_w d) p
            (for_ (cols (W d p)) (fun j wp =>
               if negb (wColConstant d j) then
                 let hRowSum := rowSum hShifted j in
                 for_ (rows (W d p)) (fun i wp =>
                   mset wp i j (at_ wp i j * (at_ wUpdateNum i j / hRowSum))%sc) wp
               else wp) (W d p))) in
        if 1 <? _t d then
          let wpH := computeWpH d p wpH in
          let d := set_approx d (Matrix_add (_approx d) wpH) in
          let d := set_approx d (ensureNonnegativity (_approx d) default_epsilon) in
          (d, shiftColumnsRight hShifted)
        else (d, hShifted)) (d, _h d))
    else d in
  let d := if _t d =? 1 then computeApprox d else d in
  let vOverApprox := elementWiseDivision (_v d) (_approx d) in
  let hUpdate := Matrix_zero (Matrix_new (rows (_h d)) (cols (_h d))) in
  let '(hUpdate, _) :=
    for_ (_t d) (fun p '(hUpdate, hUpdateMatrixNum) =>
      let wpColSums := fun i =>
        let s := colSum (W d p) i in
        if f_eq s f_zero then DIVISOR_FLOOR else s in
      let hUpdateMatrixNum :=
        multWithMatrix_block (W d p) vOverApprox hUpdateMatrixNum true false
          (cols (W d p)) (rows (W d p)) (cols (_v d) - p)
          0 0 0 p 0 0 in
      let hUpdate :=
        for_ (cols (_h d) - p) (fun j hUpdate =>
          for_ (rows (_h d)) (fun i hUpdate =>
            mset hUpdate i j
              (at_ hUpdate i j + at_ hUpdateMatrixNum i j / wpColSums i)%sc)
            hUpdate) hUpdate in
      (hUpdate, hUpdateMatrixNum))
      (hUpdate, Matrix_new (rows (_h d)) (cols (_h d))) in
  set_h d
    (for_ (cols (_h d)) (fun j h =>
       for_ (rows (_h d)) (fun i h =>
         mset h i j (at_ h i j * (at_ hUpdate i j / f_of_uint (_t d)))%sc) h)
       (_h d)).

(** The body of the loop of [factorizeNMFEDSparse]. *)
Definition factorizeNMFEDSparse_body (d : Deconvolver) : Deconvolver :=
  let sqrtT := f_sqrt (f_of_uint (cols (_h d))) in
  let d := set_w d (list_set (_w d) 0 (factorizeNMFEDWUpdate d (W d 0))) in
  let '(hUpdateMatrixNum, hUpdateMatrixDenom) :=
    calculateNMFEDHUpdate d
      (Matrix_new (rows (_h d)) (cols (_h d)))
      (Matrix_new (rows (_h d)) (cols (_h d))) in
  let hRowSumSq := fun i => dotRowRow (_h d) i (_h d) i in
  let hRowLength := fun i => f_sqrt (hRowSumSq i) in
  let csplus := fun i => (sqrtT / hRowLength i)%sc in
  let csminus := fun i =>
    (sqrtT * rowSum (_h d) i / (hRowSumSq i * hRowLength i))%sc in
  set_h d
    (for_ (cols (_h d)) (fun j h =>
       for_ (rows (_h d)) (fun i h =>
         let denom :=
           floor_divisor (at_ hUpdateMatrixDenom i j + at_ (_s d) i j * csplus i)%sc in
         mset h i j
           (at_ h i j *
            ((at_ hUpdateMatrixNum i j + at_ (_s d) i j * at_ h i j * csminus i)
             / denom))%sc) h) (_h d)).

(** The body of the loop of [factorizeNMFKLSparse], after
    [computeApprox()] and the convergence test. *)
Definition factorizeNMFKLSparse_body (d : Deconvolver) : Deconvolver :=
  let sqrtT := f_sqrt (f_of_uint (cols (_h d))) in
  let vOverApprox := elementWiseDivision (_v d) (_approx d) in
  let wUpdateNum := multWithTransposedMatrix vOverApprox (_h d) in
  let hRowSums := fun i => rowSum (_h d) i in
  let '(d, vOverApprox) :=
    if negb (_wConstant d) then
      let d :=
        set_w d (list_set (_w d) 0
          (for_ (cols (W d 0)) (fun j w =>
             if negb (wColConstant d j) then
               for_ (rows (W d 0)) (fun i w =>
                 mset w i j (at_ w i j * (at_ wUpdateNum i j / hRowSums j))%sc) w
             else w) (W d 0))) in
      let d := computeApprox d in
      (d, elementWiseDivision (_v d) (_approx d))
    else (d, vOverApprox) in
  let hRowSumSq := fun i => dotRowRow (_h d) i (_h d) i in
  let hRowLength := fun i => f_sqrt (hRowSumSq i) in
  let csplus := fun i => (sqrtT / hRowLength i)%sc in
  let csminus := fun i =>
    (sqrtT * hRowSums i / (hRowSumSq i * hRowLength i))%sc in
  let wColSums := fun i => colSum (W d 0) i in
  let hUpdateMatrixNum :=
    multWithMatrix_block (W d 0) vOverApprox
      (Matrix_new (rows (_h d)) (cols (_h d))) true false
      (rows (_h d)) (rows (_v d)) (cols (_h d)) 0 0 0 0 0 0 in
  set_h d
    (for_ (cols (_h d)) (fun j h =>
       for_ (rows (_h d)) (fun i h =>
         let denom :=
           floor_divisor (wColSums i + at_ (_s d) i j * csplus i)%sc in
         mset h i j
           (at_ h i j *
            ((at_ hUpdateMatrixNum i j + at_ (_s d) i j * at_ h i j * csminus i)
             / denom))%sc) h) (_h d)).

(** The body of the loop of [factorizeNMFKLTempCont], after
    [computeApprox()] and the convergence test. *)
Definition factorizeNMFKLTempCont_body (d : Deconvolver) : Deconvolver :=
  let oldH := _h d in
  let vOverApprox := elementWiseDivision (_v d) (_approx d) in
  let wUpdateNum := multWithTransposedMatrix vOverApprox (_h d) in
  let hRowSums := fun i => rowSum (_h d) i in
  let '(d, vOverApprox) :=
    if negb (_wConstant d) then
      let d :=
        set_w d (list_set (_w d) 0
          (for_ (cols (W d 0)) (fun j w =>
             if negb (wColConstant d j) then
               for_ (rows (W d 0)) (fun i w =>
                 mset w i j (at_ w i j * (at_ wUpdateNum i j / hRowSums j))%sc) w
             else w) (W d 0))) in
      let d := computeApprox d in
      (d, elementWiseDivision (_v d) (_approx d))
    else (d, vOverApprox) in
  let hRowSumSq := fun i => dotRowRow (_h d) i (_h d) i in
  let wColSums := fun i => colSum (W d 0) i in
  let hDeltaSumSq := fun i =>
    for_range 1 (cols (_h d)) (fun j acc =>
      let hDelta := (at_ (_h d) i j - at_ (_h d) i (j - 1))%sc in
      (acc + hDelta * hDelta)%sc) f_zero in
  let ctplus := fun i =>
    (f_of_uint 4 * f_of_uint (cols (_h d)) / hRowSumSq i)%sc in
  let ctminus1 := fun i =>
    (f_of_uint 2 * f_of_uint (cols (_h d)) / hRowSumSq i)%sc in
  let ctminus2 := fun i =>
    (f_of_uint 2 * f_of_uint (cols (_h d)) * hDeltaSumSq i
     / (hRowSumSq i * hRowSumSq i))%sc in
  let hUpdateMatrixNum :=
    multWithMatrix_block (W d 0) vOverApprox
      (Matrix_new (rows (_h d)) (cols (_h d))) true false
      (rows (_h d)) (rows (_v d)) (cols (_h d)) 0 0 0 0 0 0 in
  set_h d
    (for_ (cols (_h d)) (fun j h =>
       for_ (rows (_h d)) (fun i h =>
         let denom :=
           floor_divisor (wColSums i + at_ (_c d) i j * at_ h i j * ctplus i)%sc in
         let l := if j =? 0 then f_zero else at_ oldH i (j - 1) in
         let r := if j =? cols (_h d) - 1 then f_zero else at_ h i (j + 1) in
         mset h i j
           (at_ h i j *
            ((at_ hUpdateMatrixNum i j
              + at_ (_c d) i j * ((l + r) * ctminus1 i + at_ h i j * ctminus2 i))
             / denom))%sc) h) (_h d)).

(** The body of the loop of [factorizeNMFEDSparseNorm]. *)
Definition factorizeNMFEDSparseNorm_body (d : Deconvolver) : Deconvolver :=
  let d :=
    set_w d (list_set (_w d) 0
      (for_ (cols (W d 0)) (fun j w =>
         let norm := f_sqrt (dotColCol w j w j) in
         for_ (rows (W d 0)) (fun i w =>
           mset w i j (at_ w i j / norm)%sc) w) (W d 0))) in
  let hUpdateMatrixNum :=
    multWithMatrix_block (W d 0) (_v d)
      (Matrix_new (rows (_h d)) (cols (_h d))) true false
      (rows (_h d)) (rows (_v d)) (cols (_h d)) 0 0 0 0 0 0 in
  let wTw :=
    multWithMatrix_block (W d 0) (W d 0)
      (Matrix_new (rows (_h d)) (rows (_h d))) true false
      (rows (_h d)) (rows (W d 0)) (rows (_h d)) 0 0 0 0 0 0 in
  let hUpdateMatrixDenom := multWithMatrix wTw (_h d) in
  let d :=
    set_h d
      (for_ (cols (_h d)) (fun j h =>
         for_ (rows (_h d)) (fun i h =>
           let denom :=
             floor_divisor (at_ hUpdateMatrixDenom i j + at_ (_s d) i j)%sc in
           mset h i j (at_ h i j * (at_ hUpdateMatrixNum i j / denom))%sc) h)
         (_h d)) in
  let wUpdateMatrixNum1 := multWithTransposedMatrix (_v d) (_h d) in
  let hhT := multWithTransposedMatrix (_h d) (_h d) in
  let wUpdateMatrixDenom1 := multWithMatrix (W d 0) hhT in
  let wUpdateMatrixNum2 := multWithMatrix hhT wTw in
  let hvT := multWithTransposedMatrix (_h d) (_v d) in
  let wUpdateMatrixDenom2 := multWithMatrix hvT (W d 0) in
  set_w d (list_set (_w d) 0
    (for_ (cols (W d 0)) (fun j w =>
       if negb (wColConstant d j) then
         for_ (rows (W d 0)) (fun i w =>
           let num :=
             (at_ wUpdateMatrixNum1 i j + at_ wUpdateMatrixNum2 j j * at_ w i j)%sc in
           let denom :=
             floor_divisor
               (at_ wUpdateMatrixDenom1 i j + at_ wUpdateMatrixDenom2 j j * at_ w i j)%sc in
           mset w i j (at_ w i j * (num / denom))%sc) w
       else w) (W d 0))).

(** ** The drivers and the facade *)

(** [_numSteps = 0; while (...) { ... }] *)
Definition run_loop (fuel maxSteps : nat)
    (converged : Deconvolver -> bool * Deconvolver)
    (body : Deconvolver -> Deconvolver)
    (observer : bool) (d : Deconvolver) : Outcome :=
  while_loop fuel maxSteps converged body observer (set_numSteps d 0) [].

Definition factorizeNMFED (fuel : nat) (d : Deconvolver)
    (maxSteps : nat) (eps : F) (observer : bool) : Outcome :=
  if _t d =? 1 then
    run_loop fuel maxSteps (converged_computing eps) factorizeNMFED_body observer d
  else AssertionFailed.

Definition factorizeNMDED (fuel : nat) (d : Deconvolver)
    (maxSteps : nat) (eps : F) (observer : bool) : Outcome :=
  run_loop fuel maxSteps (converged_after_approx eps) factorizeNMDED_body observer d.

Definition factorizeNMDKL (fuel : nat) (d : Deconvolver)
    (maxSteps : nat) (eps : F) (observer : bool) : Outcome :=
  run_loop fuel maxSteps (converged_after_approx eps) factorizeNMDKL_body observer d.

Definition factorizeNMFEDSparse (fuel : nat) (d : Deconvolver)
    (maxSteps : nat) (eps : F) (observer : bool) : Outcome :=
  if _t d =? 1 then
    run_loop fuel maxSteps (converged_computing eps) factorizeNMFEDSparse_body observer d
  else AssertionFailed.

Definition factorizeNMFKLSparse (fuel : nat) (d : Deconvolver)
    (maxSteps : nat) (eps : F) (observer : bool) : Outcome :=
  if _t d =? 1 then
    run_loop fuel maxSteps (converged_after_approx eps) factorizeNMFKLSparse_body observer d
  else AssertionFailed.

Definition factorizeNMFKLTempCont (fuel : nat) (d : Deconvolver)
    (maxSteps : nat) (eps : F) (observer : bool) : Outcome :=
  if _t d =? 1 then
    run_loop fuel maxSteps (converged_after_approx eps) factorizeNMFKLTempCont_body observer d
  else AssertionFailed.

Definition factorizeNMFEDSparseNorm (fuel : nat) (d : Deconvolver)
    (maxSteps : nat) (eps : F) (observer : bool) : Outcome :=
  if _t d =? 1 then
    run_loop fuel maxSteps (converged_computing eps) factorizeNMFEDSparseNorm_body observer d
  else AssertionFailed.

(** The selection of the algorithm in [Deconvolver::decompose]. *)
Definition select_driver (fuel : nat) (d : Deconvolver) (cf : NMFCostFunction)
    (maxSteps : nat) (eps : F) (observer : bool) : Outcome :=
  match cf with
  | EuclideanDistance =>
      if _t d =? 1 then factorizeNMFED fuel d maxSteps eps observer
      else factorizeNMDED fuel d maxSteps eps observer
  | KLDivergence => factorizeNMDKL fuel d maxSteps eps observer
  | EuclideanDistanceSparse =>
      if 1 <? _t d then Thrown (runtime_error "Sparse NMD not implemented") d []
      else factorizeNMFEDSparse fuel d maxSteps eps observer
  | KLDivergenceSparse =>
      if 1 <? _t d then Thrown (runtime_error "Sparse NMD not implemented") d []
      else factorizeNMFKLSparse fuel d maxSteps eps observer
  | KLDivergenceContinuous =>
      if 1 <? _t d then Thrown (runtime_error "Continuous NMD not implemented") d []
      else factorizeNMFKLTempCont fuel d maxSteps eps observer
  | EuclideanDistanceSparseNormalized =>
      if 1 <? _t d then Thrown (runtime_error "Sparse NMD not implemented") d []
      else factorizeNMFEDSparseNorm fuel d maxSteps eps observer
  | OtherCostFunction _ => Thrown (runtime_error "Invalid cost function") d []
  end.

(** What [decompose] does after the driver has returned. *)
Definition finish (observer : bool) (d : Deconvolver) (calls : Trace) : Outcome :=
  let d := if _normalizeMatrices d then normalizeMatrices d else d in
  let calls := if observer then calls ++ [1%Q] else calls in
  Returned (set_oldApprox d None) calls.

Definition decompose_fuel (fuel : nat) (d : Deconvolver) (cf : NMFCostFunction)
    (maxSteps : nat) (eps : F) (observer : bool) : Outcome :=
  match select_driver fuel d cf maxSteps eps observer with
  | Returned d calls => finish observer d calls
  | other => other
  end.

(** [Deconvolver::decompose(cf, maxSteps, eps, observer)].  A driver loop
    tests its condition at most [maxSteps + 1] times. *)
Definition decompose (d : Deconvolver) (cf : NMFCostFunction)
    (maxSteps : nat) (eps : F) (observer : bool) : Outcome :=
  decompose_fuel (S maxSteps) d cf maxSteps eps observer.

(** ** Settings

    The setters of the flags are declared in Deconvolver.h, which is not
    under src/; the spec (6) lists them. *)

(** Modelled from the spec: set_w_constant(bool). *)
Definition setWConstant (d : Deconvolver) (flag : bool) : Deconvolver :=
  mkDeconvolver (_v d) (_approx d) (_oldApprox d) (_w d) flag (_wColConstant d)
    (_normalizeMatrices d) (_t d) (_h d) (_s d) (_c d) (_numSteps d)
    (_absoluteError d) (_relativeError d) (_vFrob d) (_notificationDelay d).

(** Modelled from the spec: set_w_col_constant(j, bool). *)
Definition setWColConstant (d : Deconvolver) (col : nat) (flag : bool) : Deconvolver :=
  mkDeconvolver (_v d) (_approx d) (_oldApprox d) (_w d) (_wConstant d)
    (list_set (_wColConstant d) col flag)
    (_normalizeMatrices d) (_t d) (_h d) (_s d) (_c d) (_numSteps d)
    (_absoluteError d) (_relativeError d) (_vFrob d) (_notificationDelay d).

(** Modelled from the spec: set_normalize_matrices(bool). *)
Definition setNormalizeMatrices (d : Deconvolver) (flag : bool) : Deconvolver :=
  mkDeconvolver (_v d) (_approx d) (_oldApprox d) (_w d) (_wConstant d)
    (_wColConstant d) flag (_t d) (_h d) (_s d) (_c d) (_numSteps d)
    (_absoluteError d) (_relativeError d) (_vFrob d) (_notificationDelay d).

(** Modelled from the spec: set_notification_delay(n). *)
Definition setNotificationDelay (d : Deconvolver) (delay : nat) : Deconvolver :=
  mkDeconvolver (_v d) (_approx d) (_oldApprox d) (_w d) (_wConstant d)
    (_wColConstant d) (_normalizeMatrices d) (_t d) (_h d) (_s d) (_c d)
    (_numSteps d) (_absoluteError d) (_relativeError d) (_vFrob d) delay.

(** ** Construction *)

(** [Deconvolver::generateW(generator)] and [generateH(generator)]. *)
Definition generateW (d : Deconvolver) (generator : nat -> nat -> F) : Deconvolver :=
  for_ (_t d) (fun l d =>
    set_w d (list_set (_w d) l
      (for_ (rows (W d l)) (fun i wl =>
         for_ (cols (W d l)) (fun j wl => mset wl i j (generator i j)) wl)
         (W d l)))) d.

Definition generateH (d : Deconvolver) (generator : nat -> nat -> F) : Deconvolver :=
  set_h d
    (for_ (rows (_h d)) (fun i h =>
       for_ (cols (_h d)) (fun j h => mset h i j (generator i j)) h) (_h d)).

(** [Deconvolver::Deconvolver(v, r, t, wGenerator, hGenerator)]: the
    exception thrown, or the object built. *)
Definition construct (v : Matrix) (r t : nat)
    (wGenerator hGenerator : nat -> nat -> F) : exn + Deconvolver :=
  if cols v <? t then
    inl (runtime_error
           ("Invalid number of spectra: " ++ show_uint t
            ++ ": Matrix has only " ++ show_uint (cols v) ++ " columns!")%string)
  else
    inr (generateW
           (mkDeconvolver
              v
              (Matrix_gen (rows v) (cols v) generators_zero)
              None
              (repeat (Matrix_new (rows v) r) t)
              false
              (repeat false r)
              false
              t
              (Matrix_gen r (cols v) hGenerator)
              (Matrix_gen r (cols v) generators_zero)
              (Matrix_gen r (cols v) generators_zero)
              0
              f_minus_one
              f_minus_one
              (frobeniusNorm v)
              25)
           wGenerator).

End Engine.

(** ** Names and replacing the factors *)

(** [Deconvolver::costFunctionName(cf)]. *)
Definition costFunctionName (cf : NMFCostFunction) : string :=
  match cf with
  | EuclideanDistance => "Squared Euclidean distance"
  | KLDivergence => "Extended KL divergence"
  | EuclideanDistanceSparse => "Squared Euclidean distance + sparseness constraint"
  | KLDivergenceSparse => "Extended KL divergence + sparseness constraint"
  | EuclideanDistanceSparseNormalized => "Squared ED (normalized basis) + sparseness"
  | KLDivergenceContinuous => "Extended KL divergence + continuity constraint"
  | OtherCostFunction _ => "Unknown"
  end.

Section Replacing.

Context {F : Type} {SF : Scalar F}.

(** [Deconvolver::setW(i, w)]: the engine afterwards, or [None] when the
    [assert] on the shape of [w] fails.  For [i] outside the array [_w]
    the source reads [_w[i]] out of bounds, which is undefined; the model
    gives [None] there too. *)
Definition setW (d : @Deconvolver F) (i : nat) (w : @Matrix F)
  : option (@Deconvolver F) :=
  if i <? List.length (_w d) then
    if (cols w =? cols (W d i)) && (rows w =? rows (W d i))
    then Some (set_w d (list_set (_w d) i w))
    else None
  else None.

(** [Deconvolver::setH(h)]: the engine afterwards, or [None] when the
    [assert] on the shape of [h] fails. *)
Definition setH (d : @Deconvolver F) (h : @Matrix F) : option (@Deconvolver F) :=
  if (cols h =? cols (_h d)) && (rows h =? rows (_h d))
  then Some (set_h d h)
  else None.

End Replacing.

(** ** The two scalar instances *)

(** Binary64 floating point: the [double] of the compiled code.  The
    literal [1e-9] denotes the nearest binary64 number, written here in
    hexadecimal. *)
#[export] Instance float_Scalar : Scalar float := {
  f_zero := 0%float;
  f_one := 1%float;
  f_minus_one := (-1)%float;
  f_add := PrimFloat.add;
  f_sub := PrimFloat.sub;
  f_mul := PrimFloat.mul;
  f_div := PrimFloat.div;
  f_sqrt := PrimFloat.sqrt;
  f_le := PrimFloat.leb;
  f_lt := PrimFloat.ltb;
  f_eq := PrimFloat.eqb;
  f_of_uint := fun n => PrimFloat.of_uint63 (Uint63.of_Z (Z.of_nat n));
  DIVISOR_FLOOR := 0x1.12e0be826d695p-30%float
}.

(** The real numbers: exact arithmetic. *)
#[export] Instance R_Scalar : Scalar R := {
  f_zero := 0%R;
  f_one := 1%R;
  f_minus_one := (-1)%R;
  f_add := Rplus;
  f_sub := Rminus;
  f_mul := Rmult;
  f_div := Rdiv;
  f_sqrt := R_sqrt.sqrt;
  f_le := fun x y => if Rle_dec x y then true else false;
  f_lt := fun x y => if Rlt_dec x y then true else false;
  f_eq := fun x y => if Req_dec_T x y then true else false;
  f_of_uint := INR;
  DIVISOR_FLOOR := (1 / 1000000000)%R
}.

(** ** The error kinds of the specification

    The spec (7) sorts the failures into kinds: InvalidArgument (more
    spectra than columns at construction, an unknown cost function in
    [decompose]) and Unsupported (a sparse, continuous or normalized
    variant with more than one spectrum).  The source throws
    [std::runtime_error] each time; the kind is read off the message. *)
Inductive ErrorKind : Type :=
| InvalidArgument
| Unsupported.

Definition error_kind (e : exn) : option ErrorKind :=
  match e with
  | runtime_error what =>
      if String.prefix "Invalid" what then Some InvalidArgument
      else if String.eqb what "Sparse NMD not implemented"
              || String.eqb what "Continuous NMD not implemented"
           then Some Unsupported
           else None
  end.

(** The cost functions that [decompose] only runs for one spectrum. *)
Definition single_spectrum_only (cf : NMFCostFunction) : bool :=
  match cf with
  | EuclideanDistanceSparse | KLDivergenceSparse
  | KLDivergenceContinuous | EuclideanDistanceSparseNormalized => true
  | _ => false
  end.

(** How many of the fractions passed to the observer are [1.0]. *)
Definition count_ones (calls : list Q) : nat :=
  List.length (filter (fun q => Qeq_bool q 1) calls).

(** The engine and the observer's log of a call that returned. *)
Definition returned_steps {F : Type} {SF : Scalar F} (o : @Outcome F) : option nat :=
  match o with
  | Returned d _ => Some (_numSteps d)
  | _ => None
  end.

Definition returned_calls {F : Type} {SF : Scalar F} (o : @Outcome F) : option (list Q) :=
  match o with
  | Returned _ calls => Some calls
  | _ => None
  end.

(** [built c P]: the construction [c] succeeded and its engine satisfies
    [P]; [returns o P]: the call [o] returned and its engine and log
    satisfy [P]. *)
Definition built {F : Type} {SF : Scalar F} (c : exn + @Deconvolver F)
    (P : @Deconvolver F -> Prop) : Prop :=
  match c with
  | inr d => P d
  | inl _ => False
  end.

(** The engine of a construction that succeeded (and an engine without
    cells for one that threw). *)
Definition the_engine {F : Type} {SF : Scalar F} (c : exn + @Deconvolver F)
  : @Deconvolver F :=
  match c with
  | inr d => d
  | inl _ =>
      mkDeconvolver (Matrix_new 0 0) (Matrix_new 0 0) None [] false [] false 0
        (Matrix_new 0 0) (Matrix_new 0 0) (Matrix_new 0 0) 0
        f_zero f_zero f_zero 0
  end.

Definition returns {F : Type} {SF : Scalar F} (o : @Outcome F)
    (P : @Deconvolver F -> list Q -> Prop) : Prop :=
  match o with
  | Returned d calls => P d calls
  | _ => False
  end.

(** * Properties *)

(** ** Binary32 rounding *)

Section Binary32.

Local Open Scope Q_scope.

Lemma round_half_even_bounds (s : Q) :
  (Qfloor s <= round_half_even s <= Qfloor s + 1)%Z.
Proof.
  unfold round_half_even.
  destruct (Qcompare _ _); [destruct (Z.even _)| |]; lia.
Qed.

Lemma round_half_even_le (s t : Q) :
  s <= t -> (round_half_even s <= round_half_even t)%Z.
Proof.
  intros Hst. pose proof (Qfloor_resp_le _ _ Hst) as Hf.
  destruct (Z.eq_dec (Qfloor s) (Qfloor t)) as [Heq|Hne].
  - unfold round_half_even. rewrite <- Heq.
    destruct (Qcompare_spec (s - inject_Z (Qfloor s)) (1 # 2)) as [Hs|Hs|Hs];
    destruct (Qcompare_spec (t - inject_Z (Qfloor s)) (1 # 2)) as [Ht|Ht|Ht];
      try (destruct (Z.even (Qfloor s))); try lia; exfalso; Lqa.lra.
  - pose proof (round_half_even_bounds s). pose proof (round_half_even_bounds t).
    lia.
Qed.

Lemma round_half_even_Z (z : Z) : round_half_even (inject_Z z) = z.
Proof.
  unfold round_half_even. rewrite Qfloor_Z.
  destruct (Qcompare_spec (inject_Z z - inject_Z z) (1 # 2)) as [H|H|H];
    [exfalso; Lqa.lra|reflexivity|exfalso; Lqa.lra].
Qed.

Lemma round_half_even_comp (s t : Q) : s == t -> round_half_even s = round_half_even t.
Proof.
  intros H. apply Z.le_antisymm; apply round_half_even_le; rewrite H; apply Qle_refl.
Qed.

(** Powers of two *)
Lemma pow2_pos (k : Z) : 0 < 2 ^ k.
Proof. apply Qpower_0_lt. reflexivity. Qed.

Lemma pow2_plus (a b : Z) : 2 ^ (a + b) == 2 ^ a * 2 ^ b.
Proof. apply Qpower_plus. discriminate. Qed.

Lemma pow2_Z (n : Z) : (0 <= n)%Z -> 2 ^ n == inject_Z (2 ^ n).
Proof. intros H. rewrite Zpower_Qpower by exact H. reflexivity. Qed.

Lemma pow2_le (a b : Z) : (a <= b)%Z -> 2 ^ a <= 2 ^ b.
Proof. intros H. apply Qpower_le_compat_l; [exact H|discriminate]. Qed.

Lemma pow2_lt_inv (a b : Z) : 2 ^ a < 2 ^ b -> (a < b)%Z.
Proof.
  intros H. destruct (Z_lt_le_dec a b) as [Hlt|Hge]; [exact Hlt|].
  exfalso. pose proof (pow2_le b a Hge). Lqa.lra.
Qed.

Lemma binade_spec (x : Q) :
  0 < x -> 2 ^ binade x <= x /\ x < 2 ^ (binade x + 1).
Proof.
  intros Hx. destruct x as [a b].
  assert (Ha : (0 < a)%Z) by (unfold Qlt in Hx; cbn in Hx; lia).
  unfold binade. cbn [Qnum Qden].
  set (la := Z.log2 a). set (lb := Z.log2 (Z.pos b)).
  destruct (Z.log2_spec a Ha) as [Ha1 Ha2]. fold la in Ha1, Ha2.
  destruct (Z.log2_spec (Z.pos b) ltac:(lia)) as [Hb1 Hb2]. fold lb in Hb1, Hb2.
  assert (Hla : (0 <= la)%Z) by apply Z.log2_nonneg.
  assert (Hlb : (0 <= lb)%Z) by apply Z.log2_nonneg.
  assert (Hup : (a # b) * 2 ^ lb < 2 ^ (la + 1)).
  { rewrite (pow2_Z lb Hlb), (pow2_Z (la + 1)) by lia.
    replace (la + 1)%Z with (Z.succ la) by lia.
    set (A := (2 ^ Z.succ la)%Z) in *. set (B := (2 ^ lb)%Z) in *.
    unfold Qlt, Qmult, inject_Z. cbn [Qnum Qden].
    rewrite Pos.mul_1_r. nia. }
  assert (Hlow : 2 ^ la < (a # b) * 2 ^ (lb + 1)).
  { rewrite (pow2_Z la Hla), (pow2_Z (lb + 1)) by lia.
    replace (lb + 1)%Z with (Z.succ lb) by lia.
    set (A := (2 ^ la)%Z) in *. set (B := (2 ^ Z.succ lb)%Z) in *.
    unfold Qlt, Qmult, inject_Z. cbn [Qnum Qden].
    rewrite Pos.mul_1_r. nia. }
  assert (Hk1 : a # b < 2 ^ (la - lb + 1)).
  { replace (la - lb + 1)%Z with ((la + 1) + - lb)%Z by lia.
    rewrite pow2_plus, Qpower_opp.
    apply Qlt_shift_div_l; [apply pow2_pos|exact Hup]. }
  assert (Hk2 : 2 ^ (la - lb - 1) < a # b).
  { replace (la - lb - 1)%Z with (la + - (lb + 1))%Z by lia.
    rewrite pow2_plus, Qpower_opp.
    apply Qlt_shift_div_r; [apply pow2_pos|exact Hlow]. }
  destruct (Qle_bool (2 ^ (la - lb)) (a # b)) eqn:Hle.
  - apply Qle_bool_iff in Hle. split; assumption.
  - assert (Hlt : a # b < 2 ^ (la - lb)).
    { apply Qnot_le_lt. intros H. apply Qle_bool_iff in H. congruence. }
    replace (la - lb - 1 + 1)%Z with (la - lb)%Z by lia.
    split; [apply Qlt_le_weak; exact Hk2|exact Hlt].
Qed.

Lemma binade_le (x y : Q) : 0 < x -> x <= y -> (binade x <= binade y)%Z.
Proof.
  intros Hx Hxy.
  destruct (binade_spec x Hx) as [Hx1 _].
  destruct (binade_spec y ltac:(Lqa.lra)) as [_ Hy2].
  assert (H : 2 ^ binade x < 2 ^ (binade y + 1)) by Lqa.lra.
  apply pow2_lt_inv in H. lia.
Qed.

(** The significand of [x > 0]: between [2^23] and [2^24]. *)
Lemma significand_bounds (x : Q) :
  0 < x ->
  let s := x / 2 ^ (binade x - 23) in
  inject_Z (2 ^ 23) <= s /\ s < inject_Z (2 ^ 24).
Proof.
  intros Hx. cbv zeta. destruct (binade_spec x Hx) as [H1 H2].
  set (k := binade x) in *.
  pose proof (pow2_pos (k - 23)) as Hpos.
  rewrite <- !pow2_Z by lia. split.
  - apply Qle_shift_div_l; [exact Hpos|].
    rewrite <- pow2_plus. replace (23 + (k - 23))%Z with k by lia. exact H1.
  - apply Qlt_shift_div_r; [exact Hpos|].
    rewrite <- pow2_plus. replace (24 + (k - 23))%Z with (k + 1)%Z by lia. exact H2.
Qed.

Lemma round_significand_bounds (x : Q) :
  0 < x ->
  (2 ^ 23 <= round_half_even (x / 2 ^ (binade x - 23)) <= 2 ^ 24)%Z.
Proof.
  intros Hx. destruct (significand_bounds x Hx) as [H1 H2]. cbv zeta in H1, H2.
  split.
  - rewrite <- (round_half_even_Z (2 ^ 23)). apply round_half_even_le. exact H1.
  - rewrite <- (round_half_even_Z (2 ^ 24)). apply round_half_even_le.
    apply Qlt_le_weak. exact H2.
Qed.

Lemma round_binary32_pos_eq (x : Q) :
  0 < x ->
  round_binary32 x
  = inject_Z (round_half_even (x / 2 ^ (binade x - 23))) * 2 ^ (binade x - 23).
Proof.
  intros Hx. unfold round_binary32.
  destruct (Qle_bool x 0) eqn:H; [|reflexivity].
  apply Qle_bool_iff in H. exfalso. Lqa.lra.
Qed.

Lemma round_binary32_nonpos (x : Q) : x <= 0 -> round_binary32 x = 0.
Proof.
  intros Hx. unfold round_binary32.
  destruct (Qle_bool x 0) eqn:H; [reflexivity|].
  exfalso. apply Qle_bool_iff in Hx. congruence.
Qed.

(** A positive number and its rounding lie in the same closed binade. *)
Lemma round_binary32_binade (x : Q) :
  0 < x ->
  2 ^ binade x <= round_binary32 x /\ round_binary32 x <= 2 ^ (binade x + 1).
Proof.
  intros Hx. rewrite round_binary32_pos_eq by exact Hx.
  destruct (round_significand_bounds x Hx) as [H1 H2].
  set (m := round_half_even _) in *. set (k := binade x).
  pose proof (pow2_pos (k - 23)) as Hpos.
  split.
  - replace k with (23 + (k - 23))%Z at 1 by lia.
    rewrite pow2_plus, (pow2_Z 23) by lia.
    apply Qmult_le_compat_r; [|Lqa.lra]. rewrite <- Zle_Qle. exact H1.
  - replace (k + 1)%Z with (24 + (k - 23))%Z by lia.
    rewrite pow2_plus, (pow2_Z 24) by lia.
    apply Qmult_le_compat_r; [|Lqa.lra]. rewrite <- Zle_Qle. exact H2.
Qed.

Lemma round_binary32_le (x y : Q) : x <= y -> round_binary32 x <= round_binary32 y.
Proof.
  intros Hxy.
  destruct (Qlt_le_dec 0 x) as [Hx|Hx].
  - assert (Hy : 0 < y) by Lqa.lra.
    pose proof (binade_le x y Hx Hxy) as Hk.
    destruct (Z.eq_dec (binade x) (binade y)) as [Heq|Hne].
    + rewrite !round_binary32_pos_eq by assumption. rewrite Heq.
      pose proof (pow2_pos (binade y - 23)) as Hpos.
      apply Qmult_le_compat_r; [|Lqa.lra].
      rewrite <- Zle_Qle. apply round_half_even_le.
      apply Qmult_le_compat_r; [exact Hxy|].
      apply Qlt_le_weak, Qinv_lt_0_compat. exact Hpos.
    + destruct (round_binary32_binade x Hx) as [_ Hx2].
      destruct (round_binary32_binade y Hy) as [Hy1 _].
      pose proof (pow2_le (binade x + 1) (binade y) ltac:(lia)). Lqa.lra.
  - rewrite (round_binary32_nonpos x Hx).
    destruct (Qlt_le_dec 0 y) as [Hy|Hy].
    + destruct (round_binary32_binade y Hy) as [Hy1 _].
      pose proof (pow2_pos (binade y)). Lqa.lra.
    + rewrite (round_binary32_nonpos y Hy). Lqa.lra.
Qed.

Lemma round_binary32_comp (x y : Q) : x == y -> round_binary32 x == round_binary32 y.
Proof.
  intros H. apply Qle_antisym; apply round_binary32_le; Lqa.lra.
Qed.

Lemma round_binary32_pos (x : Q) : 0 < x -> 0 < round_binary32 x.
Proof.
  intros Hx. destruct (round_binary32_binade x Hx) as [H _].
  pose proof (pow2_pos (binade x)). Lqa.lra.
Qed.

(** A number whose significand is an integer is kept. *)
Lemma round_binary32_exact (x : Q) (m : Z) :
  0 < x -> x / 2 ^ (binade x - 23) == inject_Z m -> round_binary32 x == x.
Proof.
  intros Hx Hm. rewrite round_binary32_pos_eq by exact Hx.
  rewrite (round_half_even_comp _ _ Hm), round_half_even_Z, <- Hm.
  field. pose proof (pow2_pos (binade x - 23)). Lqa.lra.
Qed.

(** The integers up to [2^24] are binary32 numbers. *)
Lemma round_binary32_Z (z : Z) :
  (0 <= z <= 2 ^ 24)%Z -> round_binary32 (inject_Z z) == inject_Z z.
Proof.
  intros Hz. destruct (Z.eq_dec z 0) as [->|Hne]; [reflexivity|].
  assert (Hpos : 0 < inject_Z z) by (unfold Qlt; cbn; lia).
  destruct (binade_spec _ Hpos) as [H1 H2].
  set (k := binade (inject_Z z)) in *.
  assert (Hk : (k <= 24)%Z).
  { assert (H : 2 ^ k < 2 ^ 25).
    { apply Qle_lt_trans with (inject_Z z); [exact H1|].
      rewrite (pow2_Z 25) by lia. rewrite <- Zlt_Qlt. lia. }
    apply pow2_lt_inv in H. lia. }
  destruct (Z.eq_dec k 24) as [Hk24|Hk24].
  - assert (z = 2 ^ 24)%Z.
    { rewrite Hk24, (pow2_Z 24) in H1 by lia. rewrite <- Zle_Qle in H1. lia. }
    subst z. reflexivity.
  - apply (round_binary32_exact _ (z * 2 ^ (23 - k))); [exact Hpos|].
    fold k. rewrite inject_Z_mult, <- (pow2_Z (23 - k)) by lia.
    replace (23 - k)%Z with (- (k - 23))%Z by lia. rewrite Qpower_opp.
    reflexivity.
Qed.

End Binary32.

(** ** Fractions *)

Lemma float_of_uint_pos (n : nat) : 0 < n -> (0 < float_of_uint (Z.of_nat n))%Q.
Proof.
  intros H. apply round_binary32_pos. unfold Qlt. cbn. lia.
Qed.

Lemma float_of_uint_le (n n' : nat) :
  n <= n' -> (float_of_uint (Z.of_nat n) <= float_of_uint (Z.of_nat n'))%Q.
Proof.
  intros H. apply round_binary32_le. rewrite <- Zle_Qle. lia.
Qed.

(** The quotient does not decrease with the step number. *)
Lemma fraction_le (n n' m : nat) :
  n <= n' -> (fraction n m <= fraction n' m)%Q.
Proof.
  intros H. unfold fraction, float_div. apply round_binary32_le.
  unfold Qdiv. apply Qmult_le_compat_r; [apply float_of_uint_le; exact H|].
  apply Qinv_le_0_compat.
  change 0%Q with (round_binary32 0). apply round_binary32_le.
  rewrite <- (Zle_Qle 0). lia.
Qed.

Lemma round_binary32_1 : (round_binary32 1 == 1)%Q.
Proof. reflexivity. Qed.

Lemma fraction_le_1 (n m : nat) : 0 < m -> n <= m -> (fraction n m <= 1)%Q.
Proof.
  intros Hm H. unfold fraction, float_div.
  apply Qle_trans with (round_binary32 1); [|rewrite round_binary32_1; apply Qle_refl].
  apply round_binary32_le.
  apply Qle_shift_div_r; [apply float_of_uint_pos; exact Hm|].
  rewrite Qmult_1_l. apply float_of_uint_le. exact H.
Qed.

(** [x / x] is [1.0]: the notification at step [maxSteps] passes [1.0]. *)
Lemma fraction_self (m : nat) : 0 < m -> (fraction m m == 1)%Q.
Proof.
  intros Hm. unfold fraction, float_div.
  rewrite <- round_binary32_1. apply round_binary32_comp.
  pose proof (float_of_uint_pos m Hm) as Hpos.
  field. intros H. rewrite H in Hpos. discriminate Hpos.
Qed.

(** Up to [2^24] steps the conversions are exact and only step [maxSteps]
    has the quotient [1.0]. *)
Lemma fraction_lt_1 (n m : nat) :
  (Z.of_nat m <= 2 ^ 24)%Z -> n < m -> (fraction n m < 1)%Q.
Proof.
  intros Hm Hn. unfold fraction, float_div.
  assert (Hle : (float_of_uint (Z.of_nat n) / float_of_uint (Z.of_nat m)
                 <= 16777215 # 16777216)%Q).
  { unfold float_of_uint. rewrite !round_binary32_Z by lia.
    apply Qle_shift_div_r; [unfold Qlt; cbn; lia|].
    unfold Qle, Qmult, inject_Z. cbn [Qnum Qden]. lia. }
  apply round_binary32_le in Hle.
  eapply Qle_lt_trans; [exact Hle|]. reflexivity.
Qed.

Lemma fraction_is_1 (n m : nat) :
  0 < m -> (Z.of_nat m <= 2 ^ 24)%Z -> n <= m ->
  Qeq_bool (fraction n m) 1 = (n =? m).
Proof.
  intros Hm Hb Hn. destruct (Nat.eqb_spec n m) as [->|Hne].
  - apply Qeq_bool_iff, fraction_self. exact Hm.
  - destruct (Qeq_bool (fraction n m) 1) eqn:H; [|reflexivity].
    apply Qeq_bool_iff in H.
    pose proof (fraction_lt_1 n m Hb ltac:(lia)) as Hlt.
    rewrite H in Hlt. discriminate Hlt.
Qed.

(** The definitions of binary32 rounding agree with the Standard
    Library's specification of IEEE 754 division on the quotients of all
    pairs of step numbers up to 48, of all pairs in a range across [2^24],
    where the conversions start to round, and at the ends of the range of
    an [unsigned int]. *)
Lemma binary32_agrees_with_SpecFloat :
  forallb (fun m => forallb (fun n => agrees_with_SpecFloat (Z.of_nat n) (Z.of_nat m))
                            (seq 1 m)) (seq 1 48) = true /\
  forallb (fun m => forallb (fun n => agrees_with_SpecFloat
                                        (16777200 + Z.of_nat n) (16777200 + Z.of_nat m))
                            (seq 1 m)) (seq 1 32) = true /\
  forallb (fun nm => agrees_with_SpecFloat (fst nm) (snd nm))
    [(1, 4294967295); (4294967294, 4294967295); (4294967295, 4294967295);
     (1, 3); (16777216, 16777217); (33554431, 4294967295)]%Z = true.
Proof. vm_compute. repeat split. Qed.

(** Beyond [2^24] steps a notification before the last can pass [1.0]:
    [(float)16777216 / (float)16777217] is [1.0f]. *)
Lemma early_one :
  (float_div (float_of_uint 16777216) (float_of_uint 16777217) == 1)%Q.
Proof. reflexivity. Qed.

Lemma StronglySorted_snoc {A : Type} (R : A -> A -> Prop) (l : list A) (x : A) :
  StronglySorted R l -> Forall (fun a => R a x) l -> StronglySorted R (l ++ [x]).
Proof.
  induction 1 as [|a l Hl IH Ha]; intros Hx; cbn [app].
  - constructor; constructor.
  - inversion Hx; subst. constructor; [auto|].
    apply Forall_app. split; [assumption|]. constructor; [assumption|constructor].
Qed.

(** The step numbers that the stride [delay] selects among
    [from+1 .. from+count]. *)
Lemma stride_steps_sorted (delay maxSteps from count : nat) :
  StronglySorted Qle
    (map (fun n => fraction n maxSteps)
         (filter (fun n => n mod delay =? 0) (seq from count))).
Proof.
  revert from. induction count as [|count IH]; intros from; cbn [seq filter].
  - constructor.
  - destruct (from mod delay =? 0); [|apply IH].
    cbn [map]. constructor; [apply IH|].
    apply Forall_map, Forall_forall. intros n Hn.
    apply filter_In in Hn. destruct Hn as [Hn _]. apply in_seq in Hn.
    apply fraction_le. lia.
Qed.

Lemma stride_steps_bounded (delay maxSteps from count : nat) :
  0 < maxSteps -> from + count <= S maxSteps ->
  Forall (fun q => (q <= 1)%Q)
    (map (fun n => fraction n maxSteps)
         (filter (fun n => n mod delay =? 0) (seq from count))).
Proof.
  intros Hm Hb. apply Forall_map, Forall_forall. intros n Hn.
  apply filter_In in Hn. destruct Hn as [Hn _]. apply in_seq in Hn.
  apply fraction_le_1; lia.
Qed.

Lemma stride_steps_ones (delay maxSteps from count : nat) :
  0 < maxSteps -> (Z.of_nat maxSteps <= 2 ^ 24)%Z ->
  from + count <= S maxSteps ->
  count_ones
    (map (fun n => fraction n maxSteps)
         (filter (fun n => n mod delay =? 0) (seq from count)))
  = if (from <=? maxSteps) && (maxSteps <? from + count)
       && (maxSteps mod delay =? 0)
    then 1 else 0.
Proof.
  intros Hm Hb. unfold count_ones. revert from.
  induction count as [|count IH]; intros from Hrange; cbn [seq filter map].
  - destruct (Nat.leb_spec from maxSteps), (Nat.ltb_spec maxSteps (from + 0));
      try lia; reflexivity.
  - assert (Hrest := IH (S from) ltac:(lia)).
    destruct (from mod delay =? 0) eqn:Hdiv.
    + cbn [map filter]. rewrite fraction_is_1 by (assumption || lia).
      destruct (Nat.eqb_spec from maxSteps) as [->|Hne].
      * cbn [List.length]. rewrite Hrest.
        replace (S maxSteps <=? maxSteps) with false
          by (symmetry; apply Nat.leb_gt; lia).
        rewrite Nat.leb_refl, Hdiv.
        replace (maxSteps <? maxSteps + S count) with true
          by (symmetry; apply Nat.ltb_lt; lia).
        reflexivity.
      * rewrite Hrest.
        replace (from + S count) with (S from + count) by lia.
        destruct (Nat.leb_spec (S from) maxSteps), (Nat.leb_spec from maxSteps);
          try lia; reflexivity.
    + rewrite Hrest.
      replace (from + S count) with (S from + count) by lia.
      destruct (Nat.eq_dec from maxSteps) as [->|Hne].
      * rewrite Hdiv, !andb_false_r. reflexivity.
      * destruct (Nat.leb_spec (S from) maxSteps), (Nat.leb_spec from maxSteps);
          try lia; reflexivity.
Qed.

(** Whatever the number of steps, the notification at step [maxSteps]
    passes [1.0]. *)
Lemma stride_steps_full (delay maxSteps from count : nat) :
  0 < maxSteps -> from <= maxSteps < from + count -> maxSteps mod delay = 0 ->
  1 <= count_ones
         (map (fun n => fraction n maxSteps)
              (filter (fun n => n mod delay =? 0) (seq from count))).
Proof.
  intros Hm Hrange Hdiv. unfold count_ones.
  set (l := map _ _).
  assert (Hin : In (fraction maxSteps maxSteps)
                   (filter (fun q => Qeq_bool q 1) l)).
  { apply filter_In. split.
    - subst l. apply (in_map (fun n => fraction n maxSteps)). apply filter_In. split.
      + apply in_seq. lia.
      + apply Nat.eqb_eq. exact Hdiv.
    - apply Qeq_bool_iff, fraction_self. exact Hm. }
  destruct (filter _ l); [destruct Hin|cbn [List.length]; lia].
Qed.

Lemma count_ones_app (a b : list Q) : count_ones (a ++ b) = count_ones a + count_ones b.
Proof. unfold count_ones. rewrite filter_app, length_app. reflexivity. Qed.

(** ** Loops and cells *)

Lemma for_range_S {S : Type} (lo n : nat) (body : nat -> S -> S) (s : S) :
  for_range lo (lo + Datatypes.S n) body s
  = body (lo + n) (for_range lo (lo + n) body s).
Proof.
  unfold for_range.
  replace (lo + Datatypes.S n - lo) with (Datatypes.S n) by lia.
  replace (lo + n - lo) with n by lia.
  rewrite seq_S, fold_left_app. reflexivity.
Qed.

Lemma for_S {S : Type} (n : nat) (body : nat -> S -> S) (s : S) :
  for_ (Datatypes.S n) body s = body n (for_ n body s).
Proof. exact (for_range_S 0 n body s). Qed.

Lemma for_range_empty {S : Type} (lo : nat) (body : nat -> S -> S) (s : S) :
  for_range lo lo body s = s.
Proof. unfold for_range. rewrite Nat.sub_diag. reflexivity. Qed.

Lemma for_0 {S : Type} (body : nat -> S -> S) (s : S) : for_ 0 body s = s.
Proof. reflexivity. Qed.

(** A property kept by every turn of a loop holds when the loop ends. *)
Lemma for_range_invariant {S : Type} (P : S -> Prop) (lo hi : nat)
    (body : nat -> S -> S) (s : S) :
  P s ->
  (forall i x, lo <= i < hi -> P x -> P (body i x)) ->
  P (for_range lo hi body s).
Proof.
  intros Hs Hstep. unfold for_range.
  assert (Hin : forall i, In i (seq lo (hi - lo)) -> lo <= i < hi).
  { intros i Hi. apply in_seq in Hi. lia. }
  revert s Hs Hin. generalize (seq lo (hi - lo)) as l.
  induction l as [|a l IH]; intros s Hs Hin; simpl; auto.
  apply IH.
  - apply Hstep; auto. apply Hin. now left.
  - intros i Hi. apply Hin. now right.
Qed.

Lemma for_invariant {S : Type} (P : S -> Prop) (n : nat)
    (body : nat -> S -> S) (s : S) :
  P s ->
  (forall i x, i < n -> P x -> P (body i x)) ->
  P (for_ n body s).
Proof.
  intros Hs Hstep. unfold for_. apply for_range_invariant; auto.
  intros i x Hi. apply Hstep. lia.
Qed.

Lemma list_set_length {A : Type} (l : list A) (k : nat) (x : A) :
  List.length (list_set l k x) = List.length l.
Proof.
  revert k. induction l as [|a l IH]; intros [|k]; simpl; auto.
Qed.

Lemma nth_list_set {A : Type} (l : list A) (k k' : nat) (x dflt : A) :
  nth k' (list_set l k x) dflt
  = if (k' =? k) && (k <? List.length l) then x else nth k' l dflt.
Proof.
  revert k k'. induction l as [|a l IH]; intros k k'; simpl.
  - rewrite andb_false_r. reflexivity.
  - destruct k as [|k], k' as [|k']; simpl; auto.
Qed.

Section Properties.

Context {F : Type} {SF : Scalar F}.

Lemma sum_upto_ext (n : nat) (f g : nat -> F) :
  (forall k, k < n -> f k = g k) -> sum_upto n f = sum_upto n g.
Proof.
  induction n as [|n IH]; intros H; simpl; auto.
  rewrite IH, H by auto with arith. reflexivity.
Qed.

Lemma at_mset (m : Matrix) (i j i' j' : nat) (x : F) :
  at_ (mset m i j x) i' j'
  = if (i' =? i) && (j' =? j) then x else at_ m i' j'.
Proof. reflexivity. Qed.

(** The shape of a matrix and what a loop that only writes cells keeps. *)
Definition same_shape (a b : @Matrix F) : Prop :=
  rows a = rows b /\ cols a = cols b.

Lemma same_shape_refl (a : @Matrix F) : same_shape a a.
Proof. split; reflexivity. Qed.

Lemma same_shape_trans (a b c : @Matrix F) :
  same_shape a b -> same_shape b c -> same_shape a c.
Proof. unfold same_shape. intuition congruence. Qed.

(** [for (i = 0; i < nr; ++i) m(i, j) = f(i, m(i, j))]: one column. *)
Lemma column_loop (nr j : nat) (f : nat -> F -> F) (m : Matrix) :
  let m' := for_ nr (fun i m => mset m i j (f i (at_ m i j))) m in
  same_shape m' m /\
  forall i' j', at_ m' i' j'
    = if (i' <? nr) && (j' =? j) then f i' (at_ m i' j') else at_ m i' j'.
Proof.
  cbv zeta. induction nr as [|nr IH].
  - rewrite for_0. split; [apply same_shape_refl|]. intros. reflexivity.
  - destruct IH as [Hshape IH]. rewrite for_S. split.
    + destruct Hshape. split; simpl; assumption.
    + intros i' j'. rewrite at_mset, !IH.
      destruct (Nat.eqb_spec i' nr) as [->|Hne], (Nat.eqb_spec j' j) as [->|Hj];
        simpl; rewrite ?Nat.eqb_refl, ?andb_false_r, ?andb_true_r; simpl.
      * rewrite Nat.ltb_irrefl. simpl.
        replace (nr <? Datatypes.S nr) with true by (symmetry; apply Nat.ltb_lt; lia).
        reflexivity.
      * reflexivity.
      * destruct (Nat.ltb_spec i' nr), (Nat.ltb_spec i' (Datatypes.S nr));
          try lia; reflexivity.
      * reflexivity.
Qed.

(** [for (j = 0; j < nc; ++j) if (sel j) for (i = 0; i < nr; ++i)
      m(i, j) = f(i, j, m(i, j))]: the shape of every cell-wise update of
    the drivers, with the column filter [sel]. *)
Lemma cell_loop (nc nr : nat) (sel : nat -> bool) (f : nat -> nat -> F -> F)
    (m : Matrix) :
  let m' :=
    for_ nc (fun j m =>
      if sel j then for_ nr (fun i m => mset m i j (f i j (at_ m i j))) m else m) m in
  same_shape m' m /\
  forall i j, at_ m' i j
    = if (i <? nr) && (j <? nc) && sel j then f i j (at_ m i j) else at_ m i j.
Proof.
  cbv zeta. induction nc as [|nc IH].
  - rewrite for_0. split; [apply same_shape_refl|].
    intros. rewrite andb_false_r. reflexivity.
  - destruct IH as [Hshape IH]. rewrite for_S.
    set (m1 := for_ nc _ m) in *.
    destruct (sel nc) eqn:Hsel.
    + destruct (column_loop nr nc (fun i => f i nc) m1) as [Hs1 Hc1].
      split; [eapply same_shape_trans; eassumption|].
      intros i j. rewrite Hc1, !IH.
      destruct (Nat.eqb_spec j nc) as [->|Hne].
      * rewrite Nat.ltb_irrefl, andb_false_r. simpl.
        replace (nc <? Datatypes.S nc) with true by (symmetry; apply Nat.ltb_lt; lia).
        rewrite Hsel, !andb_true_r. reflexivity.
      * rewrite andb_false_r.
        destruct (Nat.ltb_spec j nc), (Nat.ltb_spec j (Datatypes.S nc));
          try lia; reflexivity.
    + split; [assumption|].
      intros i j. rewrite !IH.
      destruct (Nat.eqb_spec j nc) as [->|Hne].
      * rewrite Nat.ltb_irrefl, Hsel, !andb_false_r. reflexivity.
      * destruct (Nat.ltb_spec j nc), (Nat.ltb_spec j (Datatypes.S nc));
          try lia; reflexivity.
Qed.

(** ** The engine invariant

    What the constructor establishes about the shapes: [_t] matrices
    [W^p], each [M x R], [H] is [R x N], the reconstruction is [M x N], and
    [_t <= N]. *)
Definition well_formed (d : @Deconvolver F) : Prop :=
  List.length (_w d) = _t d /\
  _t d <= cols (_v d) /\
  Forall (fun wp => rows wp = rows (_v d) /\ cols wp = rows (_h d)) (_w d) /\
  cols (_h d) = cols (_v d) /\
  same_shape (_approx d) (_v d).

Lemma well_formed_W (d : @Deconvolver F) (p : nat) :
  well_formed d -> p < _t d ->
  rows (W d p) = rows (_v d) /\ cols (W d p) = rows (_h d).
Proof.
  intros (Hlen & _ & Hall & _) Hp. unfold W.
  rewrite Forall_forall in Hall. apply Hall, nth_In. lia.
Qed.

(** ** The shifted-convolution kernel *)

Lemma computeWpH_cells (d : @Deconvolver F) (p : nat) (out : Matrix) :
  p <= cols (_h d) -> rows out = rows (W d p) -> cols out = cols (_h d) ->
  same_shape (computeWpH d p out) out /\
  forall i j, i < rows out -> j < cols out ->
    at_ (computeWpH d p out) i j
    = if j <? p then f_zero else at_ (multWithMatrix (W d p) (_h d)) i (j - p).
Proof.
  intros Hp Hrows Hcols. unfold computeWpH.
  destruct (cell_loop p (rows out) (fun _ => true) (fun _ _ _ => f_zero) out)
    as [Hshape Hcells].
  cbv beta iota in Hshape, Hcells.
  set (zeroed := for_ p _ out) in *.
  split.
  - destruct Hshape. split; simpl; assumption.
  - intros i j Hi Hj. simpl.
    rewrite Nat.sub_0_r.
    replace (i <? rows (W d p)) with true by (symmetry; apply Nat.ltb_lt; lia).
    replace (j <? p + (cols (_h d) - p)) with true
      by (symmetry; apply Nat.ltb_lt; lia).
    rewrite andb_true_r. simpl.
    destruct (Nat.leb_spec p j) as [Hle|Hlt].
    + replace (j <? p) with false by (symmetry; apply Nat.ltb_ge; lia).
      reflexivity.
    + rewrite Hcells.
      replace (i <? rows out) with true by (symmetry; apply Nat.ltb_lt; lia).
      replace (j <? p) with true by (symmetry; apply Nat.ltb_lt; lia).
      reflexivity.
Qed.

(** C5.  On an engine with the constructor's shapes and for [p < _t],
    [computeWpH(p, out)] keeps the shape of the [M x N] matrix [out], makes
    its columns [0..p-1] zero and its columns [p..N-1] the product of [W^p]
    with the columns [0..N-p-1] of [H]; [computeApprox()] makes the
    reconstruction [W^0 * H] when [_t = 1], and otherwise the sum over
    [p = 0..t-1] of what [computeWpH(p, .)] writes. *)
Theorem shifted_convolution_kernel (d : @Deconvolver F) :
  well_formed d ->
  (forall p out, p < _t d -> same_shape out (_v d) ->
     same_shape (computeWpH d p out) out /\
     (forall i j, i < rows out -> j < p -> at_ (computeWpH d p out) i j = f_zero) /\
     (forall i j, i < rows out -> p <= j < cols out ->
        at_ (computeWpH d p out) i j
        = at_ (multWithMatrix (W d p) (_h d)) i (j - p))) /\
  (_t d = 1 -> _approx (computeApprox d) = multWithMatrix (W d 0) (_h d)) /\
  (_t d <> 1 ->
     same_shape (_approx (computeApprox d)) (_v d) /\
     forall i j, i < rows (_v d) -> j < cols (_v d) ->
       at_ (_approx (computeApprox d)) i j
       = sum_upto (_t d)
           (fun p => at_ (computeWpH d p (Matrix_new (rows (_v d)) (cols (_v d)))) i j)).
Proof.
  intros Hwf.
  assert (Hkernel : forall p out, p < _t d -> same_shape out (_v d) ->
            same_shape (computeWpH d p out) out /\
            forall i j, i < rows out -> j < cols out ->
              at_ (computeWpH d p out) i j
              = if j <? p then f_zero
                else at_ (multWithMatrix (W d p) (_h d)) i (j - p)).
  { intros p out Hp [Hr Hc].
    destruct (well_formed_W d p Hwf Hp) as [HWr _].
    destruct Hwf as (_ & Ht & _ & HN & _).
    apply computeWpH_cells; lia. }
  split; [|split].
  - intros p out Hp Hout.
    destruct (Hkernel p out Hp Hout) as [Hshape Hcells].
    split; [exact Hshape|]. split.
    + intros i j Hi Hj. destruct Hout as [_ Hc].
      destruct Hwf as (_ & Ht & _).
      rewrite Hcells by lia.
      replace (j <? p) with true by (symmetry; apply Nat.ltb_lt; lia).
      reflexivity.
    + intros i j Hi [Hpj Hj]. rewrite Hcells by lia.
      replace (j <? p) with false by (symmetry; apply Nat.ltb_ge; lia).
      reflexivity.
  - intros Ht. unfold computeApprox. rewrite Ht. reflexivity.
  - intros Ht. unfold computeApprox.
    replace (_t d =? 1) with false by (symmetry; apply Nat.eqb_neq; exact Ht).
    set (M := rows (_v d)). set (N := cols (_v d)).
    set (body := fun p (st : Matrix * Matrix) =>
                   let '(approx, wpH) := st in
                   (Matrix_add approx (computeWpH d p wpH), computeWpH d p wpH)).
    assert (Hloop : forall k, k <= _t d ->
              let st := for_ k body (Matrix_zero (_approx d), Matrix_new M N) in
              same_shape (fst st) (_v d) /\ same_shape (snd st) (_v d) /\
              forall i j, i < M -> j < N ->
                at_ (fst st) i j
                = sum_upto k (fun p => at_ (computeWpH d p (Matrix_new M N)) i j)).
    { induction k as [|k IH]; intros Hk; cbv zeta.
      - rewrite for_0. cbn [fst snd]. split; [|split].
        + destruct Hwf as (_ & _ & _ & _ & Ha). exact Ha.
        + split; reflexivity.
        + reflexivity.
      - rewrite for_S. destruct (IH ltac:(lia)) as (Ha & Hs & Hcells).
        destruct (for_ k body _) as [approx wpH].
        cbn [fst snd body sum_upto] in *.
        destruct (Hkernel k wpH ltac:(lia) Hs) as [Hshape Hc].
        destruct (Hkernel k (Matrix_new M N) ltac:(lia)
                    ltac:(split; reflexivity)) as [_ Hc0].
        split; [exact Ha|]. split.
        + eapply same_shape_trans; eassumption.
        + intros i j Hi Hj. unfold Matrix_add. cbn [at_].
          rewrite Hcells by assumption.
          destruct Hs as [Hsr Hsc].
          rewrite Hc by (subst M N; lia).
          rewrite (Hc0 i j) by (simpl; assumption).
          reflexivity. }
    specialize (Hloop (_t d) (Nat.le_refl _)). cbv zeta in Hloop.
    change (for_ (_t d) _ (Matrix_zero (_approx d), Matrix_new M N))
      with (for_ (_t d) body (Matrix_zero (_approx d), Matrix_new M N)).
    destruct (for_ (_t d) body _) as [approx wpH]. cbn [fst snd _approx set_approx] in *.
    destruct Hloop as (Ha & _ & Hcells). split; assumption.
Qed.

(** ** The convergence monitor *)

(** C4.  [checkConvergence(eps, doComputeApprox)]: with [eps <= 0] it
    returns [false] and the engine is untouched; otherwise the
    reconstruction is recomputed only when [doComputeApprox] holds, and then
    either there is no previous reconstruction, the current one is stored
    and the answer is [false], or [zeta] is the norm of the difference over
    the norm of the previous one, the current reconstruction replaces the
    previous one and the answer is [zeta < eps]. *)
Theorem checkConvergence_cases (d : @Deconvolver F) (eps : F) (compute_now : bool) :
  let recomputed := if compute_now then computeApprox d else d in
  (f_le eps f_zero = true ->
     checkConvergence d eps compute_now = (false, d)) /\
  (f_le eps f_zero = false -> _oldApprox d = None ->
     checkConvergence d eps compute_now
     = (false, set_oldApprox recomputed (Some (_approx recomputed)))) /\
  (forall previous, f_le eps f_zero = false -> _oldApprox d = Some previous ->
     let zeta :=
       (frobeniusNorm (Matrix_sub (_approx recomputed) previous)
        / frobeniusNorm previous)%sc in
     checkConvergence d eps compute_now
     = (f_lt zeta eps, set_oldApprox recomputed (Some (_approx recomputed)))).
Proof.
  cbv zeta. unfold checkConvergence. split; [|split].
  - intros ->. reflexivity.
  - intros -> ->. reflexivity.
  - intros previous -> ->. reflexivity.
Qed.

(** ** Errors *)

Variable default_epsilon : F.

Lemma run_loop_outcome (fuel maxSteps : nat)
    (conv : @Deconvolver F -> bool * @Deconvolver F)
    (body : @Deconvolver F -> @Deconvolver F) (observer : bool)
    (d : @Deconvolver F) :
  (exists d' calls, run_loop fuel maxSteps conv body observer d = Returned d' calls)
  \/ run_loop fuel maxSteps conv body observer d = UndefinedBehaviour
  \/ run_loop fuel maxSteps conv body observer d = OutOfFuel.
Proof.
  unfold run_loop. generalize (set_numSteps d 0), (@nil Q).
  induction fuel as [|fuel IH]; intros x calls; cbn [while_loop]; [auto|].
  destruct (_numSteps x <? maxSteps); [|eauto].
  destruct (conv x) as [[|] x1]; [eauto|].
  destruct (nextItStep (body x1) observer maxSteps calls) as [[x2 calls2]|];
    [apply IH|auto].
Qed.

(** A driver returns, stops on its [assert], or runs out of fuel: the
    only [throw]s of [decompose] are those of the selection. *)
Lemma select_driver_thrown (fuel : nat) (d : @Deconvolver F) (cf : NMFCostFunction)
    (maxSteps : nat) (eps : F) (observer : bool) e d' calls :
  select_driver default_epsilon fuel d cf maxSteps eps observer = Thrown e d' calls ->
  d' = d /\ calls = [] /\
  ((single_spectrum_only cf = true /\ 1 < _t d /\
    (e = runtime_error "Sparse NMD not implemented"
     \/ e = runtime_error "Continuous NMD not implemented"))
   \/ ((exists n, cf = OtherCostFunction n)
       /\ e = runtime_error "Invalid cost function")).
Proof.
  unfold select_driver, factorizeNMFED, factorizeNMDED, factorizeNMDKL,
    factorizeNMFEDSparse, factorizeNMFKLSparse, factorizeNMFKLTempCont,
    factorizeNMFEDSparseNorm.
  intros H.
  destruct cf; simpl;
    repeat match type of H with
      | context [if ?b then _ else _] => destruct b eqn:?
      | context [run_loop ?a ?b ?c ?e ?f ?g] =>
          let Heq := fresh "Heq" in
          destruct (run_loop_outcome a b c e f g) as [(? & ? & Heq)| [Heq|Heq]];
          rewrite Heq in H
      end;
    try discriminate;
    inversion H; subst; (split; [reflexivity|split; [reflexivity|]]);
    try (left; split; [reflexivity|split; [apply Nat.ltb_lt; assumption|]];
         (left; reflexivity) || (right; reflexivity)).
  right. split; [eexists; reflexivity|reflexivity].
Qed.

Lemma decompose_thrown (d : @Deconvolver F) (cf : NMFCostFunction)
    (maxSteps : nat) (eps : F) (observer : bool) e d' calls :
  decompose default_epsilon d cf maxSteps eps observer = Thrown e d' calls ->
  select_driver default_epsilon (S maxSteps) d cf maxSteps eps observer
  = Thrown e d' calls.
Proof.
  unfold decompose, decompose_fuel.
  destruct (select_driver _ _ _ _ _ _ _); try discriminate; auto.
Qed.

(** C6.  The constructor throws exactly when there are more spectra than
    columns of [V], with a message of kind InvalidArgument.  [decompose]
    throws an error of kind Unsupported exactly for a sparse, continuous or
    normalized cost function with [_t > 1], and one of kind InvalidArgument
    exactly for a value that is none of the six cost functions; when it
    throws, the engine is as it was (no iteration has run, so [W], [H] and
    the step counter are unchanged) and the observer has not been called. *)
Theorem errors_raised :
  (forall (v : @Matrix F) r t wGenerator hGenerator,
     (exists e, construct v r t wGenerator hGenerator = inl e) <-> cols v < t) /\
  (forall (v : @Matrix F) r t wGenerator hGenerator e,
     construct v r t wGenerator hGenerator = inl e ->
     error_kind e = Some InvalidArgument) /\
  (forall d cf maxSteps eps observer,
     (exists e d' calls,
        decompose default_epsilon d cf maxSteps eps observer = Thrown e d' calls
        /\ error_kind e = Some Unsupported)
     <-> (single_spectrum_only cf = true /\ 1 < _t d)) /\
  (forall d cf maxSteps eps observer,
     (exists e d' calls,
        decompose default_epsilon d cf maxSteps eps observer = Thrown e d' calls
        /\ error_kind e = Some InvalidArgument)
     <-> (exists n, cf = OtherCostFunction n)) /\
  (forall d cf maxSteps eps observer e d' calls,
     decompose default_epsilon d cf maxSteps eps observer = Thrown e d' calls ->
     d' = d /\ calls = []).
Proof.
  split; [|split; [|split; [|split]]].
  - intros v r t wG hG. unfold construct.
    destruct (Nat.ltb_spec (cols v) t) as [Hlt|Hge]; split.
    + intros _. exact Hlt.
    + intros _. eexists. reflexivity.
    + intros [e He]. discriminate.
    + intros Hlt. lia.
  - intros v r t wG hG e. unfold construct.
    destruct (cols v <? t); [|discriminate].
    intros [= <-]. reflexivity.
  - intros d cf maxSteps eps observer. split.
    + intros (e & d' & calls & Hthrow & Hkind).
      apply decompose_thrown, select_driver_thrown in Hthrow.
      destruct Hthrow as (_ & _ & [(Hcf & Ht & _)|(_ & ->)]).
      * split; assumption.
      * discriminate.
    + intros [Hcf Ht]. apply Nat.ltb_lt in Ht.
      unfold decompose, decompose_fuel, select_driver.
      destruct cf; try discriminate; rewrite Ht;
        do 3 eexists; (split; [reflexivity|reflexivity]).
  - intros d cf maxSteps eps observer. split.
    + intros (e & d' & calls & Hthrow & Hkind).
      apply decompose_thrown, select_driver_thrown in Hthrow.
      destruct Hthrow as (_ & _ & [(_ & _ & [-> | ->])|(Hcf & _)]);
        try discriminate.
      exact Hcf.
    + intros [n ->]. do 3 eexists. split; reflexivity.
  - intros d cf maxSteps eps observer e d' calls Hthrow.
    apply decompose_thrown, select_driver_thrown in Hthrow.
    destruct Hthrow as (-> & -> & _). split; reflexivity.
Qed.

(** ** Construction *)

(** The members that [generateW] does not touch. *)
Definition members_but_w (d : @Deconvolver F) :=
  (_v d, _approx d, _oldApprox d, _wConstant d, _wColConstant d,
   _normalizeMatrices d, _t d, _h d, _s d, _c d, _numSteps d,
   _absoluteError d, _relativeError d, _vFrob d, _notificationDelay d).

Lemma generateW_members (d : @Deconvolver F) (generator : nat -> nat -> F) :
  members_but_w (generateW d generator) = members_but_w d.
Proof.
  unfold generateW.
  apply (for_invariant (fun x => members_but_w x = members_but_w d)).
  - reflexivity.
  - intros l x _ Hx. rewrite <- Hx. reflexivity.
Qed.

(** C10.  Right after a successful construction: the sparsity and the
    continuity weights are all zero, no column of [W] is held constant
    ([_wConstant] is false and so are the [r] entries of [_wColConstant]),
    both errors are [-1], the reconstruction is all zero, and the
    notification stride is 25. *)
Theorem construct_defaults (v : @Matrix F) (r t : nat)
    (wGenerator hGenerator : nat -> nat -> F) (d : @Deconvolver F) :
  construct v r t wGenerator hGenerator = inr d ->
  (same_shape (_s d) (_h d) /\ forall i j, at_ (_s d) i j = f_zero) /\
  (same_shape (_c d) (_h d) /\ forall i j, at_ (_c d) i j = f_zero) /\
  _wConstant d = false /\
  _wColConstant d = repeat false r /\
  _absoluteError d = f_minus_one /\
  _relativeError d = f_minus_one /\
  (same_shape (_approx d) v /\ forall i j, at_ (_approx d) i j = f_zero) /\
  _notificationDelay d = 25.
Proof.
  unfold construct. destruct (cols v <? t); [discriminate|].
  intros [= <-].
  match goal with |- context [generateW ?d0 _] =>
    pose proof (generateW_members d0 wGenerator) as Hframe end.
  unfold members_but_w in Hframe. cbn [_v _approx _oldApprox _wConstant
    _wColConstant _normalizeMatrices _t _h _s _c _numSteps _absoluteError
    _relativeError _vFrob _notificationDelay] in Hframe.
  injection Hframe as _ Happrox _ HwC HwCC _ _ Hh Hs Hc _ Habs Hrel _ Hdelay.
  rewrite Happrox, HwC, HwCC, Hh, Hs, Hc, Habs, Hrel, Hdelay.
  repeat split; reflexivity.
Qed.

Lemma Forall_list_set {A : Type} (P : A -> Prop) (l : list A) (k : nat) (x : A) :
  Forall P l -> P x -> Forall P (list_set l k x).
Proof.
  intros Hl Hx. revert k. induction Hl as [|a l Ha Hl IH]; intros [|k]; cbn [list_set];
    constructor; auto.
Qed.

Lemma Forall_repeat {A : Type} (P : A -> Prop) (x : A) (n : nat) :
  P x -> Forall P (repeat x n).
Proof. intros Hx. induction n; cbn [repeat]; constructor; auto. Qed.

(** The constructor establishes the engine invariant, with [_t = t], the
    given [V] and the generated [H]. *)
Lemma construct_well_formed (v : @Matrix F) (r t : nat)
    (wGenerator hGenerator : nat -> nat -> F) (d : @Deconvolver F) :
  construct v r t wGenerator hGenerator = inr d ->
  well_formed d /\ _v d = v /\ _t d = t /\
  _h d = Matrix_gen r (cols v) hGenerator.
Proof.
  unfold construct. destruct (Nat.ltb_spec (cols v) t) as [|Hle]; [discriminate|].
  intros [= <-].
  match goal with |- context [generateW ?x _] => set (d0 := x) end.
  pose proof (generateW_members d0 wGenerator) as Hframe.
  unfold members_but_w in Hframe.
  injection Hframe as Hv Happrox _ _ _ _ Ht Hh _ _ _ _ _ _ _.
  assert (Hw : List.length (_w (generateW d0 wGenerator)) = t /\
               Forall (fun wp => rows wp = rows v /\ cols wp = r)
                      (_w (generateW d0 wGenerator))).
  { unfold generateW.
    apply (for_invariant (fun x => List.length (_w x) = t /\
             Forall (fun wp => rows wp = rows v /\ cols wp = r) (_w x))).
    - subst d0. cbn [_w]. split; [apply repeat_length|].
      apply Forall_repeat. split; reflexivity.
    - intros l x Hlt [Hlen Hall]. cbn [_w set_w]. split.
      + rewrite list_set_length. exact Hlen.
      + apply Forall_list_set; [exact Hall|].
        assert (HWl : rows (W x l) = rows v /\ cols (W x l) = r).
        { unfold W. destruct (Nat.lt_ge_cases l (List.length (_w x))) as [Hl|Hl].
          - rewrite Forall_forall in Hall. apply Hall, nth_In, Hl.
          - subst d0. cbn [_t] in Hlt. lia. }
        revert HWl.
        apply (for_invariant (fun m => _ -> rows m = rows v /\ cols m = r)).
        * auto.
        * intros i m _ Hm HWl.
          apply (for_invariant (fun m => rows m = rows v /\ cols m = r)).
          -- auto.
          -- intros j m' _ Hm'. exact Hm'. }
  destruct Hw as [Hlen Hall].
  rewrite Hv, Ht, Hh. subst d0. cbn [_v _t _h]. split; [|auto].
  unfold well_formed. rewrite Hv, Ht, Hh, Happrox. cbn [_v _t _h _approx].
  split; [exact Hlen|]. split; [exact Hle|]. split; [exact Hall|].
  split; [reflexivity|]. split; reflexivity.
Qed.

(** ** What an iteration leaves alone

    The members that no convergence test and no loop body writes: all of
    them but the reconstruction, its previous value, [W] and [H]. *)
Definition controls (d : @Deconvolver F) :=
  (_v d, _wConstant d, _wColConstant d, _normalizeMatrices d, _t d,
   _s d, _c d, _numSteps d, _absoluteError d, _relativeError d, _vFrob d,
   _notificationDelay d).

Lemma controls_set_approx (d : @Deconvolver F) x : controls (set_approx d x) = controls d.
Proof. reflexivity. Qed.

Lemma controls_set_oldApprox (d : @Deconvolver F) x :
  controls (set_oldApprox d x) = controls d.
Proof. reflexivity. Qed.

Lemma controls_set_w (d : @Deconvolver F) x : controls (set_w d x) = controls d.
Proof. reflexivity. Qed.

Lemma controls_set_h (d : @Deconvolver F) x : controls (set_h d x) = controls d.
Proof. reflexivity. Qed.

Lemma controls_numSteps (a b : Deconvolver) :
  controls a = controls b -> _numSteps a = _numSteps b.
Proof. unfold controls. congruence. Qed.

Lemma controls_notificationDelay (a b : Deconvolver) :
  controls a = controls b -> _notificationDelay a = _notificationDelay b.
Proof. unfold controls. congruence. Qed.

Lemma controls_t (a b : Deconvolver) : controls a = controls b -> _t a = _t b.
Proof. unfold controls. congruence. Qed.

Lemma controls_wConstant (a b : Deconvolver) :
  controls a = controls b ->
  _wConstant a = _wConstant b /\ _wColConstant a = _wColConstant b.
Proof. unfold controls. split; congruence. Qed.

Lemma computeApprox_controls (d : @Deconvolver F) :
  controls (computeApprox d) = controls d.
Proof.
  unfold computeApprox. destruct (_t d =? 1); [reflexivity|].
  destruct (for_ _ _ _) as [approx wpH]. reflexivity.
Qed.

Lemma checkConvergence_controls (d : @Deconvolver F) (eps : F) (b : bool) :
  controls (snd (checkConvergence d eps b)) = controls d.
Proof.
  unfold checkConvergence. destruct (f_le eps f_zero); [reflexivity|].
  destruct (_oldApprox d), b; cbn [snd];
    rewrite controls_set_oldApprox, ?computeApprox_controls; reflexivity.
Qed.

(** One step of a proof that a loop body keeps [controls]: peel a setter,
    split a test, open a pair, or enter a loop with the property as its
    invariant. *)
Ltac controls_step d0 :=
  match goal with
  | |- controls (set_h _ _) = _ => rewrite controls_set_h
  | |- controls (set_w _ _) = _ => rewrite controls_set_w
  | |- controls (set_approx _ _) = _ => rewrite controls_set_approx
  | |- controls (set_oldApprox _ _) = _ => rewrite controls_set_oldApprox
  | |- controls (computeApprox _) = _ => rewrite computeApprox_controls
  | |- controls (fst (_, _)) = _ => cbn [fst]
  | |- controls (fst (for_ _ _ _)) = _ =>
      apply (for_invariant (fun st => controls (fst st) = controls d0));
      [cbn [fst] | intros ? [? ?] _ ?; cbn [fst] in *]
  | |- controls (for_ _ _ _) = _ =>
      apply (for_invariant (fun x => controls x = controls d0));
      [ | intros ? ? _ ?]
  | |- context [if ?b then _ else _] => destruct b
  | |- context [match ?x with (_, _) => _ end] => destruct x
  | |- controls ?x = controls ?x => reflexivity
  | H : controls ?x = _ |- controls ?x = _ => exact H
  end.

Ltac controls_tac d0 := cbv zeta; repeat (controls_step d0; cbv zeta).

Lemma factorizeNMFED_body_controls (d : @Deconvolver F) :
  controls (factorizeNMFED_body d) = controls d.
Proof. unfold factorizeNMFED_body, calculateNMFEDHUpdate. controls_tac d. Qed.

Lemma factorizeNMDED_body_controls (d : @Deconvolver F) :
  controls (factorizeNMDED_body default_epsilon d) = controls d.
Proof. unfold factorizeNMDED_body. controls_tac d. Qed.

Lemma factorizeNMDKL_body_controls (d : @Deconvolver F) :
  controls (factorizeNMDKL_body default_epsilon d) = controls d.
Proof. unfold factorizeNMDKL_body. controls_tac d. Qed.

Lemma factorizeNMFEDSparse_body_controls (d : @Deconvolver F) :
  controls (factorizeNMFEDSparse_body d) = controls d.
Proof. unfold factorizeNMFEDSparse_body, calculateNMFEDHUpdate. controls_tac d. Qed.

Lemma factorizeNMFKLSparse_body_controls (d : @Deconvolver F) :
  controls (factorizeNMFKLSparse_body d) = controls d.
Proof. unfold factorizeNMFKLSparse_body. controls_tac d. Qed.

Lemma factorizeNMFKLTempCont_body_controls (d : @Deconvolver F) :
  controls (factorizeNMFKLTempCont_body d) = controls d.
Proof. unfold factorizeNMFKLTempCont_body. controls_tac d. Qed.

Lemma factorizeNMFEDSparseNorm_body_controls (d : @Deconvolver F) :
  controls (factorizeNMFEDSparseNorm_body d) = controls d.
Proof. unfold factorizeNMFEDSparseNorm_body. controls_tac d. Qed.

Lemma normalizeMatrices_controls (d : @Deconvolver F) :
  controls (normalizeMatrices d) = controls d.
Proof. unfold normalizeMatrices. controls_tac d. Qed.

(** ** The driver loops *)

(** What a call of [nextItStep] that is defined leaves: the counter
    advanced and, with an observer at a stride step, the quotient added to
    the log. *)
Definition counted_step (d : @Deconvolver F) (observer : bool) (maxSteps : nat)
    (calls : Trace) : @Deconvolver F * Trace :=
  let d := set_numSteps d (S (_numSteps d)) in
  if observer && (_numSteps d mod _notificationDelay d =? 0)
  then (d, calls ++ [fraction (_numSteps d) maxSteps])
  else (d, calls).

(** The engine and the observer's log after [k] completed iterations of a
    driver loop with convergence test [conv] and body [body]. *)
Fixpoint after_iterations (k : nat)
    (conv : @Deconvolver F -> bool * @Deconvolver F)
    (body : @Deconvolver F -> @Deconvolver F)
    (observer : bool) (maxSteps : nat) (d : @Deconvolver F) (calls : Trace)
  : @Deconvolver F * Trace :=
  match k with
  | 0 => (d, calls)
  | S k' =>
      let '(d, calls) := counted_step (body (snd (conv d))) observer maxSteps calls in
      after_iterations k' conv body observer maxSteps d calls
  end.

(** The loop that [decompose] runs for a cost function and a depth [t]:
    its convergence test and its body, if there is one. *)
Definition loop_of (cf : NMFCostFunction) (t : nat) (eps : F)
  : option ((@Deconvolver F -> bool * @Deconvolver F)
            * (@Deconvolver F -> @Deconvolver F)) :=
  match cf with
  | EuclideanDistance =>
      if t =? 1 then Some (converged_computing eps, factorizeNMFED_body)
      else Some (converged_after_approx eps, factorizeNMDED_body default_epsilon)
  | KLDivergence =>
      Some (converged_after_approx eps, factorizeNMDKL_body default_epsilon)
  | EuclideanDistanceSparse =>
      if t =? 1 then Some (converged_computing eps, factorizeNMFEDSparse_body)
      else None
  | KLDivergenceSparse =>
      if t =? 1 then Some (converged_after_approx eps, factorizeNMFKLSparse_body)
      else None
  | KLDivergenceContinuous =>
      if t =? 1 then Some (converged_after_approx eps, factorizeNMFKLTempCont_body)
      else None
  | EuclideanDistanceSparseNormalized =>
      if t =? 1 then Some (converged_computing eps, factorizeNMFEDSparseNorm_body)
      else None
  | OtherCostFunction _ => None
  end.

(** The fractions reported during [count] iterations that follow step
    [from]: one for every step number that the stride divides. *)
Definition stride_calls (observer : bool) (delay maxSteps from count : nat) : Trace :=
  if observer
  then map (fun n => fraction n maxSteps)
           (filter (fun n => n mod delay =? 0) (seq (S from) count))
  else [].

Lemma stride_calls_S (observer : bool) (delay maxSteps from count : nat) :
  stride_calls observer delay maxSteps from (S count)
  = (if observer && (S from mod delay =? 0)
     then [fraction (S from) maxSteps] else [])
    ++ stride_calls observer delay maxSteps (S from) count.
Proof.
  unfold stride_calls. destruct observer; [|reflexivity].
  cbn [seq filter andb]. destruct (S from mod delay =? 0); reflexivity.
Qed.

Lemma nextItStep_spec (d : @Deconvolver F) (observer : bool) (maxSteps : nat)
    (calls : Trace) :
  counted_step d observer maxSteps calls
  = (set_numSteps d (S (_numSteps d)),
     calls ++ (if observer && (S (_numSteps d) mod _notificationDelay d =? 0)
               then [fraction (S (_numSteps d)) maxSteps] else [])).
Proof.
  unfold counted_step. cbn [_numSteps _notificationDelay set_numSteps].
  destruct (observer && _); [reflexivity|]. rewrite app_nil_r. reflexivity.
Qed.

(** [nextItStep] is undefined exactly with an observer and a zero stride;
    otherwise it counts the step. *)
Lemma nextItStep_counted (d : @Deconvolver F) (observer : bool) (maxSteps : nat)
    (calls : Trace) :
  nextItStep d observer maxSteps calls
  = if observer && (_notificationDelay d =? 0) then None
    else Some (counted_step d observer maxSteps calls).
Proof.
  unfold nextItStep, counted_step. cbn [_numSteps _notificationDelay set_numSteps].
  destruct observer; [|reflexivity]. cbn [andb].
  destruct (_notificationDelay d =? 0); [reflexivity|].
  destruct (_ =? 0); reflexivity.
Qed.

Definition keeps_controls (f : @Deconvolver F -> @Deconvolver F) : Prop :=
  forall d, controls (f d) = controls d.

Section Loop.

Variable conv : @Deconvolver F -> bool * @Deconvolver F.
Variable body : @Deconvolver F -> @Deconvolver F.
Variables (observer : bool) (maxSteps : nat).
Hypothesis conv_controls : keeps_controls (fun d => snd (conv d)).
Hypothesis body_controls : keeps_controls body.

Lemma iteration_controls (d : @Deconvolver F) :
  _numSteps (body (snd (conv d))) = _numSteps d /\
  _notificationDelay (body (snd (conv d))) = _notificationDelay d.
Proof.
  pose proof (body_controls (snd (conv d))) as Hb.
  pose proof (conv_controls d) as Hc. cbv beta in Hc.
  split.
  - rewrite (controls_numSteps _ _ Hb). apply controls_numSteps, Hc.
  - rewrite (controls_notificationDelay _ _ Hb).
    apply controls_notificationDelay, Hc.
Qed.

(** After [k] iterations the counter has advanced by [k], the stride is
    the same, and the observer has received the stride fractions. *)
Lemma after_iterations_spec (k : nat) :
  forall (d : @Deconvolver F) (calls : Trace),
    let st := after_iterations k conv body observer maxSteps d calls in
    _numSteps (fst st) = _numSteps d + k /\
    _notificationDelay (fst st) = _notificationDelay d /\
    snd st = calls ++ stride_calls observer (_notificationDelay d) maxSteps
                        (_numSteps d) k.
Proof.
  induction k as [|k IH]; intros d calls; cbv zeta.
  - cbn [after_iterations fst snd]. unfold stride_calls.
    destruct observer; cbn [seq filter map]; rewrite app_nil_r; auto.
  - cbn [after_iterations]. rewrite nextItStep_spec.
    destruct (iteration_controls d) as [Hn Hd]. rewrite Hn, Hd.
    specialize (IH (set_numSteps (body (snd (conv d))) (S (_numSteps d)))
                   (calls ++ (if observer && (S (_numSteps d) mod _notificationDelay d =? 0)
                              then [fraction (S (_numSteps d)) maxSteps] else []))).
    cbv zeta in IH. cbn [_numSteps _notificationDelay set_numSteps] in IH.
    rewrite Hd in IH. destruct IH as (IHn & IHd & IHc).
    split; [lia|]. split; [assumption|].
    rewrite IHc, stride_calls_S, app_assoc. reflexivity.
Qed.

(** With enough fuel the loop ends, after some number [k] of completed
    iterations: either the counter has reached [maxSteps], or the
    convergence test has answered [true]; or, with an observer and a zero
    stride, the first call of [nextItStep] is undefined. *)
Lemma while_loop_iterations (fuel : nat) :
  forall (d : @Deconvolver F) (calls : Trace),
    maxSteps - _numSteps d < fuel ->
    exists k,
      let st := after_iterations k conv body observer maxSteps d calls in
      (_numSteps d + k <= maxSteps \/ k = 0) /\
      ((maxSteps <= _numSteps (fst st)
        /\ while_loop fuel maxSteps conv body observer d calls
           = Returned (fst st) (snd st))
       \/ (_numSteps (fst st) < maxSteps
           /\ fst (conv (fst st)) = true
           /\ while_loop fuel maxSteps conv body observer d calls
              = Returned (snd (conv (fst st))) (snd st))
       \/ (observer = true /\ _notificationDelay d = 0
           /\ _numSteps d < maxSteps
           /\ while_loop fuel maxSteps conv body observer d calls
              = UndefinedBehaviour)).
Proof.
  induction fuel as [|fuel IH]; intros d calls Hfuel; [lia|].
  cbn [while_loop].
  destruct (Nat.ltb_spec (_numSteps d) maxSteps) as [Hlt|Hge].
  - destruct (conv d) as [stop d1] eqn:Hconv.
    destruct stop.
    + exists 0. cbn [after_iterations fst snd]. split; [right; reflexivity|].
      right. left. rewrite Hconv. auto.
    + pose proof (iteration_controls d) as [Hn Hd]. rewrite Hconv in Hn, Hd.
      cbn [snd] in Hn, Hd.
      rewrite nextItStep_counted, Hd.
      destruct observer eqn:Hobs; cbn [andb];
        [destruct (Nat.eqb_spec (_notificationDelay d) 0) as [Hzero|Hpos]|].
      * exists 0. cbn [after_iterations fst snd]. split; [right; reflexivity|].
        right. right. auto.
      * destruct (counted_step (body d1) true maxSteps calls) as [d2 calls2] eqn:Hnext.
        assert (Hn2 : _numSteps d2 = S (_numSteps d)
                      /\ _notificationDelay d2 = _notificationDelay d).
        { rewrite nextItStep_spec in Hnext. injection Hnext as <- _.
          cbn [_numSteps _notificationDelay set_numSteps]. split; [lia|exact Hd]. }
        destruct Hn2 as [Hn2 Hd2].
        destruct (IH d2 calls2 ltac:(lia)) as (k & Hk & Hend).
        exists (S k). cbn [after_iterations]. rewrite Hconv. cbn [snd].
        rewrite Hnext. split; [left; lia|].
        destruct Hend as [Hend|[Hend|(_ & Hz & _)]]; [auto|auto|lia].
      * destruct (counted_step (body d1) false maxSteps calls) as [d2 calls2] eqn:Hnext.
        assert (Hn2 : _numSteps d2 = S (_numSteps d)).
        { rewrite nextItStep_spec in Hnext. injection Hnext as <- _.
          cbn [_numSteps set_numSteps]. lia. }
        destruct (IH d2 calls2 ltac:(lia)) as (k & Hk & Hend).
        exists (S k). cbn [after_iterations]. rewrite Hconv. cbn [snd].
        rewrite Hnext. split; [left; lia|].
        destruct Hend as [Hend|[Hend|(Hf & _)]]; [auto|auto|discriminate Hf].
  - exists 0. cbn [after_iterations fst snd]. split; [right; reflexivity|].
    left. auto.
Qed.

End Loop.

(** ** What [decompose] has done when it returns *)

Lemma converged_computing_controls (eps : F) :
  keeps_controls (fun d => snd (converged_computing eps d)).
Proof. intros d. apply checkConvergence_controls. Qed.

Lemma converged_after_approx_controls (eps : F) :
  keeps_controls (fun d => snd (converged_after_approx eps d)).
Proof.
  intros d. unfold converged_after_approx.
  rewrite checkConvergence_controls. apply computeApprox_controls.
Qed.

Lemma loop_of_controls (cf : NMFCostFunction) (t : nat) (eps : F) conv body :
  loop_of cf t eps = Some (conv, body) ->
  keeps_controls (fun d => snd (conv d)) /\ keeps_controls body.
Proof.
  unfold loop_of. intros H.
  destruct cf; try destruct (t =? 1); inversion H; subst; split;
    first [ apply converged_computing_controls
          | apply converged_after_approx_controls
          | intros d; first
              [ apply factorizeNMFED_body_controls
              | apply factorizeNMDED_body_controls
              | apply factorizeNMDKL_body_controls
              | apply factorizeNMFEDSparse_body_controls
              | apply factorizeNMFKLSparse_body_controls
              | apply factorizeNMFKLTempCont_body_controls
              | apply factorizeNMFEDSparseNorm_body_controls ] ].
Qed.

(** Every driver is the loop of [loop_of], started with the counter at
    zero and an empty log. *)
Lemma select_driver_loop (fuel : nat) (d : @Deconvolver F) (cf : NMFCostFunction)
    (maxSteps : nat) (eps : F) (observer : bool) :
  match loop_of cf (_t d) eps with
  | Some (conv, body) =>
      select_driver default_epsilon fuel d cf maxSteps eps observer
      = run_loop fuel maxSteps conv body observer d
  | None =>
      forall d' calls,
        select_driver default_epsilon fuel d cf maxSteps eps observer
        <> Returned d' calls
  end.
Proof.
  unfold loop_of, select_driver, factorizeNMFED, factorizeNMDED, factorizeNMDKL,
    factorizeNMFEDSparse, factorizeNMFKLSparse, factorizeNMFKLTempCont,
    factorizeNMFEDSparseNorm.
  destruct cf; try reflexivity;
    try (destruct (Nat.eqb_spec (_t d) 1) as [Ht|Ht];
         [ try rewrite Ht; try reflexivity
         | destruct (1 <? _t d); intros; discriminate ]).
  - destruct (_t d =? 1); reflexivity.
  - intros; discriminate.
Qed.

(** The post-processing of [decompose] on the engine [d0] that the loop
    left. *)
Definition finished (d0 : @Deconvolver F) : @Deconvolver F :=
  set_oldApprox (if _normalizeMatrices d0 then normalizeMatrices d0 else d0) None.

Lemma finished_controls (d0 : @Deconvolver F) : controls (finished d0) = controls d0.
Proof.
  unfold finished. rewrite controls_set_oldApprox.
  destruct (_normalizeMatrices d0); [apply normalizeMatrices_controls|reflexivity].
Qed.

Lemma decompose_returned (d : @Deconvolver F) (cf : NMFCostFunction)
    (maxSteps : nat) (eps : F) (observer : bool) d' calls :
  decompose default_epsilon d cf maxSteps eps observer = Returned d' calls ->
  exists conv body k d0,
    loop_of cf (_t d) eps = Some (conv, body) /\
    k <= maxSteps /\
    (let last :=
       fst (after_iterations k conv body observer maxSteps (set_numSteps d 0) []) in
     d0 = last \/ d0 = snd (conv last)) /\
    d' = finished d0 /\
    _numSteps d' = k /\
    _notificationDelay d' = _notificationDelay d /\
    calls = stride_calls observer (_notificationDelay d) maxSteps 0 k
            ++ (if observer then [1%Q] else []).
Proof.
  unfold decompose, decompose_fuel. intros H.
  pose proof (select_driver_loop (S maxSteps) d cf maxSteps eps observer) as Hsel.
  destruct (loop_of cf (_t d) eps) as [[conv body]|] eqn:Hloop.
  2:{ destruct (select_driver _ _ _ _ _ _ _) eqn:E; try discriminate.
      exfalso. eapply Hsel. reflexivity. }
  rewrite Hsel in H. unfold run_loop in H.
  destruct (loop_of_controls _ _ _ _ _ Hloop) as [Hconv Hbody].
  destruct (while_loop_iterations conv body observer maxSteps Hconv Hbody
              (S maxSteps) (set_numSteps d 0) [])
    as (k & Hk & Hend).
  { cbn [_numSteps set_numSteps]. lia. }
  cbv zeta in Hk, Hend.
  pose proof (after_iterations_spec conv body observer maxSteps Hconv Hbody k
                (set_numSteps d 0) []) as Hspec.
  cbv zeta in Hspec. cbn [_numSteps _notificationDelay set_numSteps] in Hspec, Hk.
  destruct (after_iterations k conv body observer maxSteps (set_numSteps d 0) [])
    as [dk ck] eqn:Hafter.
  cbn [fst snd] in *. destruct Hspec as (Hn & Hdelay & Hcalls).
  rewrite app_nil_l in Hcalls. rewrite Nat.add_0_l in Hn.
  assert (Hkm : k <= maxSteps) by lia.
  assert (Hgoal : forall d0, (d0 = dk \/ d0 = snd (conv dk)) ->
            finish observer d0 ck = Returned d' calls ->
            exists conv0 body0 k0 d1,
              Some (conv, body) = Some (conv0, body0) /\ k0 <= maxSteps /\
              (let last :=
                 fst (after_iterations k0 conv0 body0 observer maxSteps
                        (set_numSteps d 0) []) in
               d1 = last \/ d1 = snd (conv0 last)) /\
              d' = finished d1 /\ _numSteps d' = k0 /\
              _notificationDelay d' = _notificationDelay d /\
              calls = stride_calls observer (_notificationDelay d) maxSteps 0 k0
                      ++ (if observer then [1%Q] else [])).
  { intros d0 Hd0 Hfin. exists conv, body, k, d0.
    unfold finish in Hfin. injection Hfin as Hd' Hc.
    assert (Hctl : controls d0 = controls dk).
    { destruct Hd0 as [->| ->]; [reflexivity|apply Hconv]. }
    split; [reflexivity|]. split; [exact Hkm|]. split.
    { cbv zeta. rewrite Hafter. exact Hd0. }
    split; [symmetry; exact Hd'|].
    assert (Hfc : controls d' = controls d0).
    { rewrite <- Hd'. apply finished_controls. }
    split; [rewrite (controls_numSteps _ _ Hfc), (controls_numSteps _ _ Hctl);
            exact Hn|].
    split; [rewrite (controls_notificationDelay _ _ Hfc),
                    (controls_notificationDelay _ _ Hctl); exact Hdelay|].
    rewrite <- Hc, Hcalls. destruct observer; [reflexivity|].
    unfold stride_calls. reflexivity. }
  destruct Hend as [(_ & Hw)|[(_ & _ & Hw)|(_ & _ & _ & Hw)]]; rewrite Hw in H.
  - apply (Hgoal dk); [left; reflexivity|exact H].
  - apply (Hgoal (snd (conv dk))); [right; reflexivity|exact H].
  - discriminate H.
Qed.

(** [decompose] always ends: the fuel it gives its loop is enough. *)
Lemma decompose_ends (d : @Deconvolver F) (cf : NMFCostFunction)
    (maxSteps : nat) (eps : F) (observer : bool) :
  decompose default_epsilon d cf maxSteps eps observer <> OutOfFuel.
Proof.
  unfold decompose, decompose_fuel.
  pose proof (select_driver_loop (S maxSteps) d cf maxSteps eps observer) as Hsel.
  destruct (loop_of cf (_t d) eps) as [[conv body]|] eqn:Hloop.
  - rewrite Hsel. unfold run_loop.
    destruct (loop_of_controls _ _ _ _ _ Hloop) as [Hconv Hbody].
    destruct (while_loop_iterations conv body observer maxSteps Hconv Hbody
                (S maxSteps) (set_numSteps d 0) [])
      as (k & _ & [(_ & ->)|[(_ & _ & ->)|(_ & _ & _ & ->)]]);
      try (cbn [_numSteps set_numSteps]; lia).
    + destruct (after_iterations _ _ _ _ _ _ _). discriminate.
    + discriminate.
    + discriminate.
  - clear Hsel. unfold loop_of in Hloop.
    unfold select_driver, factorizeNMFEDSparse, factorizeNMFKLSparse,
      factorizeNMFKLTempCont, factorizeNMFEDSparseNorm.
    destruct cf; try discriminate;
      try (destruct (_t d =? 1); [discriminate|];
           destruct (1 <? _t d); discriminate).
Qed.

(** Without an observer or with a positive stride, [decompose] returns
    whenever the selection finds a driver: for the Euclidean distance and
    the KL divergence with any depth, and for the four other cost
    functions with one spectrum (for [factorizeNMFED] and
    [factorizeNMFEDSparse]: in a process whose static scratch matrices fit
    the engine). *)
Lemma decompose_returns (d : @Deconvolver F) (cf : NMFCostFunction)
    (maxSteps : nat) (eps : F) (observer : bool) conv body :
  observer = false \/ 0 < _notificationDelay d ->
  loop_of cf (_t d) eps = Some (conv, body) ->
  exists d' calls,
    decompose default_epsilon d cf maxSteps eps observer = Returned d' calls.
Proof.
  intros Hstride Hloop. unfold decompose, decompose_fuel.
  pose proof (select_driver_loop (S maxSteps) d cf maxSteps eps observer) as Hsel.
  rewrite Hloop in Hsel. rewrite Hsel. unfold run_loop.
  destruct (loop_of_controls _ _ _ _ _ Hloop) as [Hconv Hbody].
  destruct (while_loop_iterations conv body observer maxSteps Hconv Hbody
              (S maxSteps) (set_numSteps d 0) [])
    as (k & _ & [(_ & ->)|[(_ & _ & ->)|(Hobs & Hzero & _)]]);
    try (cbn [_numSteps set_numSteps]; lia).
  - destruct (after_iterations _ _ _ _ _ _ _). unfold finish. eauto.
  - unfold finish. eauto.
  - cbn [_notificationDelay set_numSteps] in Hzero.
    destruct Hstride as [Hnone|Hpos]; [congruence|lia].
Qed.

(** With an observer and a zero stride, the first iteration that runs
    ends in [_numSteps % 0]. *)
Lemma decompose_zero_stride (d : @Deconvolver F) (cf : NMFCostFunction)
    (maxSteps : nat) (eps : F) conv body :
  loop_of cf (_t d) eps = Some (conv, body) ->
  _notificationDelay d = 0 -> 0 < maxSteps ->
  fst (conv (set_numSteps d 0)) = false ->
  decompose default_epsilon d cf maxSteps eps true = UndefinedBehaviour.
Proof.
  intros Hloop Hzero Hmax Hfirst. unfold decompose, decompose_fuel.
  pose proof (select_driver_loop (S maxSteps) d cf maxSteps eps true) as Hsel.
  rewrite Hloop in Hsel. rewrite Hsel. unfold run_loop. cbn [while_loop].
  cbn [_numSteps set_numSteps].
  replace (0 <? maxSteps) with true by (symmetry; apply Nat.ltb_lt; exact Hmax).
  destruct (conv (set_numSteps d 0)) as [stop d1] eqn:Hconv.
  cbn [fst] in Hfirst. subst stop.
  destruct (loop_of_controls _ _ _ _ _ Hloop) as [Hc Hb].
  rewrite nextItStep_counted.
  rewrite (controls_notificationDelay _ _ (Hb d1)).
  pose proof (Hc (set_numSteps d 0)) as Hc1. cbv beta in Hc1.
  rewrite Hconv in Hc1. cbn [snd] in Hc1.
  rewrite (controls_notificationDelay _ _ Hc1).
  cbn [_notificationDelay set_numSteps]. rewrite Hzero. reflexivity.
Qed.

(** ** Progress and the step counter *)

(** C8, as amended.  When [decompose] returns, the observer (if there is
    one) has been called with the binary32
    quotient [(float)step / (float)maxSteps] for exactly the step numbers
    [1 .. _numSteps] that the stride divides, in that order, and then once
    more with [1.0]; the values never decrease and the last one is [1.0].
    The value [1.0] is passed at least once, and at least twice when the
    loop has run all of [maxSteps > 0] iterations and the stride divides
    [maxSteps]: the last notification passes [maxSteps / maxSteps].  Up to
    [2^24] steps these are the only times: [1.0] is passed twice in that
    case and once otherwise.  (Beyond [2^24] steps an earlier quotient can
    round to [1.0] as well, see [early_one].)  Without an observer nothing
    is reported. *)
Theorem progress_calls (d : @Deconvolver F) (cf : NMFCostFunction)
    (maxSteps : nat) (eps : F) (observer : bool) d' calls :
  decompose default_epsilon d cf maxSteps eps observer = Returned d' calls ->
  calls = stride_calls observer (_notificationDelay d) maxSteps 0 (_numSteps d')
          ++ (if observer then [1%Q] else []) /\
  StronglySorted Qle calls /\
  (observer = true -> last calls 0%Q = 1%Q) /\
  (observer = true ->
     1 <= count_ones calls /\
     (0 < maxSteps -> _numSteps d' = maxSteps ->
      maxSteps mod _notificationDelay d = 0 -> 2 <= count_ones calls) /\
     ((Z.of_nat maxSteps <= 2 ^ 24)%Z ->
      count_ones calls
      = if (0 <? maxSteps) && (_numSteps d' =? maxSteps)
           && (maxSteps mod _notificationDelay d =? 0)
        then 2 else 1)) /\
  (observer = false -> calls = []).
Proof.
  intros Hret.
  destruct (decompose_returned _ _ _ _ _ _ _ Hret)
    as (conv & body & k & d0 & _ & Hk & _ & _ & Hn & _ & Hcalls).
  rewrite Hn. split; [exact Hcalls|]. rewrite Hcalls. clear Hcalls Hn Hret.
  destruct observer; unfold stride_calls.
  - set (steps := map _ _).
    assert (Hbound : Forall (fun q => (q <= 1)%Q) steps).
    { destruct (Nat.eq_dec maxSteps 0) as [Hz|Hnz].
      - assert (k = 0) by lia. subst k steps. constructor.
      - apply stride_steps_bounded; lia. }
    split; [|split; [|split]].
    + apply StronglySorted_snoc; [apply stride_steps_sorted|exact Hbound].
    + intros _. apply last_last.
    + intros _. rewrite count_ones_app. change (count_ones [1%Q]) with 1.
      split; [lia|]. split.
      * intros Hmax -> Hdiv.
        pose proof (stride_steps_full (_notificationDelay d) maxSteps 1 maxSteps
                      Hmax ltac:(lia) Hdiv) as Hfull.
        fold steps in Hfull. lia.
      * intros Hsmall.
        destruct (Nat.eq_dec maxSteps 0) as [Hz|Hnz].
        -- assert (k = 0) by lia. subst k steps maxSteps. reflexivity.
        -- subst steps. rewrite stride_steps_ones by lia.
           replace (0 <? maxSteps) with true by (symmetry; apply Nat.ltb_lt; lia).
           replace (1 <=? maxSteps) with true by (symmetry; apply Nat.leb_le; lia).
           cbn [andb].
           destruct (Nat.eqb_spec k maxSteps) as [->|Hne].
           ++ replace (maxSteps <? 1 + maxSteps) with true
                by (symmetry; apply Nat.ltb_lt; lia).
              cbn [andb]. destruct (maxSteps mod _notificationDelay d =? 0);
                reflexivity.
           ++ replace (maxSteps <? 1 + k) with false
                by (symmetry; apply Nat.ltb_ge; lia).
              reflexivity.
    + discriminate.
  - split; [constructor|]. split; [discriminate|]. split; [discriminate|].
    reflexivity.
Qed.

(** C9, as amended.  A call of [decompose] that returns has run the loop
    of its driver from a counter set to zero; after [k] completed
    iterations of that loop the counter is [k] (so inside the call it
    never decreases and grows by one per iteration); the engine returned is
    the one reached after [_numSteps] iterations (or what the convergence
    test made of it), post-processed; and [_numSteps <= maxSteps]. *)
Theorem step_counter_within_call (d : @Deconvolver F) (cf : NMFCostFunction)
    (maxSteps : nat) (eps : F) (observer : bool) d' calls :
  decompose default_epsilon d cf maxSteps eps observer = Returned d' calls ->
  _numSteps d' <= maxSteps /\
  exists conv body,
    loop_of cf (_t d) eps = Some (conv, body) /\
    (forall k,
       _numSteps (fst (after_iterations k conv body observer maxSteps
                         (set_numSteps d 0) [])) = k) /\
    (let last :=
       fst (after_iterations (_numSteps d') conv body observer maxSteps
              (set_numSteps d 0) []) in
     d' = finished last \/ d' = finished (snd (conv last))).
Proof.
  intros Hret.
  destruct (decompose_returned _ _ _ _ _ _ _ Hret)
    as (conv & body & k & d0 & Hloop & Hk & Hlast & Hd' & Hn & _ & _).
  rewrite Hn. split; [exact Hk|].
  exists conv, body. split; [exact Hloop|]. split.
  - intros j. destruct (loop_of_controls _ _ _ _ _ Hloop) as [Hconv Hbody].
    pose proof (after_iterations_spec conv body observer maxSteps Hconv Hbody j
                  (set_numSteps d 0) []) as Hspec.
    cbv zeta in Hspec. destruct Hspec as [Hspec _].
    rewrite Hspec. reflexivity.
  - cbv zeta in *. destruct Hlast as [<- | <-]; [left|right]; exact Hd'.
Qed.

(** ** Divisors and constant columns: what the guarded drivers keep *)

(** A divisor that went through [if (denom <= 0.0) denom = DIVISOR_FLOOR]
    is never [<= 0], for scalars whose [DIVISOR_FLOOR] is not. *)
Lemma floor_divisor_not_le_zero (x : F) :
  f_le DIVISOR_FLOOR f_zero = false ->
  f_le (floor_divisor x) f_zero = false.
Proof.
  intros Hfloor. unfold floor_divisor.
  destruct (f_le x f_zero) eqn:Hx; assumption.
Qed.

Lemma list_set_nth_same {A : Type} (l : list A) (k : nat) (dflt : A) :
  list_set l k (nth k l dflt) = l.
Proof.
  revert k. induction l as [|a l IH]; intros [|k]; cbn [list_set nth];
    try reflexivity.
  rewrite IH. reflexivity.
Qed.

(** A cell-wise loop over the columns selected by [sel] leaves every other
    column as it was, whatever it writes. *)
Lemma cell_loop_frame (nc nr : nat) (sel : nat -> bool)
    (g : nat -> nat -> @Matrix F -> F) (m : @Matrix F) (j : nat) :
  sel j = false ->
  forall i,
    at_ (for_ nc (fun j' a =>
           if sel j' then for_ nr (fun i' a => mset a i' j' (g i' j' a)) a else a) m)
        i j
    = at_ m i j.
Proof.
  intros Hsel i.
  apply (for_invariant (fun a => at_ a i j = at_ m i j)); [reflexivity|].
  intros j' a _ Ha. destruct (sel j') eqn:Hj'; [|exact Ha].
  apply (for_invariant (fun b => at_ b i j = at_ m i j)); [exact Ha|].
  intros i' b _ Hb. rewrite at_mset.
  destruct (Nat.eqb_spec j j') as [->|Hne]; [congruence|].
  rewrite andb_false_r. exact Hb.
Qed.

(** Column [j] of every [W^p] is the same in [a] as in [b]. *)
Definition column_kept (j : nat) (a b : @Deconvolver F) : Prop :=
  forall p i, at_ (W a p) i j = at_ (W b p) i j.

Lemma column_kept_refl (j : nat) (a : @Deconvolver F) : column_kept j a a.
Proof. intros p i. reflexivity. Qed.

Lemma column_kept_trans (j : nat) (a b c : @Deconvolver F) :
  column_kept j a b -> column_kept j b c -> column_kept j a c.
Proof. intros Hab Hbc p i. rewrite Hab. apply Hbc. Qed.

Lemma column_kept_same_w (j : nat) (a b : @Deconvolver F) :
  _w a = _w b -> column_kept j a b.
Proof. intros H p i. unfold W. rewrite H. reflexivity. Qed.

(** Replacing [W^p] by a matrix with the same column [j] keeps column [j]. *)
Lemma column_kept_set_w (j p : nat) (a x : @Deconvolver F) (w' : @Matrix F) :
  _w a = list_set (_w x) p w' ->
  (forall i, at_ w' i j = at_ (W x p) i j) ->
  column_kept j a x.
Proof.
  intros Ha Hw' q i. unfold W at 1. rewrite Ha, nth_list_set.
  destruct (Nat.eqb_spec q p) as [->|Hne]; cbn [andb]; [|reflexivity].
  destruct (p <? List.length (_w x)); [apply Hw'|reflexivity].
Qed.

Lemma computeApprox_w (d : @Deconvolver F) :
  _w (computeApprox d) = _w d /\ _h (computeApprox d) = _h d.
Proof.
  unfold computeApprox. destruct (_t d =? 1); [split; reflexivity|].
  destruct (for_ _ _ _) as [approx wpH]. split; reflexivity.
Qed.

Lemma checkConvergence_w (d : @Deconvolver F) (eps : F) (b : bool) :
  _w (snd (checkConvergence d eps b)) = _w d /\
  _h (snd (checkConvergence d eps b)) = _h d.
Proof.
  unfold checkConvergence. destruct (f_le eps f_zero); [split; reflexivity|].
  destruct (_oldApprox d), b; cbn [snd _w _h set_oldApprox];
    try apply computeApprox_w; split; reflexivity.
Qed.

(** The update of one [W^p] in the drivers: the columns marked constant
    are skipped. *)
Lemma W_update_column (d : @Deconvolver F) (j nc nr : nat)
    (g : nat -> nat -> @Matrix F -> F) (w : @Matrix F) :
  wColConstant d j = true ->
  forall i,
    at_ (for_ nc (fun j' a =>
           if negb (wColConstant d j')
           then for_ nr (fun i' a => mset a i' j' (g i' j' a)) a else a) w)
        i j
    = at_ w i j.
Proof.
  intros Hj i.
  apply (cell_loop_frame nc nr (fun j' => negb (wColConstant d j')) g w j).
  rewrite Hj. reflexivity.
Qed.

Lemma wColConstant_controls (a b : @Deconvolver F) (j : nat) :
  controls a = controls b -> wColConstant a j = wColConstant b j.
Proof.
  intros H. unfold wColConstant.
  destruct (controls_wConstant _ _ H) as [_ ->]. reflexivity.
Qed.

(** What a loop body may do to [W]: nothing when [_wConstant] is set, and
    nothing to a column marked constant. *)
Definition W_frame (d d' : @Deconvolver F) : Prop :=
  (_wConstant d = true -> _w d' = _w d) /\
  (forall j, wColConstant d j = true -> column_kept j d' d).

Lemma factorizeNMFEDWUpdate_frame (d : @Deconvolver F) :
  (_wConstant d = true -> factorizeNMFEDWUpdate d (W d 0) = W d 0) /\
  (forall j, wColConstant d j = true ->
     forall i, at_ (factorizeNMFEDWUpdate d (W d 0)) i j = at_ (W d 0) i j).
Proof.
  unfold factorizeNMFEDWUpdate. split.
  - intros ->. reflexivity.
  - intros j Hj i. destruct (negb (_wConstant d)); [|reflexivity].
    cbv zeta. apply W_update_column. exact Hj.
Qed.

Lemma set_w_first_frame (d : @Deconvolver F) (w' : @Matrix F) :
  (_wConstant d = true -> w' = W d 0) ->
  (forall j, wColConstant d j = true -> forall i, at_ w' i j = at_ (W d 0) i j) ->
  W_frame d (set_w d (list_set (_w d) 0 w')).
Proof.
  intros Hall Hcol. split.
  - intros Hc. cbn [_w set_w]. rewrite (Hall Hc). apply list_set_nth_same.
  - intros j Hj. apply (column_kept_set_w j 0 _ d w'); [reflexivity|].
    apply Hcol, Hj.
Qed.

Lemma W_frame_same_w (d d1 d2 : @Deconvolver F) :
  W_frame d d1 -> _w d2 = _w d1 -> W_frame d d2.
Proof.
  intros [Hall Hcol] Hw. split.
  - intros Hc. rewrite Hw. apply Hall, Hc.
  - intros j Hj. eapply column_kept_trans; [apply column_kept_same_w, Hw|].
    apply Hcol, Hj.
Qed.

Lemma W_frame_refl (d : @Deconvolver F) : W_frame d d.
Proof. split; [reflexivity|]. intros. apply column_kept_refl. Qed.

Lemma factorizeNMFED_body_frame (d : @Deconvolver F) :
  W_frame d (factorizeNMFED_body d).
Proof.
  unfold factorizeNMFED_body, calculateNMFEDHUpdate. cbv zeta.
  eapply W_frame_same_w; [|reflexivity].
  apply set_w_first_frame; apply factorizeNMFEDWUpdate_frame.
Qed.

Lemma factorizeNMFEDSparse_body_frame (d : @Deconvolver F) :
  W_frame d (factorizeNMFEDSparse_body d).
Proof.
  unfold factorizeNMFEDSparse_body, calculateNMFEDHUpdate. cbv zeta.
  eapply W_frame_same_w; [|reflexivity].
  apply set_w_first_frame; apply factorizeNMFEDWUpdate_frame.
Qed.

Lemma factorizeNMFKLSparse_body_frame (d : @Deconvolver F) :
  W_frame d (factorizeNMFKLSparse_body d).
Proof.
  unfold factorizeNMFKLSparse_body. cbv zeta.
  destruct (negb (_wConstant d)) eqn:Hc; cbv iota beta.
  - eapply W_frame_same_w; [|cbn [_w set_h]; apply computeApprox_w].
    apply set_w_first_frame.
    + intros Htrue. rewrite Htrue in Hc. discriminate.
    + intros j Hj i. apply W_update_column. exact Hj.
  - eapply W_frame_same_w; [apply W_frame_refl|reflexivity].
Qed.

Lemma factorizeNMFKLTempCont_body_frame (d : @Deconvolver F) :
  W_frame d (factorizeNMFKLTempCont_body d).
Proof.
  unfold factorizeNMFKLTempCont_body. cbv zeta.
  destruct (negb (_wConstant d)) eqn:Hc; cbv iota beta.
  - eapply W_frame_same_w; [|cbn [_w set_h]; apply computeApprox_w].
    apply set_w_first_frame.
    + intros Htrue. rewrite Htrue in Hc. discriminate.
    + intros j Hj i. apply W_update_column. exact Hj.
  - eapply W_frame_same_w; [apply W_frame_refl|reflexivity].
Qed.

(** The [W] phase of a convolutive driver: constant columns survive every
    turn of the loop over [p]. *)
Lemma factorizeNMDED_body_frame (d : @Deconvolver F) :
  W_frame d (factorizeNMDED_body default_epsilon d).
Proof.
  unfold factorizeNMDED_body. cbv zeta.
  destruct (for_ (_t _) _ (_, _, _)) as [[hSum ?] ?].
  destruct (negb (_wConstant d)) eqn:Hc.
  2:{ eapply W_frame_same_w; [apply W_frame_refl|reflexivity]. }
  match goal with |- W_frame d (set_h ?L _) =>
    assert (HL : forall j, wColConstant d j = true ->
                   controls L = controls d /\ column_kept j L d)
  end.
  { intros j Hj.
    apply (for_invariant
             (fun x => controls x = controls d /\ column_kept j x d)).
    - split; [reflexivity|apply column_kept_refl].
    - intros p x _ [Hctl Hkept]. split; [exact Hctl|].
      eapply column_kept_trans; [|exact Hkept].
      eapply (column_kept_set_w j p); [reflexivity|].
      intros i. apply W_update_column.
      rewrite <- Hj. apply wColConstant_controls. exact Hctl. }
  split.
  - intros Htrue. rewrite Htrue in Hc. discriminate.
  - intros j Hj. match goal with |- column_kept j (set_h ?L _) d =>
      apply column_kept_trans with (b := L) end.
    + apply column_kept_same_w. reflexivity.
    + apply HL, Hj.
Qed.

Lemma factorizeNMDKL_body_frame (d : @Deconvolver F) :
  W_frame d (factorizeNMDKL_body default_epsilon d).
Proof.
  unfold factorizeNMDKL_body. cbv zeta.
  destruct (for_ (_t _) _ (Matrix_zero _, _)) as [hUpdate ?].
  destruct (negb (_wConstant d)) eqn:Hc.
  2:{ eapply W_frame_same_w; [apply W_frame_refl|].
      cbn [_w set_h]. destruct (_t d =? 1); [apply computeApprox_w|reflexivity]. }
  match goal with |- W_frame d (set_h (if _ then computeApprox ?L else _) _) =>
    assert (HL : forall j, wColConstant d j = true ->
                   controls L = controls d /\ column_kept j L d)
  end.
  { intros j Hj.
    apply (for_invariant
             (fun st => controls (fst st) = controls d
                        /\ column_kept j (fst st) d)).
    - split; [reflexivity|apply column_kept_refl].
    - intros p [x hShifted] _ [Hctl Hkept]. cbn [fst] in Hctl, Hkept.
      repeat match goal with
             | |- context [if 1 <? ?n then _ else _] => destruct (1 <? n)
             end;
        cbn [fst]; (split; [exact Hctl|]);
        (eapply column_kept_trans; [|exact Hkept]);
        (eapply (column_kept_set_w j p); [reflexivity|]);
        intros i; apply W_update_column;
        rewrite <- Hj; apply wColConstant_controls; exact Hctl. }
  split.
  - intros Htrue. rewrite Htrue in Hc. discriminate.
  - intros j Hj.
    match goal with |- column_kept j (set_h (if _ then computeApprox ?L else _) _) d =>
      apply column_kept_trans with (b := L) end.
    + apply column_kept_same_w. cbn [_w set_h].
      match goal with |- _w (if ?b then _ else _) = _ => destruct b end;
        [apply computeApprox_w|reflexivity].
    + apply HL, Hj.
Qed.

(** The convergence tests do not write [W]. *)
Lemma converged_computing_w (eps : F) (d : @Deconvolver F) :
  _w (snd (converged_computing eps d)) = _w d.
Proof. apply checkConvergence_w. Qed.

Lemma converged_after_approx_w (eps : F) (d : @Deconvolver F) :
  _w (snd (converged_after_approx eps d)) = _w d.
Proof.
  unfold converged_after_approx.
  destruct (checkConvergence_w (computeApprox d) eps false) as [-> _].
  apply computeApprox_w.
Qed.

(** One iteration of the loop of every driver but
    [factorizeNMFEDSparseNorm] (the convergence test, then the body): with
    [_wConstant] set, the list of the [W^p] is what it was; and column [j]
    of every [W^p] is what it was when [_wColConstant[j]] is set. *)
Theorem W_update_frame (cf : NMFCostFunction) (t : nat) (eps : F)
    (conv : @Deconvolver F -> bool * @Deconvolver F)
    (body : @Deconvolver F -> @Deconvolver F) (d : @Deconvolver F) :
  cf <> EuclideanDistanceSparseNormalized ->
  loop_of cf t eps = Some (conv, body) ->
  W_frame d (body (snd (conv d))).
Proof.
  intros Hcf Hloop.
  assert (Hconv : _w (snd (conv d)) = _w d /\ controls (snd (conv d)) = controls d).
  { destruct (loop_of_controls _ _ _ _ _ Hloop) as [Hc _]. split; [|apply Hc].
    unfold loop_of in Hloop.
    destruct cf; try destruct (t =? 1); inversion Hloop; subst;
      first [apply converged_computing_w | apply converged_after_approx_w]. }
  destruct Hconv as [Hw Hctl].
  assert (Hbody : W_frame (snd (conv d)) (body (snd (conv d)))).
  { unfold loop_of in Hloop.
    destruct cf; try congruence; try destruct (t =? 1); inversion Hloop; subst;
      first [ apply factorizeNMFED_body_frame
            | apply factorizeNMDED_body_frame
            | apply factorizeNMDKL_body_frame
            | apply factorizeNMFEDSparse_body_frame
            | apply factorizeNMFKLSparse_body_frame
            | apply factorizeNMFKLTempCont_body_frame ]. }
  destruct Hbody as [Hall Hcol].
  destruct (controls_wConstant _ _ Hctl) as [HwC _].
  split.
  - intros Hc. rewrite Hall by (rewrite HwC; exact Hc). exact Hw.
  - intros j Hj. eapply column_kept_trans.
    + apply Hcol. rewrite (wColConstant_controls _ _ j Hctl). exact Hj.
    + apply column_kept_same_w. exact Hw.
Qed.

(** ** More cell-wise loops *)

(** A loop body that behaves on the cells as the write
    [m(i, j) = f(i, j, m(i, j))]. *)
Definition writes_cell (step : @Matrix F -> @Matrix F) (i j : nat)
    (f : F -> F) : Prop :=
  forall a, same_shape (step a) a /\
    forall i' j', at_ (step a) i' j'
      = if (i' =? i) && (j' =? j) then f (at_ a i j) else at_ a i' j'.

Lemma mset_writes_cell (i j : nat) (f : F -> F) :
  writes_cell (fun a => mset a i j (f (at_ a i j))) i j f.
Proof. intros a. split; [split; reflexivity|]. intros. apply at_mset. Qed.

(** The loops over the rows inside the loop over the columns, for any
    body that writes its cell. *)
Lemma cell_loop_ext (nc nr : nat) (f : nat -> nat -> F -> F)
    (step : nat -> nat -> @Matrix F -> @Matrix F) (m : @Matrix F) :
  (forall i j, writes_cell (step i j) i j (f i j)) ->
  let m' := for_ nc (fun j a => for_ nr (fun i a => step i j a) a) m in
  same_shape m' m /\
  forall i j, at_ m' i j
    = if (i <? nr) && (j <? nc) then f i j (at_ m i j) else at_ m i j.
Proof.
  intros Hstep. cbv zeta.
  assert (Hcol : forall j n a,
            same_shape (for_ n (fun i a => step i j a) a) a /\
            forall i' j', at_ (for_ n (fun i a => step i j a) a) i' j'
              = if (i' <? n) && (j' =? j) then f i' j (at_ a i' j')
                else at_ a i' j').
  { intros j n a. induction n as [|n IH].
    - rewrite for_0. split; [apply same_shape_refl|]. reflexivity.
    - rewrite for_S. destruct IH as [Hs IH].
      destruct (Hstep n j (for_ n (fun i a => step i j a) a)) as [Hs' Hc'].
      split; [eapply same_shape_trans; eassumption|].
      intros i' j'. rewrite Hc', !IH.
      destruct (Nat.eqb_spec i' n) as [->|Hne], (Nat.eqb_spec j' j) as [->|Hj];
        cbn [andb]; rewrite ?Nat.eqb_refl, ?Nat.ltb_irrefl, ?andb_false_r;
        cbn [andb];
        try (replace (n <? S n) with true by (symmetry; apply Nat.ltb_lt; lia));
        try reflexivity.
      destruct (Nat.ltb_spec i' n), (Nat.ltb_spec i' (S n)); try lia; reflexivity. }
  induction nc as [|nc IH].
  - rewrite for_0. split; [apply same_shape_refl|].
    intros. rewrite andb_false_r. reflexivity.
  - rewrite for_S. destruct IH as [Hs IH].
    set (m1 := for_ nc _ m) in *.
    destruct (Hcol nc nr m1) as [Hs1 Hc1].
    split; [eapply same_shape_trans; eassumption|].
    intros i j. rewrite Hc1, !IH.
    destruct (Nat.eqb_spec j nc) as [->|Hne].
    + rewrite Nat.ltb_irrefl, andb_false_r, andb_true_r.
      replace (nc <? S nc) with true by (symmetry; apply Nat.ltb_lt; lia).
      rewrite andb_true_r. reflexivity.
    + rewrite andb_false_r.
      destruct (Nat.ltb_spec j nc), (Nat.ltb_spec j (S nc)); try lia; reflexivity.
Qed.

(** The loops over the columns inside the loop over the rows. *)
Lemma row_loop_ext (nr nc : nat) (f : nat -> nat -> F -> F)
    (step : nat -> nat -> @Matrix F -> @Matrix F) (m : @Matrix F) :
  (forall i j, writes_cell (step i j) i j (f i j)) ->
  let m' := for_ nr (fun i a => for_ nc (fun j a => step i j a) a) m in
  same_shape m' m /\
  forall i j, at_ m' i j
    = if (i <? nr) && (j <? nc) then f i j (at_ m i j) else at_ m i j.
Proof.
  intros Hstep. cbv zeta.
  assert (Hrow : forall i n a,
            same_shape (for_ n (fun j a => step i j a) a) a /\
            forall i' j', at_ (for_ n (fun j a => step i j a) a) i' j'
              = if (i' =? i) && (j' <? n) then f i j' (at_ a i' j')
                else at_ a i' j').
  { intros i n a. induction n as [|n IH].
    - rewrite for_0. split; [apply same_shape_refl|].
      intros. rewrite andb_false_r. reflexivity.
    - rewrite for_S. destruct IH as [Hs IH].
      destruct (Hstep i n (for_ n (fun j a => step i j a) a)) as [Hs' Hc'].
      split; [eapply same_shape_trans; eassumption|].
      intros i' j'. rewrite Hc', !IH.
      destruct (Nat.eqb_spec i' i) as [->|Hne], (Nat.eqb_spec j' n) as [->|Hj];
        cbn [andb]; rewrite ?Nat.eqb_refl, ?Nat.ltb_irrefl;
        cbn [andb];
        try (replace (n <? S n) with true by (symmetry; apply Nat.ltb_lt; lia));
        try reflexivity.
      destruct (Nat.ltb_spec j' n), (Nat.ltb_spec j' (S n)); try lia; reflexivity. }
  induction nr as [|nr IH].
  - rewrite for_0. split; [apply same_shape_refl|]. reflexivity.
  - rewrite for_S. destruct IH as [Hs IH].
    set (m1 := for_ nr _ m) in *.
    destruct (Hrow nr nc m1) as [Hs1 Hc1].
    split; [eapply same_shape_trans; eassumption|].
    intros i j. rewrite Hc1, !IH.
    destruct (Nat.eqb_spec i nr) as [->|Hne].
    + rewrite Nat.ltb_irrefl. cbn [andb].
      replace (nr <? S nr) with true by (symmetry; apply Nat.ltb_lt; lia).
      reflexivity.
    + cbn [andb].
      destruct (Nat.ltb_spec i nr), (Nat.ltb_spec i (S nr)); try lia; reflexivity.
Qed.

(** ** The non-negativity clamp *)

(** [ensureNonnegativity(m, epsilon)] with an [epsilon] that is not
    [<= 0]: the shape is kept, no cell of the matrix is [<= 0] afterwards,
    a cell that was [<= 0] holds [epsilon], and every other cell is what
    it was. *)
Theorem ensureNonnegativity_clamps (m : @Matrix F) (epsilon : F) :
  f_le epsilon f_zero = false ->
  same_shape (ensureNonnegativity m epsilon) m /\
  (forall i j, i < rows m -> j < cols m ->
     f_le (at_ (ensureNonnegativity m epsilon) i j) f_zero = false) /\
  (forall i j, i < rows m -> j < cols m -> f_le (at_ m i j) f_zero = true ->
     at_ (ensureNonnegativity m epsilon) i j = epsilon) /\
  (forall i j, f_le (at_ m i j) f_zero = false ->
     at_ (ensureNonnegativity m epsilon) i j = at_ m i j).
Proof.
  intros Heps. unfold ensureNonnegativity.
  destruct (cell_loop_ext (cols m) (rows m)
              (fun _ _ x => if f_le x f_zero then epsilon else x)
              (fun i j a => if f_le (at_ a i j) f_zero then mset a i j epsilon else a)
              m) as [Hshape Hcells].
  { intros i j a. destruct (f_le (at_ a i j) f_zero) eqn:Hle.
    - split; [split; reflexivity|]. intros. apply at_mset.
    - split; [apply same_shape_refl|]. intros i' j'.
      destruct (Nat.eqb_spec i' i) as [->|], (Nat.eqb_spec j' j) as [->|];
        reflexivity. }
  cbv beta in Hshape, Hcells.
  split; [exact Hshape|]. split; [|split].
  - intros i j Hi Hj. rewrite Hcells.
    replace (i <? rows m) with true by (symmetry; apply Nat.ltb_lt; lia).
    replace (j <? cols m) with true by (symmetry; apply Nat.ltb_lt; lia).
    cbn [andb]. destruct (f_le (at_ m i j) f_zero) eqn:Hle; assumption.
  - intros i j Hi Hj Hle. rewrite Hcells, Hle.
    replace (i <? rows m) with true by (symmetry; apply Nat.ltb_lt; lia).
    replace (j <? cols m) with true by (symmetry; apply Nat.ltb_lt; lia).
    reflexivity.
  - intros i j Hle. rewrite Hcells, Hle.
    destruct ((i <? rows m) && (j <? cols m)); reflexivity.
Qed.

(** ** Filling the factors *)

(** [generateH(generator)] writes [generator(i, j)] into every cell of
    [H], keeps the shape of [H] and touches no other member. *)
Theorem generateH_fills (d : @Deconvolver F) (generator : nat -> nat -> F) :
  generateH d generator = set_h d (_h (generateH d generator)) /\
  same_shape (_h (generateH d generator)) (_h d) /\
  forall i j, i < rows (_h d) -> j < cols (_h d) ->
    at_ (_h (generateH d generator)) i j = generator i j.
Proof.
  unfold generateH. cbn [_h set_h].
  destruct (row_loop_ext (rows (_h d)) (cols (_h d))
              (fun i j _ => generator i j)
              (fun i j a => mset a i j (generator i j)) (_h d))
    as [Hshape Hcells].
  { intros i j. apply (mset_writes_cell i j (fun _ => generator i j)). }
  cbv beta in Hshape, Hcells.
  split; [reflexivity|]. split; [exact Hshape|].
  intros i j Hi Hj. rewrite Hcells.
  replace (i <? rows (_h d)) with true by (symmetry; apply Nat.ltb_lt; lia).
  replace (j <? cols (_h d)) with true by (symmetry; apply Nat.ltb_lt; lia).
  reflexivity.
Qed.

(** [generateW(generator)] on an engine whose array [_w] holds [_t]
    matrices: every [W^p] keeps its shape and holds [generator(i, j)] in
    every cell. *)
Lemma generateW_fills (d : @Deconvolver F) (generator : nat -> nat -> F) :
  List.length (_w d) = _t d ->
  forall p, p < _t d ->
    same_shape (W (generateW d generator) p) (W d p) /\
    forall i j, i < rows (W d p) -> j < cols (W d p) ->
      at_ (W (generateW d generator) p) i j = generator i j.
Proof.
  intros Hlen. unfold generateW.
  set (step := fun (l : nat) (x : @Deconvolver F) =>
         set_w x (list_set (_w x) l
           (for_ (rows (W x l)) (fun i wl =>
              for_ (cols (W x l)) (fun j wl => mset wl i j (generator i j)) wl)
              (W x l)))).
  change (forall p, p < _t d ->
            same_shape (W (for_ (_t d) step d) p) (W d p) /\
            forall i j, i < rows (W d p) -> j < cols (W d p) ->
              at_ (W (for_ (_t d) step d) p) i j = generator i j).
  assert (Hloop : forall k, k <= _t d ->
            List.length (_w (for_ k step d)) = _t d /\
            forall p,
              same_shape (W (for_ k step d) p) (W d p) /\
              (p < k -> forall i j, i < rows (W d p) -> j < cols (W d p) ->
                 at_ (W (for_ k step d) p) i j = generator i j)).
  { induction k as [|k IH]; intros Hk.
    - rewrite for_0. split; [exact Hlen|]. intros p.
      split; [apply same_shape_refl|]. lia.
    - rewrite for_S. destruct (IH ltac:(lia)) as [Hl Hp].
      set (x := for_ k step d) in *.
      destruct (row_loop_ext (rows (W x k)) (cols (W x k))
                  (fun i j _ => generator i j)
                  (fun i j a => mset a i j (generator i j)) (W x k))
        as [Hshape Hcells].
      { intros i j. apply (mset_writes_cell i j (fun _ => generator i j)). }
      cbv beta in Hshape, Hcells.
      set (wk := for_ (rows (W x k)) _ (W x k)) in *.
      assert (Hstep : _w (step k x) = list_set (_w x) k wk) by reflexivity.
      split.
      + rewrite Hstep, list_set_length. exact Hl.
      + intros p.
        assert (HW : W (step k x) p
                     = if (p =? k) && (k <? List.length (_w x)) then wk else W x p).
        { unfold W. rewrite Hstep. apply nth_list_set. }
        rewrite !HW. clear HW.
        destruct (Nat.eqb_spec p k) as [->|Hne]; cbn [andb].
        * replace (k <? List.length (_w x)) with true
            by (symmetry; apply Nat.ltb_lt; lia).
          destruct (Hp k) as [[Hr Hc] _]. split.
          -- eapply same_shape_trans; [exact Hshape|]. split; assumption.
          -- intros _ i j Hi Hj. rewrite Hcells.
             replace (i <? rows (W x k)) with true
               by (symmetry; apply Nat.ltb_lt; lia).
             replace (j <? cols (W x k)) with true
               by (symmetry; apply Nat.ltb_lt; lia).
             reflexivity.
        * destruct (Hp p) as [Hs Hc]. split; [exact Hs|].
          intros Hlt. apply Hc. lia. }
  intros p Hp. destruct (Hloop (_t d) (Nat.le_refl _)) as [_ Hall].
  destruct (Hall p) as [Hs Hc]. split; [exact Hs|]. apply Hc, Hp.
Qed.

(** The constructor fills the factors from the generators: every cell of
    every [W^p] is [wGenerator(i, j)], every cell of [H] is
    [hGenerator(i, j)]; the step counter starts at zero, there is no
    previous reconstruction, and the norm of [V] is cached. *)
Theorem construct_fills (v : @Matrix F) (r t : nat)
    (wGenerator hGenerator : nat -> nat -> F) (d : @Deconvolver F) :
  construct v r t wGenerator hGenerator = inr d ->
  (forall p i j, p < t -> i < rows v -> j < r ->
     at_ (W d p) i j = wGenerator i j) /\
  (forall i j, at_ (_h d) i j = hGenerator i j) /\
  _numSteps d = 0 /\ _oldApprox d = None /\
  _normalizeMatrices d = false /\ _vFrob d = frobeniusNorm v.
Proof.
  unfold construct. destruct (cols v <? t); [discriminate|].
  intros [= <-].
  match goal with |- context [generateW ?x _] => set (d0 := x) end.
  pose proof (generateW_members d0 wGenerator) as Hframe.
  unfold members_but_w in Hframe.
  injection Hframe as _ _ Hold _ _ Hnorm _ Hh _ _ Hsteps _ _ Hfrob _.
  rewrite Hh, Hsteps, Hold, Hnorm, Hfrob. subst d0. cbn [_h _numSteps _oldApprox
    _normalizeMatrices _vFrob Matrix_gen at_].
  split; [|repeat split; reflexivity].
  intros p i j Hp Hi Hj.
  match goal with |- context [generateW ?x _] => set (d0 := x) end.
  assert (Hlen : List.length (_w d0) = _t d0) by (subst d0; apply repeat_length).
  destruct (generateW_fills d0 wGenerator Hlen p ltac:(subst d0; exact Hp))
    as [_ Hcells].
  assert (HW : W d0 p = Matrix_new (rows v) r).
  { subst d0. unfold W. cbn [_w]. apply nth_repeat_lt. exact Hp. }
  apply Hcells; rewrite HW; assumption.
Qed.

(** ** What a whole call of [decompose] keeps *)

(** The members that [decompose] never writes: the input, the flags, the
    depth, the weights, the errors, the cached norm and the stride. *)
Definition settings (d : @Deconvolver F) :=
  (_v d, _wConstant d, _wColConstant d, _normalizeMatrices d, _t d,
   _s d, _c d, _absoluteError d, _relativeError d, _vFrob d,
   _notificationDelay d).

Lemma controls_settings (a b : @Deconvolver F) :
  controls a = controls b -> settings a = settings b.
Proof. unfold controls, settings. intros H. injection H as -> -> -> -> -> -> -> _ -> -> -> ->. reflexivity. Qed.

Lemma settings_wConstant (a b : @Deconvolver F) (j : nat) :
  settings a = settings b ->
  _wConstant a = _wConstant b /\ wColConstant a j = wColConstant b j /\
  _normalizeMatrices a = _normalizeMatrices b.
Proof.
  unfold settings, wColConstant. intros H.
  injection H as _ -> -> -> _ _ _ _ _ _ _. repeat split.
Qed.

Lemma W_frame_trans (d x y : @Deconvolver F) :
  settings x = settings d -> W_frame d x -> W_frame x y -> W_frame d y.
Proof.
  intros Hset [Hall Hcol] [Hall' Hcol']. split.
  - intros Hc. destruct (settings_wConstant x d 0 Hset) as (HwC & _).
    rewrite Hall' by (rewrite HwC; exact Hc). apply Hall, Hc.
  - intros j Hj. destruct (settings_wConstant x d j Hset) as (_ & HwCC & _).
    eapply column_kept_trans; [apply Hcol'; rewrite HwCC; exact Hj|].
    apply Hcol, Hj.
Qed.

Section Iterations.

Variable conv : @Deconvolver F -> bool * @Deconvolver F.
Variable body : @Deconvolver F -> @Deconvolver F.
Variables (observer : bool) (maxSteps : nat).
Hypothesis conv_controls : keeps_controls (fun d => snd (conv d)).
Hypothesis body_controls : keeps_controls body.

Lemma after_iterations_settings (k : nat) :
  forall (d : @Deconvolver F) (calls : Trace),
    settings (fst (after_iterations k conv body observer maxSteps d calls))
    = settings d.
Proof.
  induction k as [|k IH]; intros d calls; cbn [after_iterations]; [reflexivity|].
  rewrite nextItStep_spec, IH.
  transitivity (settings (body (snd (conv d)))); [reflexivity|].
  apply controls_settings. rewrite body_controls. apply conv_controls.
Qed.

(** A property of [W] that no iteration breaks holds after any number of
    iterations. *)
Lemma after_iterations_W_frame (k : nat) :
  (forall x, W_frame x (body (snd (conv x)))) ->
  forall (d : @Deconvolver F) (calls : Trace),
    W_frame d (fst (after_iterations k conv body observer maxSteps d calls)).
Proof.
  intros Hstep. induction k as [|k IH]; intros d calls; cbn [after_iterations].
  - apply W_frame_refl.
  - rewrite nextItStep_spec.
    set (d1 := set_numSteps (body (snd (conv d))) _).
    assert (Hset : settings d1 = settings d).
    { transitivity (settings (body (snd (conv d)))); [reflexivity|].
      apply controls_settings. rewrite body_controls. apply conv_controls. }
    apply (W_frame_trans d d1); [exact Hset| |apply IH].
    eapply W_frame_same_w; [apply Hstep|reflexivity].
Qed.

End Iterations.

Lemma loop_of_conv_w (cf : NMFCostFunction) (t : nat) (eps : F) conv body :
  loop_of cf t eps = Some (conv, body) ->
  forall x : @Deconvolver F, _w (snd (conv x)) = _w x /\ _h (snd (conv x)) = _h x.
Proof.
  unfold loop_of. intros H x.
  assert (Hc : conv = converged_computing eps \/ conv = converged_after_approx eps).
  { destruct cf; try destruct (t =? 1); inversion H; auto. }
  destruct Hc as [-> | ->].
  - apply checkConvergence_w.
  - unfold converged_after_approx.
    destruct (checkConvergence_w (computeApprox x) eps false) as [-> ->].
    apply computeApprox_w.
Qed.

(** How the loop of a call that returned has ended: after [k = _numSteps]
    iterations, either with all [maxSteps] iterations done, or earlier
    because the convergence test answered [true]. *)
Lemma decompose_exit (d : @Deconvolver F) (cf : NMFCostFunction)
    (maxSteps : nat) (eps : F) (observer : bool) d' calls :
  decompose default_epsilon d cf maxSteps eps observer = Returned d' calls ->
  exists conv body,
    loop_of cf (_t d) eps = Some (conv, body) /\
    let last :=
      fst (after_iterations (_numSteps d') conv body observer maxSteps
             (set_numSteps d 0) []) in
    (_numSteps d' = maxSteps /\ d' = finished last)
    \/ (_numSteps d' < maxSteps /\ fst (conv last) = true
        /\ d' = finished (snd (conv last))).
Proof.
  unfold decompose, decompose_fuel. intros H.
  pose proof (select_driver_loop (S maxSteps) d cf maxSteps eps observer) as Hsel.
  destruct (loop_of cf (_t d) eps) as [[conv body]|] eqn:Hloop.
  2:{ destruct (select_driver _ _ _ _ _ _ _) eqn:E; try discriminate.
      exfalso. eapply Hsel. reflexivity. }
  rewrite Hsel in H. unfold run_loop in H.
  destruct (loop_of_controls _ _ _ _ _ Hloop) as [Hconv Hbody].
  destruct (while_loop_iterations conv body observer maxSteps Hconv Hbody
              (S maxSteps) (set_numSteps d 0) [])
    as (k & Hk & Hend).
  { cbn [_numSteps set_numSteps]. lia. }
  cbv zeta in Hk, Hend.
  pose proof (after_iterations_spec conv body observer maxSteps Hconv Hbody k
                (set_numSteps d 0) []) as Hspec.
  cbv zeta in Hspec. cbn [_numSteps _notificationDelay set_numSteps] in Hspec, Hk.
  destruct Hspec as (Hn & _ & _). rewrite Nat.add_0_l in Hn.
  exists conv, body. split; [reflexivity|]. cbv zeta.
  destruct Hend as [(Hmax & Hw)|[(Hlt & Htrue & Hw)|(_ & _ & _ & Hw)]];
    rewrite Hw in H; [| |discriminate H].
  - destruct (after_iterations k conv body observer maxSteps (set_numSteps d 0) [])
      as [dk ck] eqn:Hafter.
    cbn [fst snd] in *. unfold finish in H. injection H as Hd' _.
    assert (Hsteps : _numSteps d' = k).
    { rewrite <- Hd'. fold (finished dk).
      rewrite (controls_numSteps _ _ (finished_controls dk)). exact Hn. }
    rewrite Hsteps, Hafter. cbn [fst]. left. split; [lia|].
    symmetry. exact Hd'.
  - unfold finish in H. injection H as Hd' _.
    set (dk := fst (after_iterations k conv body observer maxSteps
                      (set_numSteps d 0) [])) in *.
    assert (Hsteps : _numSteps d' = k).
    { rewrite <- Hd'. fold (finished (snd (conv dk))).
      rewrite (controls_numSteps _ _ (finished_controls _)).
      rewrite (controls_numSteps _ _ (Hconv dk)). exact Hn. }
    rewrite Hsteps. fold dk. right. split; [lia|]. split; [exact Htrue|].
    symmetry. exact Hd'.
Qed.

Lemma computeApprox_oldApprox (d : @Deconvolver F) :
  _oldApprox (computeApprox d) = _oldApprox d.
Proof.
  unfold computeApprox. destruct (_t d =? 1); [reflexivity|].
  destruct (for_ _ _ _) as [approx wpH]. reflexivity.
Qed.

(** A convergence test that answers [true] has compared the recomputed
    reconstruction with a stored previous one and found the relative
    change below a positive tolerance. *)
Lemma loop_of_conv_true (cf : NMFCostFunction) (t : nat) (eps : F) conv body
    (x : @Deconvolver F) :
  loop_of cf t eps = Some (conv, body) ->
  fst (conv x) = true ->
  f_le eps f_zero = false /\
  exists previous,
    _oldApprox x = Some previous /\
    f_lt (frobeniusNorm (Matrix_sub (_approx (computeApprox x)) previous)
          / frobeniusNorm previous)%sc eps = true.
Proof.
  unfold loop_of. intros H.
  assert (Hc : conv = converged_computing eps \/ conv = converged_after_approx eps).
  { destruct cf; try destruct (t =? 1); inversion H; auto. }
  destruct Hc as [-> | ->];
    unfold converged_computing, converged_after_approx, checkConvergence;
    rewrite ?computeApprox_oldApprox;
    destruct (f_le eps f_zero); cbn [fst]; try discriminate;
    destruct (_oldApprox x) as [previous|]; cbn [fst]; try discriminate;
    intros Hlt; (split; [reflexivity|]); exists previous; (split; [reflexivity|]);
    exact Hlt.
Qed.

(** [decompose] writes neither the input [V], nor a flag, the depth, the
    weights [S] and [C], the errors, the cached norm or the stride; and
    when it returns, the previous reconstruction has been released. *)
Theorem decompose_keeps_settings (d : @Deconvolver F) (cf : NMFCostFunction)
    (maxSteps : nat) (eps : F) (observer : bool) d' calls :
  decompose default_epsilon d cf maxSteps eps observer = Returned d' calls ->
  settings d' = settings d /\ _oldApprox d' = None.
Proof.
  intros Hret.
  destruct (decompose_exit _ _ _ _ _ _ _ Hret) as (conv & body & Hloop & Hexit).
  destruct (loop_of_controls _ _ _ _ _ Hloop) as [Hconv Hbody].
  cbv zeta in Hexit.
  pose proof (after_iterations_settings conv body observer maxSteps Hconv Hbody
                (_numSteps d') (set_numSteps d 0) []) as Hlast.
  set (last := fst (after_iterations _ _ _ _ _ _ _)) in *.
  assert (Hfin : forall x, settings (finished x) = settings x).
  { intros x. apply controls_settings, finished_controls. }
  destruct Hexit as [(_ & Hd')|(_ & _ & Hd')]; rewrite Hd';
    (split; [|reflexivity]).
  - rewrite Hfin. exact Hlast.
  - rewrite Hfin, (controls_settings _ _ (Hconv last)). exact Hlast.
Qed.

(** When [decompose] returns, either all [maxSteps] iterations have run,
    or fewer have and then the tolerance is not [<= 0], a previous
    reconstruction was stored and the last test found the relative change
    [zeta] below the tolerance.  With a tolerance [<= 0] the loop always
    runs [maxSteps] iterations. *)
Theorem decompose_stops (d : @Deconvolver F) (cf : NMFCostFunction)
    (maxSteps : nat) (eps : F) (observer : bool) d' calls :
  decompose default_epsilon d cf maxSteps eps observer = Returned d' calls ->
  (_numSteps d' = maxSteps
   \/ (_numSteps d' < maxSteps /\ f_le eps f_zero = false /\
       exists conv body previous,
         loop_of cf (_t d) eps = Some (conv, body) /\
         let last :=
           fst (after_iterations (_numSteps d') conv body observer maxSteps
                  (set_numSteps d 0) []) in
         _oldApprox last = Some previous /\
         f_lt (frobeniusNorm (Matrix_sub (_approx (computeApprox last)) previous)
               / frobeniusNorm previous)%sc eps = true)) /\
  (f_le eps f_zero = true -> _numSteps d' = maxSteps).
Proof.
  intros Hret.
  destruct (decompose_exit _ _ _ _ _ _ _ Hret) as (conv & body & Hloop & Hexit).
  cbv zeta in Hexit.
  destruct Hexit as [(Hmax & _)|(Hlt & Htrue & _)].
  - split; [left; exact Hmax|]. intros _. exact Hmax.
  - destruct (loop_of_conv_true _ _ _ _ _ _ Hloop Htrue) as (Heps & previous & Hold & Hzeta).
    split.
    + right. split; [exact Hlt|]. split; [exact Heps|].
      exists conv, body, previous. split; [exact Hloop|]. cbv zeta.
      split; assumption.
    + intros Hle. rewrite Hle in Heps. discriminate.
Qed.

(** Two edges of the loop.  With [maxSteps = 0] no iteration and no
    convergence test runs: the engine returned is the given one with the
    counter at zero, post-processed, and the only call to the observer is
    the final [1.0].  On an engine without a stored previous
    reconstruction and with [maxSteps > 0], at least one iteration runs:
    the first test only stores the reconstruction. *)
Theorem decompose_edges (d : @Deconvolver F) (cf : NMFCostFunction)
    (maxSteps : nat) (eps : F) (observer : bool) d' calls :
  decompose default_epsilon d cf maxSteps eps observer = Returned d' calls ->
  (maxSteps = 0 ->
     d' = finished (set_numSteps d 0)
     /\ calls = (if observer then [1%Q] else [])) /\
  (_oldApprox d = None -> 0 < maxSteps -> 1 <= _numSteps d').
Proof.
  intros Hret.
  destruct (decompose_exit _ _ _ _ _ _ _ Hret) as (conv & body & Hloop & Hexit).
  destruct (decompose_returned _ _ _ _ _ _ _ Hret)
    as (_ & _ & k & _ & _ & Hk & _ & _ & Hn & _ & Hcalls).
  cbv zeta in Hexit. split.
  - intros Hzero. subst maxSteps.
    assert (Hsteps : _numSteps d' = 0) by lia.
    rewrite Hsteps in Hexit. cbn [after_iterations fst] in Hexit.
    destruct Hexit as [(_ & Hd')|(Hlt & _)]; [|lia].
    split; [exact Hd'|]. rewrite <- Hn, Hsteps in Hcalls. rewrite Hcalls.
    unfold stride_calls. destruct observer; reflexivity.
  - intros Hold Hpos.
    destruct Hexit as [(Hmax & _)|(_ & Htrue & _)]; [lia|].
    destruct (_numSteps d') as [|n]; [|lia].
    cbn [after_iterations fst] in Htrue.
    destruct (loop_of_conv_true _ _ _ _ _ _ Hloop Htrue) as (_ & previous & Hsome & _).
    cbn [_oldApprox set_numSteps] in Hsome. congruence.
Qed.

(** Over a whole call of [decompose] with any cost function but
    [EuclideanDistanceSparseNormalized] and without post-normalization:
    with [_wConstant] set the [W^p] returned are the ones given, and a
    column marked constant is the same in every [W^p] before and after. *)
Theorem constant_W_survives_decompose (d : @Deconvolver F) (cf : NMFCostFunction)
    (maxSteps : nat) (eps : F) (observer : bool) d' calls :
  cf <> EuclideanDistanceSparseNormalized ->
  _normalizeMatrices d = false ->
  decompose default_epsilon d cf maxSteps eps observer = Returned d' calls ->
  (_wConstant d = true -> _w d' = _w d) /\
  (forall j, wColConstant d j = true ->
     forall p i, at_ (W d' p) i j = at_ (W d p) i j).
Proof.
  intros Hcf Hnorm Hret.
  destruct (decompose_exit _ _ _ _ _ _ _ Hret) as (conv & body & Hloop & Hexit).
  destruct (loop_of_controls _ _ _ _ _ Hloop) as [Hconv Hbody].
  cbv zeta in Hexit.
  pose proof (after_iterations_settings conv body observer maxSteps Hconv Hbody
                (_numSteps d') (set_numSteps d 0) []) as Hset.
  pose proof (after_iterations_W_frame conv body observer maxSteps Hconv Hbody
                (_numSteps d')
                (fun x => W_update_frame cf (_t d) eps conv body x Hcf Hloop)
                (set_numSteps d 0) []) as Hframe.
  set (last := fst (after_iterations _ _ _ _ _ _ _)) in *.
  assert (Hlast : W_frame d last).
  { eapply (W_frame_trans d (set_numSteps d 0)); [reflexivity| |exact Hframe].
    eapply W_frame_same_w; [apply W_frame_refl|reflexivity]. }
  assert (Hn : _normalizeMatrices last = false).
  { destruct (settings_wConstant last (set_numSteps d 0) 0 Hset) as (_ & _ & ->).
    exact Hnorm. }
  assert (Hgoal : forall x, _w x = _w last ->
            _normalizeMatrices x = false -> W_frame d (finished x)).
  { intros x Hw Hx. eapply W_frame_same_w; [exact Hlast|].
    unfold finished. rewrite Hx. cbn [_w set_oldApprox]. exact Hw. }
  assert (Hd' : W_frame d d').
  { destruct Hexit as [(_ & Hd')|(_ & _ & Hd')]; rewrite Hd'.
    - apply Hgoal; [reflexivity|exact Hn].
    - apply Hgoal.
      + apply (loop_of_conv_w _ _ _ _ _ Hloop).
      + destruct (settings_wConstant _ _ 0 (controls_settings _ _ (Hconv last)))
          as (_ & _ & ->). exact Hn. }
  exact Hd'.
Qed.

(** ** Replacing a factor *)

Lemma well_formed_intro (d d' : @Deconvolver F) :
  well_formed d ->
  _v d' = _v d -> _t d' = _t d ->
  List.length (_w d') = List.length (_w d) ->
  (forall p, same_shape (W d' p) (W d p)) ->
  same_shape (_h d') (_h d) ->
  same_shape (_approx d') (_approx d) ->
  well_formed d'.
Proof.
  intros (Hlen & Ht & Hall & HN & Ha) Hv Htt Hl HW [Hhr Hhc] Happ.
  unfold well_formed. rewrite Hv, Htt, Hhr, Hhc.
  split; [congruence|]. split; [exact Ht|]. split; [|split; [exact HN|]].
  - apply Forall_forall. intros wp Hin.
    destruct (In_nth _ _ (Matrix_new 0 0) Hin) as (p & Hp & <-).
    fold (W d' p). destruct (HW p) as [-> ->].
    rewrite Forall_forall in Hall. apply Hall. unfold W. apply nth_In. lia.
  - eapply same_shape_trans; eassumption.
Qed.

(** [setW(i, w)] and [setH(h)] on a well-shaped engine.  [setW] succeeds
    exactly for an index below the depth and a matrix of the shape of
    [W^i]; then [W^i] is [w], the other [W^q] and all other members are
    untouched, and the engine is still well shaped.  [setH] succeeds
    exactly for a matrix of the shape of [H]; then [H] is [h], nothing else
    has changed and the engine is still well shaped. *)
Theorem replacing_factors (d : @Deconvolver F) :
  well_formed d ->
  (forall i w,
     (i < _t d /\ same_shape w (W d i) ->
      exists d', setW d i w = Some d' /\ well_formed d' /\
                 W d' i = w /\ (forall q, q <> i -> W d' q = W d q) /\
                 members_but_w d' = members_but_w d) /\
     (~ (i < _t d /\ same_shape w (W d i)) -> setW d i w = None)) /\
  (forall h,
     (same_shape h (_h d) ->
      exists d', setH d h = Some d' /\ well_formed d' /\ d' = set_h d h) /\
     (~ same_shape h (_h d) -> setH d h = None)).
Proof.
  intros Hwf. pose proof Hwf as (Hlen & _). split.
  - intros i w. unfold setW. rewrite Hlen. split.
    + intros [Hi [Hr Hc]].
      replace (i <? _t d) with true by (symmetry; apply Nat.ltb_lt; exact Hi).
      rewrite Hr, Hc, !Nat.eqb_refl. cbn [andb].
      eexists. split; [reflexivity|].
      assert (HW : forall q, W (set_w d (list_set (_w d) i w)) q
                             = if q =? i then w else W d q).
      { intros q. unfold W. cbn [_w set_w]. rewrite nth_list_set, Hlen.
        replace (i <? _t d) with true by (symmetry; apply Nat.ltb_lt; exact Hi).
        rewrite andb_true_r. reflexivity. }
      split; [|split; [|split]].
      * apply (well_formed_intro d); try reflexivity; try assumption.
        -- cbn [_w set_w]. apply list_set_length.
        -- intros q. rewrite HW. destruct (Nat.eqb_spec q i) as [->|];
             [split; assumption|apply same_shape_refl].
        -- apply same_shape_refl.
        -- apply same_shape_refl.
      * rewrite HW, Nat.eqb_refl. reflexivity.
      * intros q Hq. rewrite HW.
        destruct (Nat.eqb_spec q i); [contradiction|reflexivity].
      * reflexivity.
    + intros Hnot. destruct (Nat.ltb_spec i (_t d)) as [Hi|Hi]; [|reflexivity].
      destruct (Nat.eqb_spec (cols w) (cols (W d i))) as [Hc|Hc];
        destruct (Nat.eqb_spec (rows w) (rows (W d i))) as [Hr|Hr];
        cbn [andb]; try reflexivity.
      exfalso. apply Hnot. split; [exact Hi|]. split; assumption.
  - intros h. unfold setH. split.
    + intros [Hr Hc]. rewrite Hr, Hc, !Nat.eqb_refl. cbn [andb].
      eexists. split; [reflexivity|]. split; [|reflexivity].
      apply (well_formed_intro d); try reflexivity; try assumption.
      * intros p. apply same_shape_refl.
      * split; assumption.
      * apply same_shape_refl.
    + intros Hnot.
      destruct (Nat.eqb_spec (cols h) (cols (_h d))) as [Hc|Hc];
        destruct (Nat.eqb_spec (rows h) (rows (_h d))) as [Hr|Hr];
        cbn [andb]; try reflexivity.
      exfalso. apply Hnot. split; assumption.
Qed.

(** ** Post-normalization, for every depth *)

(** A loop that replaces every [W^p] by [upd p (W^p)]. *)
Lemma spectra_loop (upd : nat -> @Matrix F -> @Matrix F) (d : @Deconvolver F) :
  let d' := for_ (List.length (_w d))
              (fun p x => set_w x (list_set (_w x) p (upd p (W x p)))) d in
  members_but_w d' = members_but_w d /\
  List.length (_w d') = List.length (_w d) /\
  forall p, W d' p = if p <? List.length (_w d) then upd p (W d p) else W d p.
Proof.
  cbv zeta.
  set (step := fun (p : nat) (x : @Deconvolver F) =>
                 set_w x (list_set (_w x) p (upd p (W x p)))).
  assert (Hloop : forall k, k <= List.length (_w d) ->
            members_but_w (for_ k step d) = members_but_w d /\
            List.length (_w (for_ k step d)) = List.length (_w d) /\
            forall p, W (for_ k step d) p
                      = if p <? k then upd p (W d p) else W d p).
  { induction k as [|k IH]; intros Hk.
    - rewrite for_0. repeat split.
    - rewrite for_S. destruct (IH ltac:(lia)) as (Hm & Hl & HW).
      set (x := for_ k step d) in *.
      assert (Hstep : _w (step k x) = list_set (_w x) k (upd k (W x k)))
        by reflexivity.
      split; [rewrite <- Hm; reflexivity|]. split.
      + rewrite Hstep, list_set_length. exact Hl.
      + intros p. unfold W at 1. rewrite Hstep, nth_list_set. fold (W x p).
        rewrite Hl, !HW.
        replace (k <? List.length (_w d)) with true
          by (symmetry; apply Nat.ltb_lt; lia).
        rewrite Nat.ltb_irrefl, andb_true_r.
        destruct (Nat.eqb_spec p k) as [->|Hne].
        * replace (k <? S k) with true by (symmetry; apply Nat.ltb_lt; lia).
          reflexivity.
        * destruct (Nat.ltb_spec p k), (Nat.ltb_spec p (S k)); try lia;
            reflexivity. }
  apply (Hloop _ (Nat.le_refl _)).
Qed.

(** What the loop of [normalizeMatrices] over [p = 1 .. _t - 1] leaves in
    [hNormRight[q]] for [q + 1 < _t]: the squared norms of the last
    [q + 1] columns of [h], added from the right. *)
Fixpoint right_column_norms (h : @Matrix F) (q : nat) : F :=
  match q with
  | 0 => (f_zero + dotColCol h (cols h - 1) h (cols h - 1))%sc
  | S q' =>
      (right_column_norms h q'
       + dotColCol h (cols h - 1 - S q') h (cols h - 1 - S q'))%sc
  end.

Lemma hNormRight_loop (h : @Matrix F) (t m : nat) :
  m < t ->
  let st :=
    for_range 1 (1 + m) (fun p '(hNormRight, col) =>
      let hNormRight :=
        if 1 <? p
        then list_set hNormRight (p - 1) (nth (p - 2) hNormRight f_zero)
        else hNormRight in
      let hNormRight :=
        list_set hNormRight (p - 1)
          (nth (p - 1) hNormRight f_zero + dotColCol h col h col)%sc in
      (hNormRight, col - 1))
      (repeat f_zero t, cols h - 1) in
  List.length (fst st) = t /\ snd st = cols h - 1 - m /\
  forall q, nth q (fst st) f_zero
            = if q <? m then right_column_norms h q else f_zero.
Proof.
  induction m as [|m IH]; intros Hm; cbv zeta.
  - rewrite Nat.add_0_r, for_range_empty. cbn [fst snd].
    split; [apply repeat_length|]. split; [lia|].
    intros q. cbn [Nat.ltb Nat.leb]. apply nth_repeat.
  - rewrite for_range_S. destruct (IH ltac:(lia)) as (Hlen & Hcol & Hnth).
    destruct (for_range 1 (1 + m) _ _) as [l col]. cbn [fst snd] in *.
    subst col. replace (1 + m - 1) with m by lia.
    destruct m as [|m'].
    + change (1 <? 1 + 0) with false. change (1 + 0 - 1) with 0.
      cbv zeta iota. cbn [fst snd].
      split; [rewrite list_set_length; exact Hlen|]. split; [lia|].
      intros q. rewrite nth_list_set, Hlen.
      replace (0 <? t) with true by (symmetry; apply Nat.ltb_lt; lia).
      rewrite andb_true_r.
      destruct q as [|q].
      * rewrite Nat.eqb_refl, Hnth. change (0 <? 0) with false.
        cbn [right_column_norms]. rewrite Nat.sub_0_r. reflexivity.
      * change (S q =? 0) with false. cbv iota. rewrite Hnth. reflexivity.
    + replace (1 <? 1 + S m') with true by (symmetry; apply Nat.ltb_lt; lia).
      cbv zeta. cbn [fst snd].
      replace (1 + S m' - 2) with m' by lia.
      split; [rewrite !list_set_length; exact Hlen|]. split; [lia|].
      intros q. rewrite !nth_list_set, !list_set_length, Hlen.
      replace (S m' <? t) with true by (symmetry; apply Nat.ltb_lt; lia).
      rewrite Nat.eqb_refl. cbn [andb]. rewrite andb_true_r.
      destruct (Nat.eqb_spec q (S m')) as [->|Hne].
      * replace (S m' <? S (S m')) with true by (symmetry; apply Nat.ltb_lt; lia).
        rewrite Hnth.
        replace (m' <? S m') with true by (symmetry; apply Nat.ltb_lt; lia).
        reflexivity.
      * rewrite Hnth.
        destruct (Nat.ltb_spec q (S m')), (Nat.ltb_spec q (S (S m')));
          try lia; reflexivity.
Qed.

(** [normalizeMatrices()] divides every cell of [H] by the norm of [H]
    and keeps its shape, for every depth. *)
Lemma normalizeMatrices_H (d : @Deconvolver F) :
  let d' := normalizeMatrices d in
  same_shape (_h d') (_h d) /\
  forall i j, i < rows (_h d) -> j < cols (_h d) ->
    at_ (_h d') i j = (at_ (_h d) i j / frobeniusNorm (_h d))%sc.
Proof.
  cbv zeta. unfold normalizeMatrices. cbn [_t _h set_h].
  set (hNorm := frobeniusNorm (_h d)).
  destruct (cell_loop (cols (_h d)) (rows (_h d)) (fun _ => true)
              (fun _ _ x => (x / hNorm)%sc) (_h d)) as [HshapeH HcellsH].
  cbv beta iota in HshapeH, HcellsH.
  set (h' := for_ (cols (_h d)) _ (_h d)) in *.
  set (d1 := set_h d h').
  destruct (for_range 1 (_t d) _ _) as [hNormRight col].
  assert (Hh : forall n step,
            (forall p x, _h (step p x) = _h x) ->
            _h (for_ n step d1) = h').
  { intros n step Hstep.
    apply (for_invariant (fun x : @Deconvolver F => _h x = h')); [reflexivity|].
    intros p x _ Hx. rewrite Hstep. exact Hx. }
  rewrite Hh by reflexivity. split; [exact HshapeH|].
  intros i j Hi Hj. rewrite HcellsH.
  replace (i <? rows (_h d)) with true by (symmetry; apply Nat.ltb_lt; lia).
  replace (j <? cols (_h d)) with true by (symmetry; apply Nat.ltb_lt; lia).
  reflexivity.
Qed.

(** An engine that agrees with another on every member but the array of
    the [W^p] is that engine with its own array put in. *)
Lemma members_but_w_frame (a b : @Deconvolver F) :
  members_but_w a = members_but_w b -> a = set_w b (_w a).
Proof.
  destruct a, b. unfold members_but_w, set_w. cbn.
  intros H. injection H as -> -> -> -> -> -> -> -> -> -> -> -> -> -> ->.
  reflexivity.
Qed.

(** [normalizeMatrices()] on an engine whose array [_w] holds [_t]
    matrices, for every depth.  With [hNorm] the Frobenius norm of [H]
    before the call: every cell of [H] is divided by [hNorm]; nothing but
    [H] and the [W^p] is written (the engine afterwards is the one before
    with its [H] and its array of [W^p] replaced, by matrices of the same
    shapes and number); and every cell of [W^p] is multiplied by
    [hNorm - hNormRight[p]], where the loop has left in [hNormRight[p]]
    the squared norms of the last [p + 1] columns of the divided [H] for
    [p + 1 < _t], and zero for the last spectrum [p = _t - 1]. *)
Theorem normalizeMatrices_scales (d : @Deconvolver F) :
  List.length (_w d) = _t d ->
  let hNorm := frobeniusNorm (_h d) in
  let d' := normalizeMatrices d in
  controls d' = controls d /\
  _approx d' = _approx d /\
  d' = set_w (set_h d (_h d')) (_w d') /\
  List.length (_w d') = List.length (_w d) /\
  same_shape (_h d') (_h d) /\
  (forall i j, i < rows (_h d) -> j < cols (_h d) ->
     at_ (_h d') i j = (at_ (_h d) i j / hNorm)%sc) /\
  forall p, p < _t d ->
    same_shape (W d' p) (W d p) /\
    forall i j, i < rows (W d p) -> j < cols (W d p) ->
      at_ (W d' p) i j
      = (at_ (W d p) i j
         * (hNorm - (if S p <? _t d then right_column_norms (_h d') p
                     else f_zero)))%sc.
Proof.
  intros Hlen. cbv zeta.
  split; [apply normalizeMatrices_controls|].
  unfold normalizeMatrices. cbn [_t _h set_h].
  set (hNorm := frobeniusNorm (_h d)).
  destruct (cell_loop (cols (_h d)) (rows (_h d)) (fun _ => true)
              (fun _ _ x => (x / hNorm)%sc) (_h d)) as [HshapeH HcellsH].
  cbv beta iota in HshapeH, HcellsH.
  set (h' := for_ (cols (_h d)) _ (_h d)) in *.
  set (d1 := set_h d h').
  set (stepNR := fun (p : nat) (st : list F * nat) => _).
  assert (HNR : forall q,
            nth q (fst (for_range 1 (_t d) stepNR (repeat f_zero (_t d), cols h' - 1)))
                f_zero
            = if S q <? _t d then right_column_norms h' q else f_zero).
  { intros q. destruct (_t d) as [|m] eqn:Ht.
    - unfold for_range. cbn [Nat.sub seq fold_left fst repeat].
      destruct q; reflexivity.
    - destruct (hNormRight_loop h' (S m) m ltac:(lia)) as (_ & _ & Hnth).
      cbv zeta in Hnth. change (1 + m) with (S m) in Hnth.
      rewrite Hnth. reflexivity. }
  destruct (for_range 1 (_t d) stepNR (repeat f_zero (_t d), cols h' - 1))
    as [hNormRight col]. cbn [fst] in HNR.
  set (upd := fun (p : nat) (w : @Matrix F) =>
         for_ (cols w) (fun j wp =>
           for_ (rows w) (fun i wp =>
             mset wp i j (at_ wp i j * (hNorm - nth p hNormRight f_zero))%sc) wp)
           w).
  assert (Hlen1 : List.length (_w d1) = _t d) by exact Hlen.
  destruct (spectra_loop upd d1) as (Hm & Hl & HW).
  rewrite Hlen1 in Hm, Hl, HW.
  change (for_ (_t d) _ d1)
    with (for_ (_t d)
            (fun p x => set_w x (list_set (_w x) p (upd p (W x p)))) d1).
  set (d' := for_ (_t d) _ d1) in *.
  pose proof (members_but_w_frame _ _ Hm) as Hframe.
  unfold members_but_w in Hm.
  injection Hm as _ Happrox _ _ _ _ _ Hh _ _ _ _ _ _ _.
  cbn [_approx _h d1 set_h] in Happrox, Hh.
  rewrite Hh. split; [exact Happrox|]. split; [exact Hframe|].
  split; [rewrite Hlen; exact Hl|]. split; [exact HshapeH|]. split.
  - intros i j Hi Hj. rewrite HcellsH.
    replace (i <? rows (_h d)) with true by (symmetry; apply Nat.ltb_lt; lia).
    replace (j <? cols (_h d)) with true by (symmetry; apply Nat.ltb_lt; lia).
    reflexivity.
  - intros p Hp. rewrite HW.
    replace (p <? _t d) with true by (symmetry; apply Nat.ltb_lt; lia).
    change (W d1 p) with (W d p).
    destruct (cell_loop (cols (W d p)) (rows (W d p)) (fun _ => true)
                (fun _ _ x => (x * (hNorm - nth p hNormRight f_zero))%sc) (W d p))
      as [HshapeW HcellsW].
    cbv beta iota in HshapeW, HcellsW.
    split; [exact HshapeW|].
    intros i j Hi Hj. unfold upd. rewrite HcellsW, HNR.
    replace (i <? rows (W d p)) with true by (symmetry; apply Nat.ltb_lt; lia).
    replace (j <? cols (W d p)) with true by (symmetry; apply Nat.ltb_lt; lia).
    reflexivity.
Qed.

(** A property of the engine that the convergence test, the body and the
    counter all keep holds after any number of iterations. *)
Lemma after_iterations_invariant (P : @Deconvolver F -> Prop)
    (conv : @Deconvolver F -> bool * @Deconvolver F)
    (body : @Deconvolver F -> @Deconvolver F)
    (observer : bool) (maxSteps : nat) :
  (forall x n, P x -> P (set_numSteps (body (snd (conv x))) n)) ->
  forall (k : nat) (d : @Deconvolver F) (calls : Trace),
    P d -> P (fst (after_iterations k conv body observer maxSteps d calls)).
Proof.
  intros Hstep. induction k as [|k IH]; intros d calls Hd; cbn [after_iterations].
  - exact Hd.
  - rewrite nextItStep_spec. apply IH. apply Hstep. exact Hd.
Qed.

(** ** The shapes of the factors *)

Definition shape (m : @Matrix F) : nat * nat := (rows m, cols m).

(** The shapes of the factors: of every [W^p], in order, and of [H]. *)
Definition shapes (d : @Deconvolver F) : list (nat * nat) * (nat * nat) :=
  (map shape (_w d), shape (_h d)).

Lemma shapes_set_approx (d : @Deconvolver F) x : shapes (set_approx d x) = shapes d.
Proof. reflexivity. Qed.

Lemma shapes_set_oldApprox (d : @Deconvolver F) x :
  shapes (set_oldApprox d x) = shapes d.
Proof. reflexivity. Qed.

Lemma shapes_set_h (d : @Deconvolver F) (h : @Matrix F) :
  shape h = shape (_h d) -> shapes (set_h d h) = shapes d.
Proof. unfold shapes. cbn [_w _h set_h]. intros ->. reflexivity. Qed.

Lemma map_shape_list_set (l : list (@Matrix F)) (p : nat) (w : @Matrix F) :
  shape w = shape (nth p l (Matrix_new 0 0)) ->
  map shape (list_set l p w) = map shape l.
Proof.
  revert p. induction l as [|a l IH]; intros [|p] H; cbn [list_set map nth] in *.
  - reflexivity.
  - reflexivity.
  - rewrite H. reflexivity.
  - rewrite IH by exact H. reflexivity.
Qed.

Lemma shapes_set_w (d : @Deconvolver F) (p : nat) (w : @Matrix F) :
  shape w = shape (W d p) ->
  shapes (set_w d (list_set (_w d) p w)) = shapes d.
Proof.
  unfold shapes, W. cbn [_w _h set_w]. intros H.
  rewrite map_shape_list_set by exact H. reflexivity.
Qed.

Lemma shapes_same_factors (a b : @Deconvolver F) :
  _w a = _w b -> _h a = _h b -> shapes a = shapes b.
Proof. unfold shapes. intros -> ->. reflexivity. Qed.

Lemma shapes_computeApprox (d : @Deconvolver F) :
  shapes (computeApprox d) = shapes d.
Proof.
  destruct (computeApprox_w d) as [Hw Hh]. apply shapes_same_factors; assumption.
Qed.

(** One step of a proof that a loop of cell writes keeps the shape of its
    matrix. *)
Ltac shape_step :=
  match goal with
  | |- shape (for_ _ _ _) = shape ?m0 =>
      apply (for_invariant (fun a => shape a = shape m0)); [ | intros ? ? _ ?]
  | |- shape ?x = shape ?x => reflexivity
  | H : shape ?x = _ |- shape (mset ?x _ _ _) = _ => exact H
  | H : shape ?x = _ |- shape ?x = _ => exact H
  | |- context [if ?b then _ else _] => destruct b
  end.

Ltac shape_tac := cbv zeta; repeat (shape_step; cbv zeta).

(** One step of a proof that a loop body keeps [shapes]. *)
Ltac shapes_step d0 :=
  match goal with
  | |- shapes (set_h _ _) = _ => rewrite shapes_set_h; [ | solve [shape_tac] ]
  | |- shapes (set_w _ (list_set _ _ _)) = _ =>
      rewrite shapes_set_w; [ | solve [shape_tac] ]
  | |- shapes (set_approx _ _) = _ => rewrite shapes_set_approx
  | |- shapes (set_oldApprox _ _) = _ => rewrite shapes_set_oldApprox
  | |- shapes (computeApprox _) = _ => rewrite shapes_computeApprox
  | |- shapes (fst (_, _)) = _ => cbn [fst]
  | |- shapes (fst (for_ _ _ _)) = _ =>
      apply (for_invariant (fun st => shapes (fst st) = shapes d0));
      [cbn [fst] | intros ? [? ?] _ ?; cbn [fst] in *]
  | |- shapes (for_ _ _ _) = _ =>
      apply (for_invariant (fun x => shapes x = shapes d0));
      [ | intros ? ? _ ?]
  | |- context [if ?b then _ else _] => destruct b
  | |- context [match ?x with (_, _) => _ end] => destruct x
  | |- shapes ?x = shapes ?x => reflexivity
  | H : shapes ?x = _ |- shapes ?x = _ => exact H
  end.

Ltac shapes_tac d0 := cbv zeta; repeat (shapes_step d0; cbv zeta).

Lemma factorizeNMFED_body_shapes (d : @Deconvolver F) :
  shapes (factorizeNMFED_body d) = shapes d.
Proof.
  unfold factorizeNMFED_body, calculateNMFEDHUpdate, factorizeNMFEDWUpdate.
  shapes_tac d.
Qed.

Lemma factorizeNMDED_body_shapes (d : @Deconvolver F) :
  shapes (factorizeNMDED_body default_epsilon d) = shapes d.
Proof. unfold factorizeNMDED_body. shapes_tac d. Qed.

Lemma factorizeNMDKL_body_shapes (d : @Deconvolver F) :
  shapes (factorizeNMDKL_body default_epsilon d) = shapes d.
Proof. unfold factorizeNMDKL_body. shapes_tac d. Qed.

Lemma factorizeNMFEDSparse_body_shapes (d : @Deconvolver F) :
  shapes (factorizeNMFEDSparse_body d) = shapes d.
Proof.
  unfold factorizeNMFEDSparse_body, calculateNMFEDHUpdate, factorizeNMFEDWUpdate.
  shapes_tac d.
Qed.

Lemma factorizeNMFKLSparse_body_shapes (d : @Deconvolver F) :
  shapes (factorizeNMFKLSparse_body d) = shapes d.
Proof. unfold factorizeNMFKLSparse_body. shapes_tac d. Qed.

Lemma factorizeNMFKLTempCont_body_shapes (d : @Deconvolver F) :
  shapes (factorizeNMFKLTempCont_body d) = shapes d.
Proof. unfold factorizeNMFKLTempCont_body. shapes_tac d. Qed.

Lemma factorizeNMFEDSparseNorm_body_shapes (d : @Deconvolver F) :
  shapes (factorizeNMFEDSparseNorm_body d) = shapes d.
Proof. unfold factorizeNMFEDSparseNorm_body. shapes_tac d. Qed.

Lemma normalizeMatrices_shapes (d : @Deconvolver F) :
  shapes (normalizeMatrices d) = shapes d.
Proof. unfold normalizeMatrices. shapes_tac d. Qed.

Lemma loop_of_shapes (cf : NMFCostFunction) (t : nat) (eps : F) conv body :
  loop_of cf t eps = Some (conv, body) ->
  forall x : @Deconvolver F,
    shapes (snd (conv x)) = shapes x /\ shapes (body x) = shapes x.
Proof.
  intros H x. split.
  - destruct (loop_of_conv_w _ _ _ _ _ H x) as [Hw Hh].
    apply shapes_same_factors; assumption.
  - unfold loop_of in H.
    destruct cf; try destruct (t =? 1); inversion H; subst;
      first [ apply factorizeNMFED_body_shapes
            | apply factorizeNMDED_body_shapes
            | apply factorizeNMDKL_body_shapes
            | apply factorizeNMFEDSparse_body_shapes
            | apply factorizeNMFKLSparse_body_shapes
            | apply factorizeNMFKLTempCont_body_shapes
            | apply factorizeNMFEDSparseNorm_body_shapes ].
Qed.

(** [decompose] never resizes a factor: with every cost function, with or
    without post-normalization and after any number of iterations, the
    engine returned holds as many [W^p] as the one given, each of the
    shape it had, and [H] of the shape it had. *)
Theorem decompose_keeps_shapes (d : @Deconvolver F) (cf : NMFCostFunction)
    (maxSteps : nat) (eps : F) (observer : bool) d' calls :
  decompose default_epsilon d cf maxSteps eps observer = Returned d' calls ->
  List.length (_w d') = List.length (_w d) /\
  (forall p, same_shape (W d' p) (W d p)) /\
  same_shape (_h d') (_h d).
Proof.
  intros Hret.
  assert (Hshapes : shapes d' = shapes d).
  { destruct (decompose_exit _ _ _ _ _ _ _ Hret) as (conv & body & Hloop & Hexit).
    pose proof (loop_of_shapes _ _ _ _ _ Hloop) as Hstep.
    cbv zeta in Hexit.
    pose proof (after_iterations_invariant (fun x => shapes x = shapes d)
                  conv body observer maxSteps) as Hinv.
    specialize (Hinv (fun x n Hx =>
                  eq_trans (eq_trans (proj2 (Hstep (snd (conv x))))
                                     (proj1 (Hstep x))) Hx)
                  (_numSteps d') (set_numSteps d 0) [] eq_refl).
    set (last := fst (after_iterations _ _ _ _ _ _ _)) in *.
    assert (Hfin : forall x, shapes (finished x) = shapes x).
    { intros x. unfold finished. rewrite shapes_set_oldApprox.
      destruct (_normalizeMatrices x); [apply normalizeMatrices_shapes|reflexivity]. }
    destruct Hexit as [(_ & Hd')|(_ & _ & Hd')]; rewrite Hd', Hfin.
    - exact Hinv.
    - rewrite (proj1 (Hstep last)). exact Hinv. }
  unfold shapes in Hshapes. injection Hshapes as Hw Hhr Hhc.
  split; [|split].
  - rewrite <- (length_map shape (_w d')), Hw. apply length_map.
  - intros p. unfold W.
    assert (Hp : shape (nth p (_w d') (Matrix_new 0 0))
                 = shape (nth p (_w d) (Matrix_new 0 0))).
    { change (shape (Matrix_new 0 0)) with (shape (Matrix_new (F := F) 0 0)).
      rewrite <- !(map_nth shape). rewrite Hw. reflexivity. }
    unfold shape in Hp. injection Hp as Hr Hc. split; assumption.
  - split; assumption.
Qed.

(** ** How a call of [decompose] ends *)

(** The calls of [decompose] that do not run the loop of [factorizeNMFED]
    or of [factorizeNMFEDSparse], whose helpers [factorizeNMFEDWUpdate]
    and [calculateNMFEDHUpdate] keep their scratch matrices in
    function-local statics sized by the first engine of the process. *)
Definition avoids_static_scratch (cf : NMFCostFunction) (t : nat) : bool :=
  match cf with
  | EuclideanDistance | EuclideanDistanceSparse => negb (t =? 1)
  | _ => true
  end.

(** The selection of [decompose] finds a driver that runs: the Euclidean
    distance or the KL divergence, or one of the four single-spectrum cost
    functions with depth one. *)
Definition driver_runs (cf : NMFCostFunction) (t : nat) : Prop :=
  (single_spectrum_only cf = false /\ forall n, cf <> OtherCostFunction n)
  \/ (single_spectrum_only cf = true /\ t = 1).

(** How a call of [decompose] ends, for the calls that do not reach the
    static scratch matrices.  When a driver runs, the call returns if
    there is no observer or the stride is positive (its loop tests its
    condition at most [maxSteps + 1] times); with an observer and a zero
    stride the first iteration ends in [_numSteps % 0], which is
    undefined (on an engine without a stored previous reconstruction and
    with [maxSteps > 0] there is a first iteration).  The call throws,
    with the engine untouched, for a single-spectrum cost function with a
    depth above one and for a value that is no cost function; and with
    depth zero a single-spectrum cost function stops on the
    [assert(_t == 1)] of its driver. *)
Theorem decompose_outcome (d : @Deconvolver F) (cf : NMFCostFunction)
    (maxSteps : nat) (eps : F) (observer : bool) :
  avoids_static_scratch cf (_t d) = true ->
  (driver_runs cf (_t d) -> observer = false \/ 0 < _notificationDelay d ->
   exists d' calls,
     decompose default_epsilon d cf maxSteps eps observer = Returned d' calls) /\
  (driver_runs cf (_t d) -> observer = true -> _notificationDelay d = 0 ->
   0 < maxSteps -> _oldApprox d = None ->
   decompose default_epsilon d cf maxSteps eps observer = UndefinedBehaviour) /\
  ((single_spectrum_only cf = true /\ 1 < _t d)
   \/ (exists n, cf = OtherCostFunction n) ->
   exists e,
     decompose default_epsilon d cf maxSteps eps observer = Thrown e d []) /\
  (single_spectrum_only cf = true -> _t d = 0 ->
   decompose default_epsilon d cf maxSteps eps observer = AssertionFailed).
Proof.
  intros _.
  assert (Hloop : driver_runs cf (_t d) ->
            exists conv body, loop_of cf (_t d) eps = Some (conv, body)).
  { unfold driver_runs, loop_of.
    intros [[Hsingle Hother]|[Hsingle Ht]]; destruct cf;
      cbn [single_spectrum_only] in Hsingle; try discriminate Hsingle;
      try (rewrite Ht; cbn [Nat.eqb]); try (destruct (_t d =? 1)); eauto;
      exfalso; eapply Hother; reflexivity. }
  split; [|split; [|split]].
  - intros Hruns Hstride. destruct (Hloop Hruns) as (conv & body & Hl).
    exact (decompose_returns d cf maxSteps eps observer conv body Hstride Hl).
  - intros Hruns -> Hzero Hmax Hold. destruct (Hloop Hruns) as (conv & body & Hl).
    apply (decompose_zero_stride d cf maxSteps eps conv body Hl Hzero Hmax).
    destruct (fst (conv (set_numSteps d 0))) eqn:Hfirst; [|reflexivity].
    destruct (loop_of_conv_true _ _ _ _ _ _ Hl Hfirst) as (_ & previous & Hsome & _).
    cbn [_oldApprox set_numSteps] in Hsome. congruence.
  - unfold decompose, decompose_fuel, select_driver.
    intros [[Hsingle Ht]|[n ->]]; [|eauto].
    apply Nat.ltb_lt in Ht.
    destruct cf; try discriminate Hsingle; rewrite Ht; eauto.
  - unfold decompose, decompose_fuel, select_driver, factorizeNMFEDSparse,
      factorizeNMFKLSparse, factorizeNMFKLTempCont, factorizeNMFEDSparseNorm.
    intros Hsingle ->.
    destruct cf; try discriminate Hsingle; reflexivity.
Qed.

End Properties.

(** ** Names of the cost functions *)

(** [costFunctionName] gives the six cost functions six different labels,
    none of them ["Unknown"], and gives ["Unknown"] to every other value:
    the label tells which cost function it names. *)
Theorem costFunctionName_distinct :
  (forall cf cf',
     costFunctionName cf = costFunctionName cf' ->
     cf = cf' \/ ((exists n, cf = OtherCostFunction n)
                  /\ (exists n', cf' = OtherCostFunction n'))) /\
  (forall cf,
     costFunctionName cf = "Unknown"%string <-> exists n, cf = OtherCostFunction n).
Proof.
  split.
  - intros cf cf' H.
    destruct cf, cf'; cbn [costFunctionName] in H;
      try (left; reflexivity); try discriminate H.
    right. split; eexists; reflexivity.
  - intros cf. split.
    + destruct cf; cbn [costFunctionName]; intros H; try discriminate H.
      eexists. reflexivity.
    + intros [n ->]. reflexivity.
Qed.

(** ** Post-normalization in exact arithmetic *)

Lemma sum_upto_scale_R (n : nat) (f : nat -> R) (c : R) :
  sum_upto n (fun k => (f k * c)%R) = (sum_upto n f * c)%R.
Proof.
  induction n as [|n IH]; cbn [sum_upto f_zero f_add R_Scalar].
  - ring.
  - rewrite IH. ring.
Qed.

(** For one spectrum, [normalizeMatrices] divides the cells of [H] by the
    norm of [H] and multiplies the cells of [W^0] by it. *)
Lemma normalizeMatrices_single (d : @Deconvolver R) :
  well_formed d -> _t d = 1 ->
  let hNorm := frobeniusNorm (_h d) in
  let d' := normalizeMatrices d in
  _t d' = 1 /\
  same_shape (_h d') (_h d) /\
  (forall i j, at_ (_h d') i j
     = if (i <? rows (_h d)) && (j <? cols (_h d))
       then (at_ (_h d) i j / hNorm)%R else at_ (_h d) i j) /\
  same_shape (W d' 0) (W d 0) /\
  (forall i j, at_ (W d' 0) i j
     = if (i <? rows (W d 0)) && (j <? cols (W d 0))
       then (at_ (W d 0) i j * (hNorm - 0))%R else at_ (W d 0) i j).
Proof.
  intros (Hlen & _) Ht. cbv zeta. unfold normalizeMatrices.
  cbn [_t set_h]. rewrite Ht.
  rewrite for_range_empty.
  cbv iota beta. rewrite for_S, for_0.
  set (hNorm := frobeniusNorm (_h d)).
  destruct (cell_loop (cols (_h d)) (rows (_h d)) (fun _ => true)
              (fun _ _ x => (x / hNorm)%sc) (_h d)) as [HshapeH HcellsH].
  cbv beta iota in HshapeH, HcellsH.
  set (h' := for_ (cols (_h d)) _ (_h d)) in *.
  set (d1 := set_h d h').
  destruct (cell_loop (cols (W d1 0)) (rows (W d1 0)) (fun _ => true)
              (fun _ _ x => (x * (hNorm - nth 0 (repeat (f_zero (F := R)) 1) f_zero))%sc)
              (W d1 0)) as [HshapeW HcellsW].
  cbv beta iota in HshapeW, HcellsW.
  set (w' := for_ (cols (W d1 0)) _ (W d1 0)) in *.
  assert (HW : W (set_w d1 (list_set (_w d1) 0 w')) 0 = w').
  { unfold W. cbn [_w set_w]. rewrite nth_list_set.
    subst d1. cbn [_w set_h]. rewrite Hlen, Ht. reflexivity. }
  cbn [_t _h set_w]. rewrite HW.
  split; [exact Ht|]. split; [exact HshapeH|]. split.
  - intros i j. subst d1. cbn [_h set_h]. rewrite HcellsH, andb_true_r.
    reflexivity.
  - split; [exact HshapeW|].
    intros i j. rewrite HcellsW, andb_true_r. reflexivity.
Qed.

(** C7.  For one spectrum and [H] of positive Frobenius norm, in exact
    real arithmetic: the reconstruction [W^0 * H] computed after
    [normalizeMatrices] equals, cell by cell, the one computed before it,
    and the Frobenius norm of [H] is [1] afterwards. *)
Theorem normalize_keeps_product (d : @Deconvolver R) :
  well_formed d -> _t d = 1 ->
  (0 < frobeniusNorm (_h d))%R ->
  let d' := normalizeMatrices d in
  (forall i j, i < rows (_v d) -> j < cols (_v d) ->
     at_ (_approx (computeApprox d')) i j = at_ (_approx (computeApprox d)) i j) /\
  frobeniusNorm (_h d') = 1%R.
Proof.
  intros Hwf Ht Hpos.
  destruct (normalizeMatrices_single d Hwf Ht)
    as (Ht' & [HrH HcH] & HcellsH & [HrW HcW] & HcellsW).
  destruct (well_formed_W d 0 Hwf ltac:(lia)) as [HWr HWc].
  destruct Hwf as (_ & _ & _ & HN & _).
  cbv zeta in *. set (d' := normalizeMatrices d) in *.
  set (hNorm := frobeniusNorm (_h d)) in *.
  assert (Hne : hNorm <> 0%R) by lra.
  split.
  - intros i j Hi Hj. unfold computeApprox. rewrite Ht, Ht'. cbn [Nat.eqb].
    cbn [_approx set_approx multWithMatrix at_]. rewrite HcW.
    apply sum_upto_ext. intros l Hl.
    rewrite HcellsW, HcellsH.
    replace (i <? rows (W d 0)) with true by (symmetry; apply Nat.ltb_lt; lia).
    replace (l <? cols (W d 0)) with true by (symmetry; apply Nat.ltb_lt; lia).
    replace (l <? rows (_h d)) with true by (symmetry; apply Nat.ltb_lt; lia).
    replace (j <? cols (_h d)) with true by (symmetry; apply Nat.ltb_lt; lia).
    cbn [andb f_mul R_Scalar]. field. exact Hne.
  - unfold frobeniusNorm at 1. cbn [f_sqrt R_Scalar].
    assert (Hsq : sumSquares (_h d') = (sumSquares (_h d) * / (hNorm * hNorm))%R).
    { unfold sumSquares. rewrite HrH, HcH.
      rewrite <- sum_upto_scale_R. apply sum_upto_ext. intros i Hi.
      rewrite <- sum_upto_scale_R. apply sum_upto_ext. intros j Hj.
      rewrite HcellsH.
      replace (i <? rows (_h d)) with true by (symmetry; apply Nat.ltb_lt; lia).
      replace (j <? cols (_h d)) with true by (symmetry; apply Nat.ltb_lt; lia).
      cbn [andb f_mul R_Scalar]. field. exact Hne. }
    assert (Hnorm : (hNorm * hNorm = sumSquares (_h d))%R).
    { subst hNorm. unfold frobeniusNorm in *. cbn [f_sqrt R_Scalar] in *.
      apply sqrt_sqrt.
      destruct (Rle_dec 0 (sumSquares (_h d))) as [Hle|Hgt]; [exact Hle|].
      rewrite sqrt_neg_0 in Hpos by lra. lra. }
    rewrite Hsq, <- Hnorm.
    replace (hNorm * hNorm * / (hNorm * hNorm))%R with 1%R by (field; exact Hne).
    apply sqrt_1.
Qed.

(** For every depth, [H] has Frobenius norm [1] after
    [normalizeMatrices] (in exact arithmetic, for [H] of positive norm). *)
Theorem normalize_unit_norm (d : @Deconvolver R) :
  (0 < frobeniusNorm (_h d))%R ->
  frobeniusNorm (_h (normalizeMatrices d)) = 1%R.
Proof.
  intros Hpos.
  destruct (normalizeMatrices_H d) as ([HrH HcH] & HcellsH).
  cbv zeta in HrH, HcH, HcellsH.
  set (hNorm := frobeniusNorm (_h d)) in *.
  assert (Hne : hNorm <> 0%R) by lra.
  unfold frobeniusNorm at 1. cbn [f_sqrt R_Scalar].
  assert (Hsq : sumSquares (_h (normalizeMatrices d))
                = (sumSquares (_h d) * / (hNorm * hNorm))%R).
  { unfold sumSquares. rewrite HrH, HcH.
    rewrite <- sum_upto_scale_R. apply sum_upto_ext. intros i Hi.
    rewrite <- sum_upto_scale_R. apply sum_upto_ext. intros j Hj.
    rewrite HcellsH by assumption.
    cbn [f_mul f_div R_Scalar]. field. exact Hne. }
  assert (Hnorm : (hNorm * hNorm = sumSquares (_h d))%R).
  { subst hNorm. unfold frobeniusNorm in *. cbn [f_sqrt R_Scalar] in *.
    apply sqrt_sqrt.
    destruct (Rle_dec 0 (sumSquares (_h d))) as [Hle|Hgt]; [exact Hle|].
    rewrite sqrt_neg_0 in Hpos by lra. lra. }
  rewrite Hsq, <- Hnorm.
  replace (hNorm * hNorm * / (hNorm * hNorm))%R with 1%R by (field; exact Hne).
  apply sqrt_1.
Qed.

(** ** Non-negativity under the Euclidean update, in exact arithmetic *)

(** Every cell of the matrix is [>= 0]. *)
Definition nonnegative (m : @Matrix R) : Prop :=
  forall i j, (0 <= at_ m i j)%R.

Lemma sum_upto_nonneg (n : nat) (f : nat -> R) :
  (forall k, (0 <= f k)%R) -> (0 <= sum_upto n f)%R.
Proof.
  intros Hf. induction n as [|n IH]; cbn [sum_upto f_zero f_add R_Scalar].
  - lra.
  - specialize (Hf n). lra.
Qed.

Lemma floor_divisor_positive (x : R) : (0 < floor_divisor x)%R.
Proof.
  unfold floor_divisor. cbn [f_le f_zero DIVISOR_FLOOR R_Scalar].
  destruct (Rle_dec x 0); lra.
Qed.

Lemma update_factor_nonneg (x num den : R) :
  (0 <= x)%R -> (0 <= num)%R -> (0 <= x * (num / floor_divisor den))%R.
Proof.
  intros Hx Hnum. pose proof (floor_divisor_positive den) as Hpos.
  apply Rmult_le_pos; [exact Hx|].
  unfold Rdiv. apply Rmult_le_pos; [exact Hnum|].
  left. apply Rinv_0_lt_compat. exact Hpos.
Qed.

Lemma multWithTransposedMatrix_nonneg (a b : @Matrix R) :
  nonnegative a -> nonnegative b -> nonnegative (multWithTransposedMatrix a b).
Proof.
  intros Ha Hb i j. cbn [multWithTransposedMatrix at_].
  apply sum_upto_nonneg. intros l. cbn [f_mul R_Scalar].
  apply Rmult_le_pos; [apply Ha|apply Hb].
Qed.

Lemma multWithMatrix_block_nonneg (a b target : @Matrix R)
    (ta tb : bool) (m k n ro co roO coO roT coT : nat) :
  nonnegative a -> nonnegative b -> nonnegative target ->
  nonnegative (multWithMatrix_block a b target ta tb m k n ro co roO coO roT coT).
Proof.
  intros Ha Hb Ht i j. cbn [multWithMatrix_block at_].
  destruct (_ && _); [|apply Ht].
  apply sum_upto_nonneg. intros l. cbn [f_mul R_Scalar].
  apply Rmult_le_pos; unfold gemm_operand;
    [destruct ta; apply Ha|destruct tb; apply Hb].
Qed.

Lemma Matrix_new_nonneg (r c : nat) : nonnegative (Matrix_new (F := R) r c).
Proof. intros i j. cbn. lra. Qed.

(** The engine holds non-negative [V], [W^p] and [H]. *)
Definition nonnegative_factors (d : @Deconvolver R) : Prop :=
  nonnegative (_v d) /\ (forall p, nonnegative (W d p)) /\ nonnegative (_h d).

Lemma factorizeNMFEDWUpdate_nonneg (d : @Deconvolver R) :
  nonnegative_factors d ->
  nonnegative (factorizeNMFEDWUpdate d (W d 0)).
Proof.
  intros (Hv & Hw & Hh). unfold factorizeNMFEDWUpdate.
  destruct (negb (_wConstant d)); [|apply Hw]. cbv zeta.
  set (num := multWithTransposedMatrix (_v d) (_h d)).
  set (den := multWithMatrix (W d 0) _).
  destruct (cell_loop (cols (W d 0)) (rows (W d 0))
              (fun j => negb (wColConstant d j))
              (fun i j x => (x * (at_ num i j / floor_divisor (at_ den i j)))%sc)
              (W d 0)) as [_ Hcells].
  cbv beta in Hcells. intros i j. rewrite Hcells.
  destruct (_ && _); [|apply Hw].
  apply update_factor_nonneg; [apply Hw|].
  apply multWithTransposedMatrix_nonneg; assumption.
Qed.

Lemma nonnegative_set_first (d : @Deconvolver R) (w' : @Matrix R) :
  (forall p, nonnegative (W d p)) -> nonnegative w' ->
  forall p, nonnegative (W (set_w d (list_set (_w d) 0 w')) p).
Proof.
  intros Hw Hw' p. unfold W. cbn [_w set_w]. rewrite nth_list_set.
  destruct (_ && _); [exact Hw'|apply Hw].
Qed.

Lemma factorizeNMFED_body_nonneg (d : @Deconvolver R) :
  nonnegative_factors d -> nonnegative_factors (factorizeNMFED_body d).
Proof.
  intros Hd. pose proof Hd as (Hv & Hw & Hh).
  pose proof (factorizeNMFEDWUpdate_nonneg d Hd) as Hw'.
  unfold factorizeNMFED_body, calculateNMFEDHUpdate. cbv zeta.
  set (d1 := set_w d _).
  assert (Hw1 : forall p, nonnegative (W d1 p))
    by (apply nonnegative_set_first; assumption).
  set (num := multWithMatrix_block (W d1 0) (_v d1) _ _ _ _ _ _ _ _ _ _ _ _).
  set (den := multWithMatrix _ (_h d1)).
  assert (Hnum : nonnegative num).
  { apply multWithMatrix_block_nonneg;
      [apply Hw1|exact Hv|apply Matrix_new_nonneg]. }
  destruct (cell_loop (cols (_h d1)) (rows (_h d1)) (fun _ => true)
              (fun i j x => (x * (at_ num i j / floor_divisor (at_ den i j)))%sc)
              (_h d1)) as [_ Hcells].
  cbv beta iota in Hcells.
  split; [exact Hv|]. split; [exact Hw1|].
  intros i j. cbn [_h set_h]. rewrite Hcells.
  destruct (_ && _); [|apply Hh].
  apply update_factor_nonneg; [apply Hh|apply Hnum].
Qed.

(** In exact arithmetic, [decompose] with the Euclidean distance, one
    spectrum and no post-normalization keeps the factors non-negative:
    from non-negative [V], [W] and [H] it returns non-negative [W] and
    [H], after any number of iterations. *)
Theorem euclidean_keeps_nonnegative (default_epsilon : R) (d : @Deconvolver R)
    (maxSteps : nat) (eps : R) (observer : bool) d' calls :
  _t d = 1 -> _normalizeMatrices d = false ->
  nonnegative_factors d ->
  decompose default_epsilon d EuclideanDistance maxSteps eps observer
  = Returned d' calls ->
  nonnegative_factors d'.
Proof.
  intros Ht Hnorm Hd Hret.
  destruct (decompose_exit _ _ _ _ _ _ _ _ Hret) as (conv & body & Hloop & Hexit).
  cbn [loop_of] in Hloop. rewrite Ht in Hloop. cbn [Nat.eqb] in Hloop.
  injection Hloop as <- <-.
  assert (Hconv : forall x, nonnegative_factors x ->
            nonnegative_factors (snd (converged_computing eps x))
            /\ _normalizeMatrices (snd (converged_computing eps x))
               = _normalizeMatrices x).
  { intros x (Hv & Hw & Hh).
    destruct (checkConvergence_w x eps true) as [Hww Hhh].
    pose proof (checkConvergence_controls x eps true) as Hc.
    unfold converged_computing. split.
    - unfold nonnegative_factors, W. rewrite Hww, Hhh.
      replace (_v (snd (checkConvergence x eps true))) with (_v x)
        by (unfold controls in Hc; congruence).
      auto.
    - unfold controls in Hc. congruence. }
  assert (Hinv : forall k,
            let x := fst (after_iterations k (converged_computing eps)
                            factorizeNMFED_body observer maxSteps
                            (set_numSteps d 0) []) in
            nonnegative_factors x /\ _normalizeMatrices x = false).
  { intros k.
    apply (after_iterations_invariant
             (fun x => nonnegative_factors x /\ _normalizeMatrices x = false)).
    - intros x n [Hx Hn]. destruct (Hconv x Hx) as [Hx' Hn'].
      split.
      + apply (factorizeNMFED_body_nonneg _ Hx').
      + pose proof (factorizeNMFED_body_controls
                      (snd (converged_computing eps x))) as Hc.
        cbn [_normalizeMatrices set_numSteps].
        unfold controls in Hc. congruence.
    - split; [exact Hd|exact Hnorm]. }
  cbv zeta in Hexit, Hinv. specialize (Hinv (_numSteps d')).
  set (last := fst (after_iterations _ _ _ _ _ _ _)) in *.
  destruct Hinv as [Hlast Hn].
  assert (Hfin : forall x, nonnegative_factors x -> _normalizeMatrices x = false ->
            nonnegative_factors (finished x)).
  { intros x Hx Hxn. unfold finished. rewrite Hxn. exact Hx. }
  destruct Hexit as [(_ & Hd')|(_ & _ & Hd')]; rewrite Hd'.
  - apply Hfin; assumption.
  - destruct (Hconv last Hlast) as [Hc Hcn]. apply Hfin; [exact Hc|].
    rewrite Hcn. exact Hn.
Qed.

(** ** The sparse Euclidean update without weights *)

(** In exact arithmetic, with every sparsity weight in [S] zero (what the
    constructor leaves there) and no row of [H] of norm zero (the source
    divides by the row norms), one iteration of [factorizeNMFEDSparse] is
    one iteration of [factorizeNMFED]: the same [W], the same cells of
    [H], and every other member the same. *)
Theorem sparse_update_without_weights (d : @Deconvolver R) :
  (forall i j, at_ (_s d) i j = 0%R) ->
  (forall i, i < rows (_h d) -> dotRowRow (_h d) i (_h d) i <> 0%R) ->
  let a := factorizeNMFEDSparse_body d in
  let b := factorizeNMFED_body d in
  _w a = _w b /\ same_shape (_h a) (_h b) /\
  (forall i j, at_ (_h a) i j = at_ (_h b) i j) /\
  controls a = controls b /\ _approx a = _approx b /\
  _oldApprox a = _oldApprox b.
Proof.
  intros Hs _. unfold factorizeNMFEDSparse_body, factorizeNMFED_body,
    calculateNMFEDHUpdate. cbv zeta.
  set (d1 := set_w d _).
  set (num := multWithMatrix_block (W d1 0) (_v d1) _ _ _ _ _ _ _ _ _ _ _ _).
  set (den := multWithMatrix _ (_h d1)).
  set (sqrtT := f_sqrt _).
  cbn [_w _h _approx _oldApprox set_h].
  split; [reflexivity|].
  destruct (cell_loop (cols (_h d1)) (rows (_h d1)) (fun _ => true)
              (fun i j x => (x * (at_ num i j / floor_divisor (at_ den i j)))%sc)
              (_h d1)) as [Hplain Hcells].
  cbv beta iota in Hplain, Hcells.
  destruct (cell_loop (cols (_h d1)) (rows (_h d1)) (fun _ => true)
              (fun i j x =>
                 (x * ((at_ num i j
                        + at_ (_s d1) i j * x
                          * (sqrtT * rowSum (_h d1) i
                             / (dotRowRow (_h d1) i (_h d1) i
                                * f_sqrt (dotRowRow (_h d1) i (_h d1) i))))
                       / floor_divisor
                           (at_ den i j
                            + at_ (_s d1) i j
                              * (sqrtT / f_sqrt (dotRowRow (_h d1) i (_h d1) i)))))%sc)
              (_h d1)) as [Hsparse Hcells'].
  cbv beta iota in Hsparse, Hcells'.
  split; [|split; [|repeat split]].
  - destruct Hplain as [Hr Hc], Hsparse as [Hr' Hc']. split; congruence.
  - intros i j. rewrite Hcells, Hcells'.
    destruct (_ && _); [|reflexivity].
    change (at_ (_s d1) i j) with (at_ (_s d) i j). rewrite Hs.
    cbn [f_add f_mul f_div R_Scalar].
    rewrite !Rmult_0_l, !Rplus_0_r. reflexivity.
Qed.

(** ** The errors, in exact arithmetic *)

Lemma sum_upto_zero_R (n : nat) (f : nat -> R) :
  (forall k, (0 <= f k)%R) ->
  sum_upto n f = 0%R <-> forall k, k < n -> f k = 0%R.
Proof.
  intros Hf. induction n as [|n IH]; cbn [sum_upto f_zero f_add R_Scalar].
  - split; [intros _ k Hk; lia|reflexivity].
  - pose proof (sum_upto_nonneg n f Hf) as Hsum. pose proof (Hf n) as Hn.
    split.
    + intros H k Hk. destruct (Nat.eq_dec k n) as [->|Hne]; [lra|].
      apply IH; [lra|lia].
    + intros H. rewrite (proj2 IH) by (intros k Hk; apply H; lia).
      rewrite (H n) by lia. lra.
Qed.

Lemma frobeniusNorm_zero_R (m : @Matrix R) :
  frobeniusNorm m = 0%R
  <-> forall i j, i < rows m -> j < cols m -> at_ m i j = 0%R.
Proof.
  assert (Hsq : forall x : R, (0 <= x * x)%R) by (intros x; nra).
  assert (Hrow : forall i, (0 <= sum_upto (cols m)
                                  (fun j => (at_ m i j * at_ m i j)%sc))%R).
  { intros i. apply sum_upto_nonneg. intros j. apply Hsq. }
  assert (Hall : (0 <= sumSquares m)%R) by (apply sum_upto_nonneg; exact Hrow).
  unfold frobeniusNorm. cbn [f_sqrt R_Scalar].
  assert (Hzero : sumSquares m = 0%R
                  <-> forall i j, i < rows m -> j < cols m -> at_ m i j = 0%R).
  { unfold sumSquares. rewrite sum_upto_zero_R by exact Hrow. split.
    - intros H i j Hi Hj. specialize (H i Hi).
      rewrite sum_upto_zero_R in H by (intros k; apply Hsq).
      specialize (H j Hj). cbn [f_mul R_Scalar] in H. nra.
    - intros H i Hi. apply sum_upto_zero_R; [intros k; apply Hsq|].
      intros j Hj. rewrite (H i j Hi Hj). cbn [f_mul R_Scalar]. lra. }
  rewrite <- Hzero. split.
  - intros H. apply sqrt_eq_0; assumption.
  - intros ->. apply sqrt_0.
Qed.

(** [computeError()] in exact arithmetic.  It measures the stored
    reconstruction [_approx] (it does not recompute it) and writes nothing
    but the two errors: the absolute error is not negative, it is zero
    exactly when the stored reconstruction agrees with [V] in every cell,
    and the relative error times the cached norm of [V] is the absolute
    error when that norm is not zero. *)
Theorem computeError_exact (d : @Deconvolver R) :
  let d' := computeError d in
  d' = set_errors d (_absoluteError d') (_relativeError d') /\
  (0 <= _absoluteError d')%R /\
  (_absoluteError d' = 0%R
   <-> forall i j, i < rows (_approx d) -> j < cols (_approx d) ->
         at_ (_approx d) i j = at_ (_v d) i j) /\
  (_vFrob d <> 0%R -> (_relativeError d' * _vFrob d)%R = _absoluteError d').
Proof.
  cbv zeta. unfold computeError. cbv zeta. cbn [_absoluteError _relativeError set_errors].
  split; [reflexivity|]. split; [|split].
  - unfold frobeniusNorm. cbn [f_sqrt R_Scalar]. apply sqrt_pos.
  - rewrite frobeniusNorm_zero_R. cbn [rows cols at_ Matrix_sub f_sub R_Scalar].
    split; intros H i j Hi Hj; specialize (H i j Hi Hj); lra.
  - intros Hne. cbn [f_div R_Scalar]. field. exact Hne.
Qed.

(** ** Runs in binary64 arithmetic

    Engines built by the constructor from generator functions, as a caller
    builds them.  All have one spectrum but the one for
    [normalizeMatrices]; with one spectrum no driver reaches
    [ensureNonnegativity], and the runs pass [1e-9] for its default
    [epsilon]. *)
Module Runs.

Definition epsilon : float := DIVISOR_FLOOR.

Definition ones (_ _ : nat) : float := 1%float.
Definition twos (_ _ : nat) : float := 2%float.

(** [1] in the first row, [0] below. *)
Definition first_row (i _ : nat) : float := if i =? 0 then 1%float else 0%float.

(** [2] in column 1, [0] elsewhere. *)
Definition second_column (_ j : nat) : float := if j =? 1 then 2%float else 0%float.

(** [V = (1)], and [V = (1 1)]. *)
Definition V_1x1 : @Matrix float := Matrix_gen 1 1 ones.
Definition V_1x2 : @Matrix float := Matrix_gen 1 2 ones.

(** C1: the claim holds of the Euclidean drivers and fails in the code of
    the three KL drivers.  [V = (1)], [W = (1 1)], [H = (1; 0)], one
    iteration.  The second row of [H] sums to [0.0]; the W-update of
    [factorizeNMDKL], [factorizeNMFKLSparse] and [factorizeNMFKLTempCont]
    divides [0.0] by it and leaves NaN in [W(0, 1)], where
    [factorizeNMFEDWUpdate] on the same engine floors its zero divisor and
    leaves [0.0]. *)
Theorem KL_W_update_divides_by_zero :
  built (construct V_1x1 2 1 ones first_row) (fun d =>
    rowSum (_h d) 1 = 0%float /\
    f_le (rowSum (_h d) 1) f_zero = true /\
    returns (decompose epsilon d KLDivergence 1 0%float false)
      (fun d' _ => PrimFloat.is_nan (at_ (W d' 0) 0 1) = true) /\
    returns (decompose epsilon d KLDivergenceSparse 1 0%float false)
      (fun d' _ => PrimFloat.is_nan (at_ (W d' 0) 0 1) = true) /\
    returns (decompose epsilon d KLDivergenceContinuous 1 0%float false)
      (fun d' _ => PrimFloat.is_nan (at_ (W d' 0) 0 1) = true) /\
    returns (decompose epsilon d EuclideanDistance 1 0%float false)
      (fun d' _ => at_ (W d' 0) 0 1 = 0%float)).
Proof. vm_compute. repeat split. Qed.

(** C2: the claim holds of five drivers and fails in the code of
    [factorizeNMFEDSparseNorm].  [V = (1)], [W = (2)], [H = (1)], with
    [_wConstant] set and column 0 of [W] marked constant, one iteration:
    the normalization of the columns of [W] turns [W(0, 0)] into [1.0],
    where [factorizeNMFED] on the same engine leaves it [2.0]. *)
Theorem sparse_norm_writes_constant_W :
  built (construct V_1x1 1 1 twos ones) (fun d =>
    let d := setWColConstant (setWConstant d true) 0 true in
    _wConstant d = true /\ wColConstant d 0 = true /\
    at_ (W d 0) 0 0 = 2%float /\
    returns (decompose epsilon d EuclideanDistanceSparseNormalized 1 0%float false)
      (fun d' _ => at_ (W d' 0) 0 0 = 1%float) /\
    returns (decompose epsilon d EuclideanDistance 1 0%float false)
      (fun d' _ => at_ (W d' 0) 0 0 = 2%float)).
Proof. vm_compute. repeat split. Qed.

(** C3: two spectra, [H = (0 2)], [W^0 = W^1 = (1)].  The norm of [H] is
    [2.0] and, after the division, the squared norm of its last column is
    [1.0].  The claim (and the comment in the source) has
    [hNormRight = (0, 1)], so [W^0] times [2] and [W^1] times [2 - 1]; the
    code has filled [hNormRight = (1, 0)] and multiplies [W^0] by [2 - 1]
    and [W^1] by [2 - 0]. *)
Theorem normalizeMatrices_shifts_hNormRight :
  built (construct V_1x2 1 2 ones second_column) (fun d =>
    let d' := normalizeMatrices d in
    frobeniusNorm (_h d) = 2%float /\
    at_ (_h d') 0 0 = 0%float /\ at_ (_h d') 0 1 = 1%float /\
    dotColCol (_h d') 1 (_h d') 1 = 1%float /\
    at_ (W d 0) 0 0 = 1%float /\ at_ (W d 1) 0 0 = 1%float /\
    at_ (W d' 0) 0 0 = 1%float /\
    at_ (W d' 1) 0 0 = 2%float).
Proof. vm_compute. repeat split. Qed.

(** C8, the claim as stated fails: with the default stride 25 and
    [maxSteps = 25], a run that is not stopped by convergence reports
    [25/25] from [nextItStep] and then [1.0] from [decompose]: the value
    [1.0] is passed twice. *)
Lemma full_run_reports_one_twice :
  built (construct V_1x1 1 1 ones ones) (fun d =>
    _notificationDelay d = 25 /\
    returns (decompose epsilon d EuclideanDistance 25 0%float true)
      (fun d' calls =>
         _numSteps d' = 25 /\
         calls = [fraction 25 25; 1%Q] /\
         Qeq_bool (fraction 25 25) 1 = true /\
         count_ones calls = 2)).
Proof. vm_compute. repeat split. Qed.

(** C9, the claim as stated fails: over two calls on one engine the
    counter goes from 3 back to 1. *)
Lemma second_call_restarts_counter :
  built (construct V_1x1 1 1 ones ones) (fun d =>
    returns (decompose epsilon d EuclideanDistance 3 0%float false)
      (fun d1 _ =>
         _numSteps d1 = 3 /\
         returns (decompose epsilon d1 EuclideanDistance 1 0%float false)
           (fun d2 _ => _numSteps d2 = 1 /\ _numSteps d2 < _numSteps d1))).
Proof. vm_compute. repeat split; repeat constructor. Qed.

(** In binary64 a floored divisor is never [<= 0.0] (it can be NaN). *)
Lemma floored_divisor_not_le_zero (x : float) :
  f_le (floor_divisor x) f_zero = false.
Proof. apply floor_divisor_not_le_zero. reflexivity. Qed.

(** The theorems with hypotheses, at engines that satisfy them. *)

Definition unit_engine : @Deconvolver float :=
  the_engine (construct V_1x1 1 1 ones ones).

Definition two_spectra_engine : @Deconvolver float :=
  the_engine (construct V_1x2 1 2 ones ones).

Lemma unit_engine_built : construct V_1x1 1 1 ones ones = inr unit_engine.
Proof. reflexivity. Qed.

Lemma two_spectra_engine_built : construct V_1x2 1 2 ones ones = inr two_spectra_engine.
Proof. reflexivity. Qed.

Lemma shifted_convolution_kernel_witness :
  well_formed two_spectra_engine /\
  forall i j, i < 1 -> j < 2 ->
    at_ (_approx (computeApprox two_spectra_engine)) i j
    = sum_upto 2 (fun p => at_ (computeWpH two_spectra_engine p (Matrix_new 1 2)) i j).
Proof.
  assert (Hwf : well_formed two_spectra_engine)
    by (unfold well_formed; vm_compute; repeat split; repeat constructor).
  split; [exact Hwf|].
  destruct (shifted_convolution_kernel two_spectra_engine Hwf) as (_ & _ & Hsum).
  apply Hsum. vm_compute. discriminate.
Defined.

(** The engine after a first convergence test with [eps = 1]: the
    reconstruction [(1)] has been computed and stored. *)
Definition tested_engine : @Deconvolver float :=
  snd (checkConvergence unit_engine 1%float true).

Lemma checkConvergence_cases_witness :
  checkConvergence unit_engine 0%float true = (false, unit_engine) /\
  _oldApprox unit_engine = None /\
  fst (checkConvergence unit_engine 1%float true) = false /\
  _oldApprox tested_engine = Some (_approx (computeApprox unit_engine)) /\
  fst (checkConvergence tested_engine 1%float true) = true.
Proof.
  destruct (checkConvergence_cases unit_engine 0%float true) as (Hzero & _ & _).
  destruct (checkConvergence_cases unit_engine 1%float true) as (_ & Hfirst & _).
  destruct (checkConvergence_cases tested_engine 1%float true) as (_ & _ & Hnext).
  specialize (Hzero eq_refl). specialize (Hfirst eq_refl eq_refl).
  specialize (Hnext (_approx (computeApprox unit_engine)) eq_refl eq_refl).
  split; [exact Hzero|]. split; [reflexivity|].
  split; [rewrite Hfirst; reflexivity|]. split; [reflexivity|].
  rewrite Hnext. vm_compute. reflexivity.
Defined.

Lemma errors_raised_witness :
  (exists e, construct V_1x1 1 2 ones ones = inl e) /\
  (exists e d' calls,
     decompose epsilon two_spectra_engine KLDivergenceSparse 5 0%float false
     = Thrown e d' calls
     /\ error_kind e = Some Unsupported) /\
  (exists e d' calls,
     decompose epsilon unit_engine (OtherCostFunction 6) 5 0%float false
     = Thrown e d' calls
     /\ error_kind e = Some InvalidArgument).
Proof.
  destruct (errors_raised (F := float) epsilon) as (Hconstruct & _ & Hunsupported & Hinvalid & _).
  split; [|split].
  - apply Hconstruct. vm_compute. repeat constructor.
  - apply Hunsupported. split; [reflexivity|]. vm_compute. repeat constructor.
  - apply Hinvalid. exists 6. reflexivity.
Defined.

Lemma construct_defaults_witness :
  construct V_1x1 1 1 ones ones = inr unit_engine /\
  _wConstant unit_engine = false /\
  _wColConstant unit_engine = [false] /\
  _absoluteError unit_engine = (-1)%float /\
  _relativeError unit_engine = (-1)%float /\
  _notificationDelay unit_engine = 25.
Proof.
  split; [reflexivity|].
  destruct (construct_defaults V_1x1 1 1 ones ones unit_engine eq_refl)
    as (_ & _ & HwC & HwCC & Habs & Hrel & _ & Hdelay).
  repeat split; assumption.
Defined.

Lemma progress_calls_witness :
  exists (d' : @Deconvolver float) (calls : list Q),
    decompose epsilon unit_engine EuclideanDistance 25 0%float true
    = Returned d' calls /\
    StronglySorted Qle calls /\
    last calls 0%Q = 1%Q /\
    count_ones calls = 2.
Proof.
  assert (Hsteps : returned_steps
            (decompose epsilon unit_engine EuclideanDistance 25 0%float true)
          = Some 25) by (vm_compute; reflexivity).
  destruct (decompose epsilon unit_engine EuclideanDistance 25 0%float true)
    as [d' calls| | | |] eqn:Hrun; try discriminate Hsteps.
  exists d', calls. split; [reflexivity|].
  destruct (progress_calls epsilon unit_engine EuclideanDistance 25 0%float true
              d' calls Hrun) as (_ & Hsorted & Hlast & Hones & _).
  split; [exact Hsorted|]. split; [apply Hlast; reflexivity|].
  destruct (Hones eq_refl) as (_ & _ & Hcount).
  rewrite Hcount by (vm_compute; discriminate).
  injection Hsteps as ->. reflexivity.
Defined.

Lemma step_counter_within_call_witness :
  exists (d' : @Deconvolver float) (calls : list Q),
    decompose epsilon unit_engine EuclideanDistance 3 0%float false
    = Returned d' calls /\
    _numSteps d' <= 3.
Proof.
  assert (Hsteps : returned_steps
            (decompose epsilon unit_engine EuclideanDistance 3 0%float false)
          = Some 3) by (vm_compute; reflexivity).
  destruct (decompose epsilon unit_engine EuclideanDistance 3 0%float false)
    as [d' calls| | | |] eqn:Hrun; try discriminate Hsteps.
  exists d', calls. split; [reflexivity|].
  destruct (step_counter_within_call epsilon unit_engine EuclideanDistance 3
              0%float false d' calls Hrun) as [Hle _].
  exact Hle.
Defined.

End Runs.

(** ** A run in exact arithmetic *)
Module ExactRuns.

(** [V = (6)], [W^0 = (3)], [H = (2)], one spectrum. *)
Definition real_engine : @Deconvolver R :=
  the_engine (construct (Matrix_gen 1 1 (fun _ _ => 6%R)) 1 1
                (fun _ _ => 3%R) (fun _ _ => 2%R)).

Lemma real_engine_built :
  construct (Matrix_gen 1 1 (fun _ _ => 6%R)) 1 1 (fun _ _ => 3%R) (fun _ _ => 2%R)
  = inr real_engine.
Proof. reflexivity. Qed.

Lemma normalize_keeps_product_witness :
  well_formed real_engine /\ _t real_engine = 1 /\
  (0 < frobeniusNorm (_h real_engine))%R /\
  frobeniusNorm (_h (normalizeMatrices real_engine)) = 1%R.
Proof.
  destruct (construct_well_formed _ _ _ _ _ _ real_engine_built)
    as (Hwf & _ & Ht & Hh).
  assert (Hpos : (0 < frobeniusNorm (_h real_engine))%R).
  { rewrite Hh. unfold frobeniusNorm, sumSquares, Matrix_gen.
    cbn [rows cols at_ sum_upto f_sqrt f_add f_mul f_zero R_Scalar].
    apply sqrt_lt_R0. lra. }
  split; [exact Hwf|]. split; [exact Ht|]. split; [exact Hpos|].
  destruct (normalize_keeps_product real_engine Hwf Ht Hpos) as [_ Hnorm].
  exact Hnorm.
Defined.

End ExactRuns.

(** ** Further runs

    The theorems about construction, replacement, [decompose] and the
    post-processing, at engines that satisfy their hypotheses. *)
Module Examples.

Import Runs.

Lemma two_spectra_engine_well_formed : well_formed two_spectra_engine.
Proof. unfold well_formed; vm_compute; repeat split; repeat constructor. Qed.

Lemma construct_fills_witness :
  construct V_1x2 1 2 ones ones = inr two_spectra_engine /\
  at_ (W two_spectra_engine 1) 0 0 = 1%float /\
  at_ (_h two_spectra_engine) 0 1 = 1%float.
Proof.
  split; [reflexivity|].
  destruct (construct_fills V_1x2 1 2 ones ones two_spectra_engine eq_refl)
    as (HW & HH & _).
  split; [apply (HW 1 0 0); vm_compute; lia|apply (HH 0 1)].
Defined.

(** [(2)], and the [2 x 2] matrix of twos. *)
Definition two_1x1 : @Matrix float := Matrix_gen 1 1 twos.
Definition twos_2x2 : @Matrix float := Matrix_gen 2 2 twos.

Lemma replacing_factors_witness :
  well_formed two_spectra_engine /\
  (exists d', setW two_spectra_engine 1 two_1x1 = Some d' /\ W d' 1 = two_1x1) /\
  setH two_spectra_engine twos_2x2 = None.
Proof.
  split; [exact two_spectra_engine_well_formed|].
  destruct (replacing_factors two_spectra_engine two_spectra_engine_well_formed)
    as [HW HH].
  split.
  - destruct (HW 1 two_1x1) as [Hok _].
    destruct Hok as (d' & Hset & _ & HWd & _).
    + split; [vm_compute; lia|split; reflexivity].
    + exists d'. split; assumption.
  - destruct (HH twos_2x2) as [_ Hno]. apply Hno.
    intros [Hr _]. vm_compute in Hr. discriminate Hr.
Defined.

Lemma decompose_keeps_settings_witness :
  exists (d' : @Deconvolver float) (calls : list Q),
    decompose epsilon two_spectra_engine KLDivergence 3 0%float false
    = Returned d' calls /\
    settings d' = settings two_spectra_engine /\ _oldApprox d' = None.
Proof.
  assert (Hsteps : returned_steps
            (decompose epsilon two_spectra_engine KLDivergence 3 0%float false)
          = Some 3) by (vm_compute; reflexivity).
  destruct (decompose epsilon two_spectra_engine KLDivergence 3 0%float false)
    as [d' calls| | | |] eqn:Hrun; try discriminate Hsteps.
  exists d', calls. split; [reflexivity|].
  exact (decompose_keeps_settings epsilon two_spectra_engine KLDivergence 3
           0%float false d' calls Hrun).
Defined.

Lemma decompose_stops_witness :
  exists (d' : @Deconvolver float) (calls : list Q),
    decompose epsilon unit_engine EuclideanDistanceSparse 4 0%float false
    = Returned d' calls /\
    _numSteps d' = 4.
Proof.
  assert (Hsteps : returned_steps
            (decompose epsilon unit_engine EuclideanDistanceSparse 4 0%float false)
          = Some 4) by (vm_compute; reflexivity).
  destruct (decompose epsilon unit_engine EuclideanDistanceSparse 4 0%float false)
    as [d' calls| | | |] eqn:Hrun; try discriminate Hsteps.
  exists d', calls. split; [reflexivity|].
  destruct (decompose_stops epsilon unit_engine EuclideanDistanceSparse 4
              0%float false d' calls Hrun) as [_ Hall].
  apply Hall. reflexivity.
Defined.

Lemma decompose_edges_witness :
  exists (d' : @Deconvolver float) (calls : list Q),
    decompose epsilon unit_engine KLDivergenceContinuous 0 1%float true
    = Returned d' calls /\
    d' = finished (set_numSteps unit_engine 0) /\ calls = [1%Q].
Proof.
  assert (Hsteps : returned_steps
            (decompose epsilon unit_engine KLDivergenceContinuous 0 1%float true)
          = Some 0) by (vm_compute; reflexivity).
  destruct (decompose epsilon unit_engine KLDivergenceContinuous 0 1%float true)
    as [d' calls| | | |] eqn:Hrun; try discriminate Hsteps.
  exists d', calls. split; [reflexivity|].
  destruct (decompose_edges epsilon unit_engine KLDivergenceContinuous 0
              1%float true d' calls Hrun) as [Hnone _].
  exact (Hnone eq_refl).
Defined.

(** The engine of two spectra with [W] held constant. *)
Definition constant_engine : @Deconvolver float :=
  setWConstant two_spectra_engine true.

Lemma constant_W_survives_decompose_witness :
  exists (d' : @Deconvolver float) (calls : list Q),
    decompose epsilon constant_engine EuclideanDistance 2 0%float false
    = Returned d' calls /\
    _w d' = _w constant_engine.
Proof.
  assert (Hsteps : returned_steps
            (decompose epsilon constant_engine EuclideanDistance 2 0%float false)
          = Some 2) by (vm_compute; reflexivity).
  destruct (decompose epsilon constant_engine EuclideanDistance 2 0%float false)
    as [d' calls| | | |] eqn:Hrun; try discriminate Hsteps.
  exists d', calls. split; [reflexivity|].
  destruct (constant_W_survives_decompose epsilon constant_engine
              EuclideanDistance 2 0%float false d' calls) as [Hall _].
  - discriminate.
  - reflexivity.
  - exact Hrun.
  - apply Hall. reflexivity.
Defined.

(** The engine of two spectra with post-normalization. *)
Definition normalizing_engine : @Deconvolver float :=
  setNormalizeMatrices two_spectra_engine true.

Lemma decompose_keeps_shapes_witness :
  exists (d' : @Deconvolver float) (calls : list Q),
    decompose epsilon normalizing_engine KLDivergence 2 0%float false
    = Returned d' calls /\
    List.length (_w d') = 2 /\ same_shape (_h d') (_h normalizing_engine).
Proof.
  assert (Hsteps : returned_steps
            (decompose epsilon normalizing_engine KLDivergence 2 0%float false)
          = Some 2) by (vm_compute; reflexivity).
  destruct (decompose epsilon normalizing_engine KLDivergence 2 0%float false)
    as [d' calls| | | |] eqn:Hrun; try discriminate Hsteps.
  exists d', calls. split; [reflexivity|].
  destruct (decompose_keeps_shapes epsilon normalizing_engine KLDivergence 2
              0%float false d' calls Hrun) as (Hlen & _ & Hh).
  split; [exact Hlen|exact Hh].
Defined.

(** The engine of two spectra with a zero stride. *)
Definition zero_stride_engine : @Deconvolver float :=
  setNotificationDelay two_spectra_engine 0.

Lemma decompose_outcome_witness :
  avoids_static_scratch KLDivergence (_t two_spectra_engine) = true /\
  (exists d' calls,
     decompose epsilon two_spectra_engine KLDivergence 3 0%float true
     = Returned d' calls) /\
  decompose epsilon zero_stride_engine KLDivergence 3 0%float true
  = UndefinedBehaviour.
Proof.
  assert (Hruns : driver_runs KLDivergence 2)
    by (left; split; [reflexivity|intros n; discriminate]).
  split; [reflexivity|]. split.
  - destruct (decompose_outcome epsilon two_spectra_engine KLDivergence 3
                0%float true eq_refl) as (Hreturns & _).
    apply Hreturns; [exact Hruns|]. right. vm_compute. lia.
  - destruct (decompose_outcome epsilon zero_stride_engine KLDivergence 3
                0%float true eq_refl) as (_ & Hundefined & _).
    apply Hundefined; [exact Hruns|reflexivity|reflexivity|lia|reflexivity].
Defined.

(** [(1; 0)]. *)
Definition one_zero : @Matrix float := Matrix_gen 2 1 first_row.

Lemma ensureNonnegativity_clamps_witness :
  f_le epsilon f_zero = false /\
  at_ (ensureNonnegativity one_zero epsilon) 1 0 = epsilon /\
  at_ (ensureNonnegativity one_zero epsilon) 0 0 = 1%float.
Proof.
  assert (Heps : f_le epsilon f_zero = false) by (vm_compute; reflexivity).
  split; [exact Heps|].
  destruct (ensureNonnegativity_clamps one_zero epsilon Heps)
    as (_ & _ & Hclamped & Hkept).
  split.
  - apply Hclamped; [vm_compute; lia|vm_compute; lia|reflexivity].
  - apply (Hkept 0 0). reflexivity.
Defined.

Lemma normalizeMatrices_scales_witness :
  List.length (_w two_spectra_engine) = _t two_spectra_engine /\
  at_ (_h (normalizeMatrices two_spectra_engine)) 0 1
  = (1 / frobeniusNorm (_h two_spectra_engine))%float.
Proof.
  split; [reflexivity|].
  destruct (normalizeMatrices_scales two_spectra_engine eq_refl)
    as (_ & _ & _ & _ & _ & Hcells & _).
  apply (Hcells 0 1); vm_compute; lia.
Defined.

End Examples.

(** ** Further runs in exact arithmetic *)
Module ExactExamples.

Import ExactRuns.

Lemma real_engine_H_positive : (0 < frobeniusNorm (_h real_engine))%R.
Proof.
  destruct (construct_well_formed _ _ _ _ _ _ real_engine_built) as (_ & _ & _ & Hh).
  rewrite Hh. unfold frobeniusNorm, sumSquares, Matrix_gen.
  cbn [rows cols at_ sum_upto f_sqrt f_add f_mul f_zero R_Scalar].
  apply sqrt_lt_R0. lra.
Qed.

Lemma normalize_unit_norm_witness :
  (0 < frobeniusNorm (_h real_engine))%R /\
  frobeniusNorm (_h (normalizeMatrices real_engine)) = 1%R.
Proof.
  split; [exact real_engine_H_positive|].
  exact (normalize_unit_norm real_engine real_engine_H_positive).
Defined.

Lemma real_engine_cells :
  (forall i j, at_ (_v real_engine) i j = 6%R) /\
  (forall p i j, at_ (W real_engine p) i j = 3%R \/ at_ (W real_engine p) i j = 0%R) /\
  (forall i j, at_ (_h real_engine) i j = 2%R) /\
  (forall i j, at_ (_s real_engine) i j = 0%R).
Proof.
  split; [reflexivity|]. split; [|split; reflexivity].
  intros p i j. unfold real_engine, the_engine, construct.
  cbn [cols rows Matrix_gen Nat.ltb Nat.leb].
  destruct p as [|p]; [|right; destruct p; reflexivity].
  destruct i as [|i], j as [|j]; [left|right|right|right]; reflexivity.
Qed.

Lemma real_engine_nonnegative : nonnegative_factors real_engine.
Proof.
  destruct real_engine_cells as (Hv & Hw & Hh & _).
  split; [|split].
  - intros i j. rewrite Hv. lra.
  - intros p i j. destruct (Hw p i j) as [-> | ->]; lra.
  - intros i j. rewrite Hh. lra.
Qed.

Lemma euclidean_keeps_nonnegative_witness :
  exists (d' : @Deconvolver R) (calls : list Q),
    decompose 1%R real_engine EuclideanDistance 2 0%R false = Returned d' calls /\
    nonnegative_factors real_engine /\ nonnegative_factors d'.
Proof.
  destruct (decompose_returns 1%R real_engine EuclideanDistance 2 0%R false
              (converged_computing 0%R) factorizeNMFED_body
              (or_introl eq_refl) eq_refl)
    as (d' & calls & Hrun).
  exists d', calls. split; [exact Hrun|]. split; [exact real_engine_nonnegative|].
  exact (euclidean_keeps_nonnegative 1%R real_engine 2 0%R false d' calls
           eq_refl eq_refl real_engine_nonnegative Hrun).
Defined.

Lemma computeError_exact_witness :
  _vFrob real_engine <> 0%R /\
  (_relativeError (computeError real_engine) * _vFrob real_engine)%R
  = _absoluteError (computeError real_engine).
Proof.
  assert (Hne : _vFrob real_engine <> 0%R).
  { change (_vFrob real_engine)
      with (frobeniusNorm (Matrix_gen 1 1 (fun _ _ => 6%R))).
    intros H. rewrite frobeniusNorm_zero_R in H.
    specialize (H 0 0 ltac:(cbn; lia) ltac:(cbn; lia)). cbn in H. lra. }
  split; [exact Hne|].
  destruct (computeError_exact real_engine) as (_ & _ & _ & Hrel).
  exact (Hrel Hne).
Defined.

Lemma sparse_update_without_weights_witness :
  (forall i j, at_ (_s real_engine) i j = 0%R) /\
  (forall i j,
     at_ (_h (factorizeNMFEDSparse_body real_engine)) i j
     = at_ (_h (factorizeNMFED_body real_engine)) i j).
Proof.
  destruct real_engine_cells as (_ & _ & Hh & Hs).
  split; [exact Hs|].
  destruct (sparse_update_without_weights real_engine Hs) as (_ & _ & Hcells & _).
  - intros i Hi. assert (Hi0 : i = 0) by (vm_compute in Hi; lia). subst i.
    unfold dotRowRow. 
    replace (cols (_h real_engine)) with 1 by reflexivity.
    cbn [sum_upto f_add f_mul f_zero R_Scalar]. rewrite !Hh. lra.
  - exact Hcells.
Defined.

End ExactExamples.
